(** * Gomoku: rules engine, board state and session persistence

    A shallow embedding of the JavaScript sources
      - GameLogic   (isValidMove, checkWinner, checkDraw),
      - GameBoard   (reset, makeMove, undo, getPiece, isEmpty, ...),
      - GameController (saveGame, loadGame),
      - helpers.js  (boardToDisplayCoords, displayToBoardCoords),
    followed by the properties proved about them.

    Conventions.  JavaScript numbers that the code uses as indices, counters
    and timestamps are integers and are modelled by [Z].  An array is a
    [list]; reading past its end gives [undefined], reading a property of
    [undefined] throws a [TypeError], and writing past its end extends the
    array with holes.  A method that can throw returns a [completion]; a
    method of a mutable object is a state transformer over the object's
    fields that also says how the call completed. *)

From Stdlib Require Import ZArith Lia Bool Ascii String DecimalString.
From stdpp Require Import base tactics option list.

Local Open Scope Z_scope.

(** ** Completions: normal return, exception, or an exhausted loop bound *)

Inductive Exn : Type :=
| GameOverError     (* the Error of makeMove that says the game has ended *)
| InvalidMoveError  (* the Error of makeMove that says the position is invalid *)
| TypeError         (* raised by the runtime: property access on undefined *)
| SyntaxError.      (* raised by JSON.parse *)

Inductive completion (A : Type) : Type :=
| Return (a : A)
| Throw (e : Exn)
| Spin.             (* a [while] loop did not leave within its iteration bound *)

Arguments Return {A} a.
Arguments Throw {A} e.
Arguments Spin {A}.

Definition cbind {A B} (m : completion A) (k : A -> completion B) : completion B :=
  match m with
  | Return a => k a
  | Throw e => Throw e
  | Spin => Spin
  end.

Declare Scope js_scope.
Delimit Scope js_scope with js.
Notation "x <- m ;; k" := (cbind m (fun x => k))
  (at level 100, m at next level, right associativity) : js_scope.

(** ** Data model *)

Inductive Player : Type := black | white.

(** What a board slot can hold: a hole left by extending an array
    ([undefined]), [null], or one of the two player strings. *)
Inductive Cell : Type := undefined | null | piece (p : Player).

Inductive GameStatus : Type := playing | won | draw.

Abbreviation Board := (list (list Cell)).

Record Move : Type := mkMove {
  row : Z;
  col : Z;
  player : Player;
  moveNumber : Z;
  timestamp : Z
}.

Definition Player_eqb (p q : Player) : bool :=
  match p, q with
  | black, black | white, white => true
  | _, _ => false
  end.

(** Strict equality [===] on slot values. *)
Definition Cell_eqb (x y : Cell) : bool :=
  match x, y with
  | undefined, undefined | null, null => true
  | piece p, piece q => Player_eqb p q
  | _, _ => false
  end.

Definition GameStatus_eqb (x y : GameStatus) : bool :=
  match x, y with
  | playing, playing | won, won | draw, draw => true
  | _, _ => false
  end.

(** ** JavaScript arrays *)

(** [arr[i]] for an integer [i]: [None] stands for [undefined]. *)
Definition js_get {A} (arr : list A) (i : Z) : option A :=
  if i <? 0 then None else arr !! Z.to_nat i.

(** [arr[i] = v] on the elements of [arr]: an index past the end extends the
    array with holes; a negative index names an ordinary property and leaves
    the elements alone. *)
Definition js_set {A} (hole : A) (arr : list A) (i : Z) (v : A) : list A :=
  if i <? 0 then arr
  else if i <? Z.of_nat (length arr) then <[Z.to_nat i := v]> arr
  else arr ++ replicate (Z.to_nat i - length arr) hole ++ [v].

(** [board[r][c]] *)
Definition board_get (board : Board) (r c : Z) : completion Cell :=
  match js_get board r with
  | None => Throw TypeError
  | Some line => Return (default undefined (js_get line c))
  end.

(** [board[r][c] = v] *)
Definition board_set (board : Board) (r c : Z) (v : Cell) : completion Board :=
  match js_get board r with
  | None => Throw TypeError
  | Some line => Return (<[Z.to_nat r := js_set undefined line c v]> board)
  end.

(** ** GameLogic *)

Module GameLogic.

Definition BOARD_SIZE : Z := 15.
Definition WINNING_LENGTH : Z := 5.

Definition out_of_board (row col : Z) : bool :=
  (row <? 0) || (row >=? BOARD_SIZE) || (col <? 0) || (col >=? BOARD_SIZE).

Definition isValidMove (board : Board) (row col : Z) : completion bool :=
  if out_of_board row col then Return false
  else (x <- board_get board row col ;; Return (Cell_eqb x null))%js.

Definition directions : list (list (Z * Z)) :=
  [ [ (0, 1); (0, -1) ];
    [ (1, 0); (-1, 0) ];
    [ (1, 1); (-1, -1) ];
    [ (1, -1); (-1, 1) ] ].

(** The [while] loop of [checkWinner]; [r], [c] and [count] are its
    variables.  One unit of [fuel] pays for one evaluation of the loop
    condition. *)
Fixpoint while_same (fuel : nat) (board : Board) (player : Player)
    (dx dy r c count : Z) : completion Z :=
  match fuel with
  | O => Spin
  | S fuel' =>
      if (r >=? 0) && (r <? BOARD_SIZE) && (c >=? 0) && (c <? BOARD_SIZE) then
        (x <- board_get board r c ;;
         if Cell_eqb x (piece player)
         then while_same fuel' board player dx dy (r + dx) (c + dy) (count + 1)
         else Return count)%js
      else Return count
  end.

(** A ray meets at most [BOARD_SIZE] cells of the board, so the condition
    is evaluated at most [BOARD_SIZE + 1] times. *)
Definition loop_bound : nat := Z.to_nat (BOARD_SIZE + 1).

(** [for (const [dx, dy] of direction) { ... }] *)
Fixpoint for_rays (board : Board) (row col : Z) (player : Player)
    (direction : list (Z * Z)) (count : Z) : completion Z :=
  match direction with
  | [] => Return count
  | (dx, dy) :: rest =>
      (count' <- while_same loop_bound board player dx dy (row + dx) (col + dy) count ;;
       for_rays board row col player rest count')%js
  end.

(** [for (const direction of directions) { ... }] *)
Fixpoint for_directions (board : Board) (row col : Z) (player : Player)
    (dirs : list (list (Z * Z))) : completion bool :=
  match dirs with
  | [] => Return false
  | direction :: rest =>
      (count <- for_rays board row col player direction 1 ;;
       if count >=? WINNING_LENGTH then Return true
       else for_directions board row col player rest)%js
  end.

Definition checkWinner (board : Board) (row col : Z) (player : Player)
    : completion bool :=
  for_directions board row col player directions.

(** The inner and outer [for] loops of [checkDraw]: [Return true] as soon
    as a [null] slot is met. *)
Fixpoint any_null_in_row (board : Board) (row : Z) (cols : list Z)
    : completion bool :=
  match cols with
  | [] => Return false
  | col :: rest =>
      (x <- board_get board row col ;;
       if Cell_eqb x null then Return true
       else any_null_in_row board row rest)%js
  end.

Fixpoint any_null (board : Board) (rows cols : list Z) : completion bool :=
  match rows with
  | [] => Return false
  | row :: rest =>
      (found <- any_null_in_row board row cols ;;
       if found then Return true else any_null board rest cols)%js
  end.

Definition indices : list Z := map Z.of_nat (seq 0 (Z.to_nat BOARD_SIZE)).

Definition checkDraw (board : Board) : completion bool :=
  (found <- any_null board indices indices ;; Return (negb found))%js.

(** The two [for] loops of [getValidMoves]; [validMoves] is the array being
    filled by [push]. *)
Fixpoint push_valid_in_row (board : Board) (row : Z) (cols : list Z)
    (validMoves : list (Z * Z)) : completion (list (Z * Z)) :=
  match cols with
  | [] => Return validMoves
  | col :: rest =>
      (valid <- isValidMove board row col ;;
       push_valid_in_row board row rest
         (if valid then validMoves ++ [(row, col)] else validMoves))%js
  end.

Fixpoint push_valid (board : Board) (rows cols : list Z)
    (validMoves : list (Z * Z)) : completion (list (Z * Z)) :=
  match rows with
  | [] => Return validMoves
  | row :: rest =>
      (validMoves' <- push_valid_in_row board row cols validMoves ;;
       push_valid board rest cols validMoves')%js
  end.

(** [getValidMoves(board)]: the objects [{row, col}] are pairs. *)
Definition getValidMoves (board : Board) : completion (list (Z * Z)) :=
  push_valid board indices indices [].

(** [_countConsecutive]: the placeholder of the source, which reads nothing. *)
Definition _countConsecutive (board : Board) (row col : Z) (player : Player) : Z := 1.

(** [evaluatePosition(board, row, col, player)] *)
Definition evaluatePosition (board : Board) (row col : Z) (player : Player) : Z :=
  let score := 0 in
  let opponent := if Player_eqb player black then white else black in
  let centerDistance := Z.abs (row - 7) + Z.abs (col - 7) in
  let score := score + (14 - centerDistance) * 2 in
  let score := score + _countConsecutive board row col player * 10 in
  let score := score + _countConsecutive board row col opponent * 5 in
  score.

End GameLogic.

(** ** Methods of a mutable object

    A method is a transformer of the object's fields that may throw: it
    returns how the call completed and the fields it leaves behind. *)

Definition Method (S A : Type) : Type := S -> completion A * S.

Definition ret {S A} (a : A) : Method S A := fun s => (Return a, s).
Definition throw {S A} (e : Exn) : Method S A := fun s => (Throw e, s).
Definition lift {S A} (c : completion A) : Method S A := fun s => (c, s).
Definition bind {S A B} (m : Method S A) (k : A -> Method S B) : Method S B :=
  fun s =>
    match m s with
    | (Return a, s') => k a s'
    | (Throw e, s') => (Throw e, s')
    | (Spin, s') => (Spin, s')
    end.

(** [this.field] *)
Definition this {S A} (field : S -> A) : Method S A := fun s => (Return (field s), s).

Declare Scope method_scope.
Delimit Scope method_scope with method.
Notation "x <- m ;; k" := (bind m (fun x => k))
  (at level 100, m at next level, right associativity) : method_scope.
Notation "m ;;; k" := (bind m (fun _ => k))
  (at level 100, right associativity) : method_scope.

(** ** GameBoard *)

Module GameBoard.

(** The mutable fields of a [GameBoard] object ([boardSize] is a constant
    and [gameLogic] has no state). *)
Record Session : Type := mkSession {
  board : Board;
  moveHistory : list Move;
  currentPlayer : Player;
  gameStatus : GameStatus;
  winner : option Player
}.

Definition boardSize : Z := 15.

Definition M (A : Type) : Type := Method Session A.

Definition set_board (b : Board) : M unit :=
  fun s => (Return tt, mkSession b (moveHistory s) (currentPlayer s) (gameStatus s) (winner s)).
Definition set_moveHistory (h : list Move) : M unit :=
  fun s => (Return tt, mkSession (board s) h (currentPlayer s) (gameStatus s) (winner s)).
Definition set_currentPlayer (p : Player) : M unit :=
  fun s => (Return tt, mkSession (board s) (moveHistory s) p (gameStatus s) (winner s)).
Definition set_gameStatus (g : GameStatus) : M unit :=
  fun s => (Return tt, mkSession (board s) (moveHistory s) (currentPlayer s) g (winner s)).
Definition set_winner (w : option Player) : M unit :=
  fun s => (Return tt, mkSession (board s) (moveHistory s) (currentPlayer s) (gameStatus s) w).

Local Open Scope method_scope.

(** [_createEmptyBoard]: [boardSize] rows, each [new Array(boardSize).fill(null)]. *)
Definition _createEmptyBoard : Board :=
  replicate (Z.to_nat boardSize) (replicate (Z.to_nat boardSize) null).

(** The state set up by the constructor. *)
Definition initial : Session :=
  mkSession _createEmptyBoard [] black playing None.

Definition reset : M unit :=
  set_board _createEmptyBoard ;;;
  set_moveHistory [] ;;;
  set_currentPlayer black ;;;
  set_gameStatus playing ;;;
  set_winner None.

(** [makeMove(row, col)]; [now] is the value of [Date.now()] at the call. *)
Definition makeMove (r c now : Z) : M bool :=
  status <- this gameStatus ;;
  if negb (GameStatus_eqb status playing) then throw GameOverError else
  b <- this board ;;
  valid <- lift (GameLogic.isValidMove b r c) ;;
  if negb valid then throw InvalidMoveError else
  cur <- this currentPlayer ;;
  b1 <- lift (board_set b r c (piece cur)) ;;
  set_board b1 ;;;
  h <- this moveHistory ;;
  set_moveHistory (h ++ [mkMove r c cur (Z.of_nat (length h) + 1) now]) ;;;
  b2 <- this board ;;
  win <- lift (GameLogic.checkWinner b2 r c cur) ;;
  if win then
    set_gameStatus won ;;;
    set_winner (Some cur) ;;;
    ret true
  else
    b3 <- this board ;;
    full <- lift (GameLogic.checkDraw b3) ;;
    if full then
      set_gameStatus draw ;;;
      ret true
    else
      set_currentPlayer (if Player_eqb cur black then white else black) ;;;
      ret true.

(** [Array.prototype.pop]: the remaining array and the removed element. *)
Definition pop {A} (arr : list A) : list A * option A :=
  (removelast arr, last arr).

Definition undo : M bool :=
  h <- this moveHistory ;;
  if Z.of_nat (length h) =? 0 then ret false else
  status <- this gameStatus ;;
  if negb (GameStatus_eqb status playing) then ret false else
  match pop h with
  | (_, None) => throw TypeError   (* unreachable: [h] is not empty *)
  | (h', Some lastMove) =>
      set_moveHistory h' ;;;
      b <- this board ;;
      b' <- lift (board_set b (row lastMove) (col lastMove) null) ;;
      set_board b' ;;;
      set_currentPlayer (player lastMove) ;;;
      ret true
  end.

(** [board.map(row => [...row])]: a fresh array with the same contents. *)
Definition getBoardCopy (s : Session) : Board := map (fun line => line) (board s).

Definition getPiece (s : Session) (r c : Z) : completion Cell :=
  if (r <? 0) || (r >=? boardSize) || (c <? 0) || (c >=? boardSize)
  then Return null
  else board_get (board s) r c.

Definition getCurrentPlayer (s : Session) : Player := currentPlayer s.
Definition getGameStatus (s : Session) : GameStatus := gameStatus s.
Definition getWinner (s : Session) : option Player := winner s.
Definition getMoveHistory (s : Session) : list Move := moveHistory s.

Definition isEmpty (s : Session) (r c : Z) : completion bool :=
  (x <- getPiece s r c ;; Return (Cell_eqb x null))%js.

(** [getLastMove()]: [None] stands for [null]. *)
Definition getLastMove (s : Session) : option Move :=
  if Z.of_nat (length (moveHistory s)) >? 0
  then js_get (moveHistory s) (Z.of_nat (length (moveHistory s)) - 1)
  else None.

End GameBoard.

(** ** The runtime's JSON object

    [JSON.stringify] and [JSON.parse] are modelled on byte strings.  Strings
    are kept as the bytes of their UTF-8 text; a number written with a
    fraction or an exponent is kept as written. *)

Module JSON.

#[local] Unset Elimination Schemes.

Inductive value : Type :=
| Undefined
| Null
| Bool (b : bool)
| Number (n : Z)
| Real (negative : bool) (int_part : Z) (tail : string)
| Str (s : string)
| Array (items : list value)
| Object (props : list (string * value)).

#[local] Set Elimination Schemes.

Definition dquote : ascii := "034"%char.
Definition backslash : ascii := "092"%char.

Definition code (ch : ascii) : Z := Z.of_nat (nat_of_ascii ch).
Definition char (n : Z) : ascii := ascii_of_nat (Z.to_nat n).

(** *** JSON.stringify *)

(** The decimal digits of [n >= 0], most significant first, in front of [k]. *)
Fixpoint print_digits (fuel : nat) (n : Z) (k : string) : string :=
  match fuel with
  | O => k
  | S fuel' =>
      let k' := String (char (48 + n mod 10)) k in
      if n <? 10 then k' else print_digits fuel' (n / 10) k'
  end.

Definition print_nat (n : Z) (k : string) : string :=
  print_digits (S (Z.to_nat (Z.log2 n))) n k.

Definition print_number (n : Z) (k : string) : string :=
  if n <? 0 then String "-" (print_nat (- n) k) else print_nat n k.

Definition hex_char (d : Z) : ascii :=
  if d <? 10 then char (48 + d) else char (87 + d).

(** QuoteJSONString, one character at a time. *)
Definition print_char (ch : ascii) (k : string) : string :=
  let n := code ch in
  if n =? 34 then String backslash (String dquote k)
  else if n =? 92 then String backslash (String backslash k)
  else if n =? 8 then String backslash (String "b" k)
  else if n =? 12 then String backslash (String "f" k)
  else if n =? 10 then String backslash (String "n" k)
  else if n =? 13 then String backslash (String "r" k)
  else if n =? 9 then String backslash (String "t" k)
  else if n <? 32 then
    String backslash (String "u" (String "0" (String "0"
      (String (hex_char (n / 16)) (String (hex_char (n mod 16)) k)))))
  else String ch k.

Fixpoint print_chars (s : string) (k : string) : string :=
  match s with
  | EmptyString => k
  | String ch rest => print_char ch (print_chars rest k)
  end.

Definition print_string (s : string) (k : string) : string :=
  String dquote (print_chars s (String dquote k)).

(** SerializeJSONProperty, writing in front of [k].  An [undefined] array
    element is written as [null]; an [undefined] property is left out. *)
Fixpoint print (v : value) (k : string) : string :=
  match v with
  | Undefined | Null => String.append "null" k
  | Bool true => String.append "true" k
  | Bool false => String.append "false" k
  | Number n => print_number n k
  | Real negative int_part tail =>
      let body := print_nat int_part (String.append tail k) in
      if negative then String "-" body else body
  | Str s => print_string s k
  | Array items =>
      String "["
        ((fix elements (first : bool) (l : list value) (k : string) : string :=
            match l with
            | [] => k
            | x :: rest =>
                let body := print x (elements false rest k) in
                if first then body else String "," body
            end) true items (String "]" k))
  | Object props =>
      String "{"
        ((fix members (first : bool) (l : list (string * value)) (k : string) : string :=
            match l with
            | [] => k
            | (key, x) :: rest =>
                match x with
                | Undefined => members first rest k
                | _ =>
                    let body := print_string key (String ":" (print x (members false rest k))) in
                    if first then body else String "," body
                end
            end) true props (String "}" k))
  end.

(** [JSON.stringify(v)] for a value other than [undefined]. *)
Definition stringify (v : value) : string := print v EmptyString.

(** *** JSON.parse *)

Local Open Scope js_scope.

Definition is_ws (ch : ascii) : bool :=
  let n := code ch in (n =? 32) || (n =? 9) || (n =? 10) || (n =? 13).

Definition is_digit (ch : ascii) : bool :=
  let n := code ch in (48 <=? n) && (n <=? 57).

Fixpoint skip_ws (s : string) : string :=
  match s with
  | String ch rest => if is_ws ch then skip_ws rest else s
  | EmptyString => s
  end.

Fixpoint read_digits (s : string) (acc : Z) : Z * string :=
  match s with
  | String ch rest =>
      if is_digit ch then read_digits rest (acc * 10 + (code ch - 48)) else (acc, s)
  | EmptyString => (acc, s)
  end.

(** The longest prefix of digits, and what follows it. *)
Fixpoint span_digits (s : string) : string * string :=
  match s with
  | String ch rest =>
      if is_digit ch
      then let '(ds, rest') := span_digits rest in (String ch ds, rest')
      else (EmptyString, s)
  | EmptyString => (EmptyString, s)
  end.

(** An optional fraction: [.] and at least one digit. *)
Definition scan_frac (s : string) : completion (string * string) :=
  match s with
  | String ch rest =>
      if code ch =? 46 then
        match span_digits rest with
        | (EmptyString, _) => Throw SyntaxError
        | (ds, rest') => Return (String ch ds, rest')
        end
      else Return (EmptyString, s)
  | EmptyString => Return (EmptyString, s)
  end.

(** An optional exponent: [e] or [E], an optional sign, at least one digit. *)
Definition scan_exp (s : string) : completion (string * string) :=
  match s with
  | String ch rest =>
      if (code ch =? 101) || (code ch =? 69) then
        let '(sign, rest1) :=
          match rest with
          | String sg rest1 =>
              if (code sg =? 43) || (code sg =? 45)
              then (String sg EmptyString, rest1) else (EmptyString, rest)
          | EmptyString => (EmptyString, rest)
          end in
        match span_digits rest1 with
        | (EmptyString, _) => Throw SyntaxError
        | (ds, rest') => Return (String ch (String.append sign ds), rest')
        end
      else Return (EmptyString, s)
  | EmptyString => Return (EmptyString, s)
  end.

(** A number: an optional minus sign, then 0 or a digit string that does
    not start with 0, then an optional fraction and an optional exponent. *)
Definition parse_number (s : string) : completion (value * string) :=
  let '(negative, s1) :=
    match s with
    | String ch rest => if code ch =? 45 then (true, rest) else (false, s)
    | EmptyString => (false, s)
    end in
  match s1 with
  | String ch rest =>
      if is_digit ch then
        let '(n, s2) := if code ch =? 48 then (0, rest) else read_digits s1 0 in
        frac <- scan_frac s2 ;;
        exp <- scan_exp (snd frac) ;;
        match String.append (fst frac) (fst exp) with
        | EmptyString => Return (Number (if negative then - n else n), snd exp)
        | tail => Return (Real negative n tail, snd exp)
        end
      else Throw SyntaxError
  | EmptyString => Throw SyntaxError
  end.

Definition hex_val (ch : ascii) : option Z :=
  let n := code ch in
  if (48 <=? n) && (n <=? 57) then Some (n - 48)
  else if (97 <=? n) && (n <=? 102) then Some (n - 87)
  else if (65 <=? n) && (n <=? 70) then Some (n - 55)
  else None.

(** The UTF-8 bytes of a 16-bit code unit, in front of [k]. *)
Definition utf8 (u : Z) (k : string) : string :=
  if u <? 128 then String (char u) k
  else if u <? 2048 then
    String (char (192 + u / 64)) (String (char (128 + u mod 64)) k)
  else
    String (char (224 + u / 4096))
      (String (char (128 + (u / 64) mod 64)) (String (char (128 + u mod 64)) k)).

(** The characters of a string literal after its opening quote. *)
Fixpoint parse_chars (s : string) : completion (string * string) :=
  match s with
  | EmptyString => Throw SyntaxError
  | String ch rest =>
      let n := code ch in
      if n =? 34 then Return (EmptyString, rest)
      else if n =? 92 then
        match rest with
        | EmptyString => Throw SyntaxError
        | String e rest1 =>
            let simple (x : Z) :=
              (r <- parse_chars rest1 ;; Return (String (char x) (fst r), snd r)) in
            let m := code e in
            if m =? 34 then simple 34
            else if m =? 92 then simple 92
            else if m =? 47 then simple 47
            else if m =? 98 then simple 8
            else if m =? 102 then simple 12
            else if m =? 110 then simple 10
            else if m =? 114 then simple 13
            else if m =? 116 then simple 9
            else if m =? 117 then
              match rest1 with
              | String h1 (String h2 (String h3 (String h4 rest2))) =>
                  match hex_val h1, hex_val h2, hex_val h3, hex_val h4 with
                  | Some a, Some b, Some c, Some d =>
                      r <- parse_chars rest2 ;;
                      Return (utf8 (((a * 16 + b) * 16 + c) * 16 + d) (fst r), snd r)
                  | _, _, _, _ => Throw SyntaxError
                  end
              | _ => Throw SyntaxError
              end
            else Throw SyntaxError
        end
      else if n <? 32 then Throw SyntaxError
      else (r <- parse_chars rest ;; Return (String ch (fst r), snd r))
  end.

(** [expect word s]: [s] without its prefix [word]. *)
Fixpoint expect (word s : string) : completion string :=
  match word, s with
  | EmptyString, _ => Return s
  | String a word', String b s' => if Ascii.eqb a b then expect word' s' else Throw SyntaxError
  | String _ _, EmptyString => Throw SyntaxError
  end.

Fixpoint parse_value (fuel : nat) (s : string) {struct fuel} : completion (value * string) :=
  match fuel with
  | O => Spin
  | S fuel' =>
      match skip_ws s with
      | EmptyString => Throw SyntaxError
      | String ch rest =>
          let n := code ch in
          if n =? 91 then                                 (* [ *)
            match skip_ws rest with
            | String ch' rest' =>
                if code ch' =? 93 then Return (Array [], rest')
                else (r <- parse_elements fuel' rest ;; Return (Array (fst r), snd r))
            | EmptyString => Throw SyntaxError
            end
          else if n =? 123 then                           (* { *)
            match skip_ws rest with
            | String ch' rest' =>
                if code ch' =? 125 then Return (Object [], rest')
                else (r <- parse_members fuel' rest ;; Return (Object (fst r), snd r))
            | EmptyString => Throw SyntaxError
            end
          else if n =? 34 then
            (r <- parse_chars rest ;; Return (Str (fst r), snd r))
          else if n =? 110 then (r <- expect "ull" rest ;; Return (Null, r))
          else if n =? 116 then (r <- expect "rue" rest ;; Return (Bool true, r))
          else if n =? 102 then (r <- expect "alse" rest ;; Return (Bool false, r))
          else if (n =? 45) || is_digit ch then parse_number (String ch rest)
          else Throw SyntaxError
      end
  end

with parse_elements (fuel : nat) (s : string) {struct fuel} : completion (list value * string) :=
  match fuel with
  | O => Spin
  | S fuel' =>
      r <- parse_value fuel' s ;;
      match skip_ws (snd r) with
      | String ch rest =>
          if code ch =? 44 then
            (r' <- parse_elements fuel' rest ;; Return (fst r :: fst r', snd r'))
          else if code ch =? 93 then Return ([fst r], rest)
          else Throw SyntaxError
      | EmptyString => Throw SyntaxError
      end
  end

with parse_members (fuel : nat) (s : string) {struct fuel}
    : completion (list (string * value) * string) :=
  match fuel with
  | O => Spin
  | S fuel' =>
      match skip_ws s with
      | String q rest =>
          if code q =? 34 then
            key <- parse_chars rest ;;
            match skip_ws (snd key) with
            | String colon rest1 =>
                if code colon =? 58 then
                  r <- parse_value fuel' rest1 ;;
                  match skip_ws (snd r) with
                  | String ch rest2 =>
                      if code ch =? 44 then
                        (r' <- parse_members fuel' rest2 ;;
                         Return ((fst key, fst r) :: fst r', snd r'))
                      else if code ch =? 125 then Return ([(fst key, fst r)], rest2)
                      else Throw SyntaxError
                  | EmptyString => Throw SyntaxError
                  end
                else Throw SyntaxError
            | EmptyString => Throw SyntaxError
            end
          else Throw SyntaxError
      | EmptyString => Throw SyntaxError
      end
  end.

(** [JSON.parse(text)]: one value, then only white space.  A value or a
    list costs at most two steps of the bound for each character it reads,
    so the bound is never reached. *)
Definition parse (text : string) : completion value :=
  r <- parse_value (S (2 * String.length text)) text ;;
  match skip_ws (snd r) with
  | EmptyString => Return (fst r)
  | String _ _ => Throw SyntaxError
  end.

(** [obj.key] for one of the session's field names on a parsed value: the
    last binding of [key] in an object, [undefined] when there is none or
    the value is a primitive or an array, and a [TypeError] on [null]. *)
Definition lookup_prop (key : string) (props : list (string * value)) : value :=
  foldl (fun found '(k, v) => if String.eqb k key then v else found) Undefined props.

Definition get_prop (v : value) (key : string) : completion value :=
  match v with
  | Undefined | Null => Throw TypeError
  | Object props => Return (lookup_prop key props)
  | _ => Return Undefined
  end.

End JSON.

(** ** GameController: saving and loading *)

Module GameController.

(** The five fields of [this.gameBoard] that [loadGame] assigns.  It stores
    whatever [JSON.parse] produced, so here they are runtime values. *)
Record Fields : Type := mkFields {
  board : JSON.value;
  moveHistory : JSON.value;
  currentPlayer : JSON.value;
  gameStatus : JSON.value;
  winner : JSON.value
}.

(** *** The runtime values of a typed session *)

Definition value_of_player (p : Player) : JSON.value :=
  match p with
  | black => JSON.Str "black"
  | white => JSON.Str "white"
  end.

Definition value_of_cell (x : Cell) : JSON.value :=
  match x with
  | undefined => JSON.Undefined
  | null => JSON.Null
  | piece p => value_of_player p
  end.

Definition value_of_status (g : GameStatus) : JSON.value :=
  match g with
  | playing => JSON.Str "playing"
  | won => JSON.Str "won"
  | draw => JSON.Str "draw"
  end.

Definition value_of_winner (w : option Player) : JSON.value :=
  match w with
  | None => JSON.Null
  | Some p => value_of_player p
  end.

Definition value_of_move (m : Move) : JSON.value :=
  JSON.Object
    [ ("row"%string, JSON.Number (row m));
      ("col"%string, JSON.Number (col m));
      ("player"%string, value_of_player (player m));
      ("moveNumber"%string, JSON.Number (moveNumber m));
      ("timestamp"%string, JSON.Number (timestamp m)) ].

Definition value_of_board (b : Board) : JSON.value :=
  JSON.Array (List.map (fun line => JSON.Array (List.map value_of_cell line)) b).

Definition value_of_history (h : list Move) : JSON.value :=
  JSON.Array (List.map value_of_move h).

Definition fields_of (s : GameBoard.Session) : Fields :=
  mkFields (value_of_board (GameBoard.board s))
           (value_of_history (GameBoard.moveHistory s))
           (value_of_player (GameBoard.currentPlayer s))
           (value_of_status (GameBoard.gameStatus s))
           (value_of_winner (GameBoard.winner s)).

(** *** saveGame *)

(** [saveGame()]; [now] is the value of [Date.now()] at the call. *)
Definition saveGame (s : GameBoard.Session) (now : Z) : string :=
  let gameState :=
    JSON.Object
      [ ("board"%string, value_of_board (GameBoard.getBoardCopy s));
        ("moveHistory"%string, value_of_history (GameBoard.getMoveHistory s));
        ("currentPlayer"%string, value_of_player (GameBoard.getCurrentPlayer s));
        ("gameStatus"%string, value_of_status (GameBoard.getGameStatus s));
        ("winner"%string, value_of_winner (GameBoard.getWinner s));
        ("timestamp"%string, JSON.Number now) ] in
  JSON.stringify gameState.

(** *** loadGame *)

Definition set_board (v : JSON.value) : Method Fields unit :=
  fun gb => (Return tt, mkFields v (moveHistory gb) (currentPlayer gb) (gameStatus gb) (winner gb)).
Definition set_moveHistory (v : JSON.value) : Method Fields unit :=
  fun gb => (Return tt, mkFields (board gb) v (currentPlayer gb) (gameStatus gb) (winner gb)).
Definition set_currentPlayer (v : JSON.value) : Method Fields unit :=
  fun gb => (Return tt, mkFields (board gb) (moveHistory gb) v (gameStatus gb) (winner gb)).
Definition set_gameStatus (v : JSON.value) : Method Fields unit :=
  fun gb => (Return tt, mkFields (board gb) (moveHistory gb) (currentPlayer gb) v (winner gb)).
Definition set_winner (v : JSON.value) : Method Fields unit :=
  fun gb => (Return tt, mkFields (board gb) (moveHistory gb) (currentPlayer gb) (gameStatus gb) v).

Section WithRenderer.

(** The injected [uiRenderer]: whether [renderBoard], [updateGameInfo]
    and [renderMoveHistory] run to completion on the given fields
    ([false]: one of them throws). *)
Variable renders : Fields -> bool.

Local Open Scope method_scope.

(** The [try] block of [loadGame]. *)
Definition loadGame_try (gameStateJson : string) : Method Fields bool :=
  gameState <- lift (JSON.parse gameStateJson) ;;
  v1 <- lift (JSON.get_prop gameState "board") ;;
  set_board v1 ;;;
  v2 <- lift (JSON.get_prop gameState "moveHistory") ;;
  set_moveHistory v2 ;;;
  v3 <- lift (JSON.get_prop gameState "currentPlayer") ;;
  set_currentPlayer v3 ;;;
  v4 <- lift (JSON.get_prop gameState "gameStatus") ;;
  set_gameStatus v4 ;;;
  v5 <- lift (JSON.get_prop gameState "winner") ;;
  set_winner v5 ;;;
  gb <- this (fun gb => gb) ;;
  if renders gb then ret true else throw TypeError.

(** [loadGame(gameStateJson)]: the [catch] block shows a message, a call
    that is taken to complete, and returns [false]. *)
Definition loadGame (gameStateJson : string) : Method Fields bool :=
  fun gb =>
    match loadGame_try gameStateJson gb with
    | (Throw _, gb') => (Return false, gb')
    | result => result
    end.

End WithRenderer.

(** *** The event handlers *)

(** The text of a message shown to the player: [error.message] of a
    caught error. *)
Inductive Message : Type :=
| error_message (error : Exn).

(** The calls the handlers make on the injected [uiRenderer], which are
    taken to run to completion on a typed session.  [showWinMessage] gets
    the name of the black or of the white stones. *)
Inductive UICall : Type :=
| renderBoard (gameBoard : GameBoard.Session)
| updateGameInfo (gameBoard : GameBoard.Session)
| renderMoveHistory (moveHistory : list Move)
| showErrorMessage (message : Message)
| showWinMessage (winnerName : Player)
| showDrawMessage.

(** The controller's [gameBoard] and the calls made on the renderer so far. *)
Definition World : Type := GameBoard.Session * list UICall.

Definition ui (calls : list UICall) : World -> World :=
  fun w => (fst w, snd w ++ calls).

(** The three calls that redraw the page. *)
Definition redraw (gb : GameBoard.Session) : list UICall :=
  [ renderBoard gb; updateGameInfo gb; renderMoveHistory (GameBoard.getMoveHistory gb) ].

(** [winner === 'black' ? <black name> : <white name>] *)
Definition winnerName (winner : option Player) : Player :=
  match winner with
  | Some black => black
  | _ => white
  end.

Definition _handleGameWon : World -> World :=
  fun w => ui [ showWinMessage (winnerName (GameBoard.getWinner (fst w))) ] w.

Definition _handleGameDraw : World -> World := ui [ showDrawMessage ].

(** [_handleBoardClick(row, col)]; [now] is the value of [Date.now()]
    inside [makeMove]. *)
Definition _handleBoardClick (r c now : Z) : World -> World :=
  fun w =>
    match GameBoard.makeMove r c now (fst w) with
    | (Return success, gb) =>
        if success then
          let w1 := ui (redraw gb) (gb, snd w) in
          match GameBoard.getGameStatus gb with
          | won => _handleGameWon w1
          | draw => _handleGameDraw w1
          | playing => w1
          end
        else (gb, snd w)
    | (Throw error, gb) => ui [ showErrorMessage (error_message error) ] (gb, snd w)
    | (Spin, gb) => (gb, snd w)
    end.

End GameController.

(** ** helpers.js: display coordinates *)

Module Helpers.

(** A JavaScript number as these helpers meet it. *)
Inductive number : Type := Int (n : Z) | NaN.

Record BoardCoords : Type := mkCoords { row : number; col : Z }.

Definition letters : string := "ABCDEFGHIJKLMNO".

(** [s[i]]: [None] stands for [undefined]. *)
Definition char_at (s : string) (i : Z) : option ascii :=
  if i <? 0 then None else String.get (Z.to_nat i) s.

(** A template-literal hole holding a one-character string or [undefined]. *)
Definition hole_of_char (x : option ascii) : string :=
  match x with
  | Some ch => String ch EmptyString
  | None => "undefined"
  end.

(** A template-literal hole holding an integer. *)
Definition hole_of_int (n : Z) : string := JSON.print_number n EmptyString.

Definition boardToDisplayCoords (r c : Z) : string :=
  let letter := char_at letters c in
  let number := 15 - r in
  String.append (hole_of_char letter) (hole_of_int number).

Definition in_range (lo hi : Z) (ch : ascii) : bool :=
  (lo <=? JSON.code ch) && (JSON.code ch <=? hi).

(** [displayCoords.match(/^([A-O])([1-9]|1[0-5])$/i)]: the two groups.
    With the [i] flag the class [A-O] also takes [a] to [o]. *)
Definition match_display (displayCoords : string) : option (string * string) :=
  match displayCoords with
  | String l rest =>
      if in_range 65 79 l || in_range 97 111 l then
        match rest with
        | String d EmptyString =>
            if in_range 49 57 d then Some (String l EmptyString, rest) else None
        | String d1 (String d2 EmptyString) =>
            if (JSON.code d1 =? 49) && in_range 48 53 d2
            then Some (String l EmptyString, rest) else None
        | _ => None
        end
      else None
  | EmptyString => None
  end.

Definition upper (ch : ascii) : ascii :=
  if in_range 97 122 ch then JSON.char (JSON.code ch - 32) else ch.

(** [s.toUpperCase()] on ASCII text. *)
Fixpoint toUpperCase (s : string) : string :=
  match s with
  | EmptyString => EmptyString
  | String ch rest => String (upper ch) (toUpperCase rest)
  end.

(** [parseInt(s)] for text without leading white space or a [0x] prefix:
    an optional sign and the longest run of decimal digits, [NaN] when
    there is no digit. *)
Definition parseInt (s : string) : number :=
  let '(negative, body) :=
    match s with
    | String sg rest =>
        if JSON.code sg =? 45 then (true, rest)
        else if JSON.code sg =? 43 then (false, rest)
        else (false, s)
    | EmptyString => (false, s)
    end in
  match body with
  | String d _ =>
      if JSON.is_digit d
      then let n := fst (JSON.read_digits body 0) in Int (if negative then - n else n)
      else NaN
  | EmptyString => NaN
  end.

(** [s.indexOf(sub)] *)
Definition indexOf (s sub : string) : Z :=
  match String.index 0 sub s with
  | Some i => Z.of_nat i
  | None => -1
  end.

(** [15 - number] *)
Definition fifteen_minus (x : number) : number :=
  match x with
  | Int n => Int (15 - n)
  | NaN => NaN
  end.

(** [x < n] and [x >= n]: both false on [NaN]. *)
Definition lt (x : number) (n : Z) : bool :=
  match x with Int m => m <? n | NaN => false end.
Definition ge (x : number) (n : Z) : bool :=
  match x with Int m => m >=? n | NaN => false end.

Definition displayToBoardCoords (displayCoords : string) : option BoardCoords :=
  match match_display displayCoords with
  | None => None
  | Some (group1, group2) =>
      let letter := toUpperCase group1 in
      let number := parseInt group2 in
      let c := indexOf letters letter in
      let r := fifteen_minus number in
      if (c =? -1) || lt r 0 || ge r 15 then None
      else Some (mkCoords r c)
  end.

(** *** Arrays *)

Section Shuffle.

Context {A : Type}.

(** What reading a hole or past the end of the array gives. *)
Variable undef : A.

(** [Math.floor(Math.random() * n)] at the call with number [k] (from 0). *)
Variable random_index : nat -> Z -> Z.

(** [[shuffled[i], shuffled[j]] = [shuffled[j], shuffled[i]]]: both reads
    come first, then the write at [i], then the write at [j]. *)
Definition swap (shuffled : list A) (i j : Z) : list A :=
  let at_j := default undef (js_get shuffled j) in
  let at_i := default undef (js_get shuffled i) in
  js_set undef (js_set undef shuffled i at_j) j at_i.

(** The loop [for (let i = ...; i > 0; i--)] from index [i] down;
    [k] counts the calls of [Math.random] made so far. *)
Fixpoint shuffle_from (i : nat) (k : nat) (shuffled : list A) : list A :=
  match i with
  | O => shuffled
  | S i' =>
      let j := random_index k (Z.of_nat i + 1) in
      shuffle_from i' (S k) (swap shuffled (Z.of_nat i) j)
  end.

(** [shuffleArray(array)]: works on a copy. *)
Definition shuffleArray (array : list A) : list A :=
  let shuffled := array in
  shuffle_from (length shuffled - 1) 0 shuffled.

End Shuffle.

(** *** throttle *)

(** One call of the function [throttle(func, delay)] returns, at time
    [now] with the closure's [lastCall]: whether [func] runs, and the new
    [lastCall]. *)
Definition throttled (delay now lastCall : Z) : bool * Z :=
  if now - lastCall >=? delay then (true, now) else (false, lastCall).

(** The calls at the times [times], in order: the times at which [func]
    ran. *)
Fixpoint throttled_calls (delay : Z) (times : list Z) (lastCall : Z) : list Z :=
  match times with
  | [] => []
  | now :: rest =>
      let '(runs, lastCall') := throttled delay now lastCall in
      if runs then now :: throttled_calls delay rest lastCall'
      else throttled_calls delay rest lastCall'
  end.

(** [throttle(func, delay)] starts with [lastCall = 0]. *)
Definition throttle (delay : Z) (times : list Z) : list Z :=
  throttled_calls delay times 0.

(** *** Local storage *)

(** The items of [localStorage], one per key. *)
Definition Storage : Type := list (string * string).

Inductive DOMException : Type := QuotaExceededError.

Definition getItem (key : string) (st : Storage) : option string :=
  snd <$> List.find (fun kv => String.eqb (fst kv) key) st.

Definition removeItem (key : string) (st : Storage) : Storage :=
  List.filter (fun kv => negb (String.eqb (fst kv) key)) st.

Section WithQuota.

(** Whether the browser has room to store the item. *)
Variable room : Storage -> string -> string -> bool.

Definition setItem (key value : string) (st : Storage) : DOMException + Storage :=
  if room st key value then inr ((key, value) :: removeItem key st)
  else inl QuotaExceededError.

(** The text [setItem] receives for [JSON.stringify(value)]:
    [JSON.stringify(undefined)] is [undefined], stored as that word. *)
Definition item_text (value : JSON.value) : string :=
  match value with
  | JSON.Undefined => "undefined"
  | _ => JSON.stringify value
  end.

(** [setLocalStorage(key, value)]: the result and the storage it leaves. *)
Definition setLocalStorage (key : string) (value : JSON.value) (st : Storage)
    : bool * Storage :=
  match setItem key (item_text value) st with
  | inr st' => (true, st')
  | inl _ => (false, st)
  end.

End WithQuota.

(** [getLocalStorage(key, defaultValue)]: an absent or empty item and a
    text that does not parse all give the default. *)
Definition getLocalStorage (key : string) (defaultValue : JSON.value) (st : Storage)
    : completion JSON.value :=
  match getItem key st with
  | Some (String ch rest) =>
      match JSON.parse (String ch rest) with
      | Return v => Return v
      | Throw _ => Return defaultValue
      | Spin => Spin
      end
  | Some EmptyString | None => Return defaultValue
  end.

(** [removeLocalStorage(key)] *)
Definition removeLocalStorage (key : string) (st : Storage) : bool * Storage :=
  (true, removeItem key st).

End Helpers.

(** ** UIRenderer: what the page shows *)

Module UIRenderer.

Definition boardSize : Z := 15.
Definition cellSize : Z := 40.
Definition padding : Z := 20.

(** [Math.round(a / b)] for integers [a] and [b > 0]: the nearest integer,
    a half going up. *)
Definition round_div (a b : Z) : Z := (2 * a + b) / (2 * b).

(** [pixelToBoard(pixelX, pixelY)] for whole pixels; [left] and [top] are
    the canvas position that [getBoundingClientRect] reports, [None] stands
    for [null]. *)
Definition pixelToBoard (left top pixelX pixelY : Z) : option (Z * Z) :=
  let x := pixelX - left in
  let y := pixelY - top in
  let col := round_div (x - padding) cellSize in
  let row := round_div (y - padding) cellSize in
  if (row >=? 0) && (row <? boardSize) && (col >=? 0) && (col <? boardSize)
  then Some (row, col)
  else None.

(** Where [_drawPiece] and [_markLastMove] put the cell [(row, col)] on
    the canvas: [x] and [y]. *)
Definition piece_centre (r c : Z) : Z * Z :=
  (padding + c * cellSize, padding + r * cellSize).

(** [String.fromCharCode(n)], as UTF-8 text. *)
Definition fromCharCode (n : Z) : string := JSON.utf8 (n mod 65536) EmptyString.

(** The [position] text that [renderMoveHistory] shows for a move. *)
Definition position (move : Move) : string :=
  String.append (fromCharCode (65 + col move)) (Helpers.hole_of_int (15 - row move)).

End UIRenderer.

(** ** Vocabulary of the properties *)

(** The cell of a board at integer coordinates, when there is one. *)
Definition cell_at (b : Board) (r c : Z) : option Cell :=
  if (0 <=? r) && (0 <=? c)
  then match b !! Z.to_nat r with
       | Some line => line !! Z.to_nat c
       | None => None
       end
  else None.

Definition on_board (r c : Z) : Prop := 0 <= r < 15 /\ 0 <= c < 15.

(** A board of the data model: fifteen rows of fifteen slots. *)
Definition wf_board (b : Board) : Prop :=
  length b = 15%nat /\ Forall (fun line => length line = 15%nat) b.

Definition other (p : Player) : Player :=
  match p with black => white | white => black end.

(** *** Lines of stones *)

(** The cell at [(r, c)] is on the board and holds a stone of [p]. *)
Definition holds (b : Board) (p : Player) (r c : Z) : Prop :=
  on_board r c /\ cell_at b r c = Some (piece p).

(** Exactly [n] contiguous stones of [p] follow [(r, c)] in direction
    [(dx, dy)]: the cells at steps [1 .. n] hold one, and the cell at step
    [n + 1] is off the board or holds something else. *)
Definition ray (b : Board) (p : Player) (r c dx dy n : Z) : Prop :=
  0 <= n
  /\ (forall k, 1 <= k <= n -> holds b p (r + k * dx) (c + k * dy))
  /\ ~ holds b p (r + (n + 1) * dx) (c + (n + 1) * dy).

(** Horizontal, vertical and the two diagonals. *)
Definition axes : list (Z * Z) := [ (0, 1); (1, 0); (1, 1); (1, -1) ].

(** The count of an axis through [(r, c)]: one for the placed stone plus
    the two opposite rays. *)
Definition axis_count (b : Board) (p : Player) (r c : Z) (axis : Z * Z) (total : Z) : Prop :=
  exists n1 n2,
    ray b p r c (fst axis) (snd axis) n1
    /\ ray b p r c (- fst axis) (- snd axis) n2
    /\ total = 1 + n1 + n2.

Definition five_in_a_row (b : Board) (p : Player) (r c : Z) : Prop :=
  exists axis total, axis ∈ axes /\ axis_count b p r c axis total /\ total >= 5.

(** No [null] cell is left on the board. *)
Definition board_full (b : Board) : Prop :=
  forall r c, on_board r c -> cell_at b r c <> Some null.

(** *** Counting stones *)

Definition occupied (x : Cell) : nat :=
  if Cell_eqb x null then 0%nat else 1%nat.

(** The number of non-empty cells of a board. *)
Definition count_nonempty (b : Board) : nat :=
  sum_list_with (sum_list_with occupied) b.

(** The session after an accepted move, given what the two checks say. *)
Definition after_move (s : GameBoard.Session) (b' : Board) (r c now : Z)
    (win full : bool) : GameBoard.Session :=
  let cur := GameBoard.currentPlayer s in
  let h := GameBoard.moveHistory s in
  GameBoard.mkSession b'
    (h ++ [mkMove r c cur (Z.of_nat (length h) + 1) now])
    (if win then cur else if full then cur else other cur)
    (if win then won else if full then draw else playing)
    (if win then Some cur else GameBoard.winner s).

(** *** Sessions reached by playing *)

Inductive Op : Type :=
| OpMakeMove (r c now : Z)
| OpUndo
| OpReset.

(** The state a call leaves behind, however it completes. *)
Definition apply_op (o : Op) (s : GameBoard.Session) : GameBoard.Session :=
  match o with
  | OpMakeMove r c now => snd (GameBoard.makeMove r c now s)
  | OpUndo => snd (GameBoard.undo s)
  | OpReset => snd (GameBoard.reset s)
  end.

Inductive reachable : GameBoard.Session -> Prop :=
| reachable_initial : reachable GameBoard.initial
| reachable_step (s : GameBoard.Session) (o : Op) :
    reachable s -> reachable (apply_op o s).

#[global] Instance Player_eq_dec : EqDecision Player.
Proof. solve_decision. Defined.

#[global] Instance Cell_eq_dec : EqDecision Cell.
Proof. solve_decision. Defined.

#[global] Instance GameStatus_eq_dec : EqDecision GameStatus.
Proof. solve_decision. Defined.

#[global] Instance holds_dec (b : Board) (p : Player) (r c : Z) : Decision (holds b p r c).
Proof. unfold holds, on_board. apply _. Defined.

(** The board holds no hole. *)
Definition no_holes (b : Board) : Prop :=
  Forall (Forall (fun x => x <> undefined)) b.

(** *** The invariant of play *)

Definition coords (m : Move) : Z * Z := (row m, col m).

(** A recorded move lies on the board and its cell still holds a stone. *)
Definition stone_of (b : Board) (m : Move) : Prop :=
  on_board (row m) (col m) /\ exists q, cell_at b (row m) (col m) = Some (piece q).

Record session_inv (s : GameBoard.Session) : Prop := mkInv {
  inv_wf : wf_board (GameBoard.board s);
  inv_count : count_nonempty (GameBoard.board s) = length (GameBoard.moveHistory s);
  inv_nodup : NoDup (map coords (GameBoard.moveHistory s));
  inv_stones : Forall (stone_of (GameBoard.board s)) (GameBoard.moveHistory s);
  inv_no_holes : no_holes (GameBoard.board s)
}.

(** *** Boards for examples *)

Definition put (b : Board) (stone : Z * Z * Player) : Board :=
  let '(r, c, p) := stone in
  match board_set b r c (piece p) with
  | Return b' => b'
  | _ => b
  end.

Definition board_with (stones : list (Z * Z * Player)) : Board :=
  foldl put GameBoard._createEmptyBoard stones.

(** A sequence of calls, first to last. *)
Definition run (ops : list Op) (s : GameBoard.Session) : GameBoard.Session :=
  foldl (fun s o => apply_op o s) s ops.

(** *** Values that JSON text carries exactly *)

(** The two loops inside [JSON.print], by name. *)
Fixpoint print_elements (first : bool) (l : list JSON.value) (k : string) : string :=
  match l with
  | [] => k
  | x :: rest =>
      let body := JSON.print x (print_elements false rest k) in
      if first then body else String "," body
  end.

Fixpoint print_members (first : bool) (l : list (string * JSON.value)) (k : string) : string :=
  match l with
  | [] => k
  | (key, x) :: rest =>
      match x with
      | JSON.Undefined => print_members first rest k
      | _ =>
          let body :=
            JSON.print_string key (String ":" (JSON.print x (print_members false rest k))) in
          if first then body else String "," body
      end
  end.

(** A character that a string literal shows as itself. *)
Definition plain_char (ch : ascii) : bool :=
  (32 <=? JSON.code ch) && negb (JSON.code ch =? 34) && negb (JSON.code ch =? 92).

Fixpoint plain_string (s : string) : bool :=
  match s with
  | EmptyString => true
  | String ch rest => plain_char ch && plain_string rest
  end.

(** No [undefined], no number with a fraction or exponent, no character
    that needs an escape. *)
Fixpoint plain (v : JSON.value) : bool :=
  match v with
  | JSON.Undefined => false
  | JSON.Null | JSON.Bool _ | JSON.Number _ => true
  | JSON.Real _ _ _ => false
  | JSON.Str s => plain_string s
  | JSON.Array items => forallb plain items
  | JSON.Object props => forallb (fun kv => plain_string (fst kv) && plain (snd kv)) props
  end.

(** The fuel that parsing the text of a value takes at most. *)
Fixpoint size (v : JSON.value) : nat :=
  match v with
  | JSON.Array items => S (list_sum (List.map (fun x => S (size x)) items))
  | JSON.Object props => S (list_sum (List.map (fun kv => S (size (snd kv))) props))
  | _ => 1
  end.

(** Text that cannot continue a number. *)
Definition delimited (k : string) : bool :=
  match k with
  | EmptyString => true
  | String ch _ =>
      negb (JSON.is_digit ch) && negb (JSON.code ch =? 46)
      && negb (JSON.code ch =? 101) && negb (JSON.code ch =? 69)
  end.

(** What the text of a plain value starts with. *)
Definition starts_value (ch : ascii) : Prop :=
  JSON.is_ws ch = false /\ JSON.code ch <> 93 /\ JSON.code ch <> 125.

(** Parsing the text of [x], followed by any delimited text [k], gives [x]
    back and stops in front of [k]. *)
Definition reads_back (x : JSON.value) : Prop :=
  plain x = true ->
  forall fuel k, (size x <= fuel)%nat -> delimited k = true ->
  JSON.parse_value fuel (JSON.print x k) = Return (x, k).

(** The text of [x] in front of [k] has at least [size x] characters more
    than [k]. *)
Definition long_enough (x : JSON.value) : Prop :=
  plain x = true ->
  forall k, (size x + String.length k <= String.length (JSON.print x k))%nat.

(** *** Empty cells in reading order *)

Definition is_null_at (b : Board) (r c : Z) : Prop := cell_at b r c = Some null.

#[global] Instance is_null_at_dec (b : Board) (r c : Z) : Decision (is_null_at b r c).
Proof. unfold is_null_at. apply _. Defined.

(** The empty cells of row [r] among the columns [cols], then of the rows
    [rows], in the order of the two lists. *)
Definition empty_in_row (b : Board) (r : Z) (cols : list Z) : list (Z * Z) :=
  (fun c => (r, c)) <$> filter (is_null_at b r) cols.

Definition empty_cells (b : Board) (rows cols : list Z) : list (Z * Z) :=
  rows ≫= (fun r => empty_in_row b r cols).

(** The position of a cell when the board is read row by row. *)
Definition row_major (rc : Z * Z) : Z := fst rc * 15 + snd rc.

(** Later elements have larger keys. *)
Definition increasing {A} (key : A -> Z) (l : list A) : Prop :=
  forall i j a b, l !! i = Some a -> l !! j = Some b -> (i < j)%nat -> key a < key b.

(** *** What playing keeps true *)

(** Who makes the move with index [i] (from 0): black moves first. *)
Definition mover (i : nat) : Player := if Nat.even i then black else white.

(** The board after the moves of [h] were played, in order, on an empty
    board. *)
Definition replay (h : list Move) : Board :=
  foldl (fun b m => put b (row m, col m, player m)) GameBoard._createEmptyBoard h.

(** The move [m], played after [h1], made five in a row. *)
Definition wins_after (h1 : list Move) (m : Move) : Prop :=
  five_in_a_row (replay (h1 ++ [m])) (player m) (row m) (col m).

(** No move of [h] ended the game when it was played. *)
Definition quiet (h : list Move) : Prop :=
  forall h1 m h2, h = h1 ++ m :: h2 ->
    ~ wins_after h1 m /\ ~ board_full (replay (h1 ++ [m])).

(** The status says how the last move ended, or that no move ended the game. *)
Definition verdict (g : GameStatus) (h : list Move) : Prop :=
  match g with
  | playing => quiet h
  | won => exists h0 m, h = h0 ++ [m] /\ quiet h0 /\ wins_after h0 m
  | draw => exists h0 m, h = h0 ++ [m] /\ quiet h0 /\ ~ wins_after h0 m
                         /\ board_full (replay h)
  end.

Record play_inv (s : GameBoard.Session) : Prop := mkPlayInv {
  pi_board : GameBoard.board s = replay (GameBoard.moveHistory s);
  pi_numbers : forall i m, GameBoard.moveHistory s !! i = Some m ->
                 moveNumber m = Z.of_nat i + 1;
  pi_players : forall i m, GameBoard.moveHistory s !! i = Some m -> player m = mover i;
  pi_turn : GameBoard.currentPlayer s
            = mover (if GameStatus_eqb (GameBoard.gameStatus s) playing
                     then length (GameBoard.moveHistory s)
                     else pred (length (GameBoard.moveHistory s)));
  pi_winner : GameBoard.winner s
              = if GameStatus_eqb (GameBoard.gameStatus s) won
                then Some (GameBoard.currentPlayer s) else None;
  pi_verdict : verdict (GameBoard.gameStatus s) (GameBoard.moveHistory s)
}.

(** No [OpReset] among the calls. *)
Definition no_reset (ops : list Op) : Prop :=
  Forall (fun o => o <> OpReset) ops.

(** ** Reading and writing a well-formed board *)

Section BoardAccess.

Lemma js_get_Some {A} (arr : list A) (i : Z) :
  0 <= i < Z.of_nat (length arr) -> exists x, arr !! Z.to_nat i = Some x /\ js_get arr i = Some x.
Proof.
  intros Hi. unfold js_get.
  destruct (Z.ltb_spec i 0) as [?|_]; [lia|].
  destruct (lookup_lt_is_Some_2 arr (Z.to_nat i)) as [x Hx]; [lia|].
  exists x. by rewrite Hx.
Qed.

Lemma js_get_None {A} (arr : list A) (i : Z) :
  i < 0 \/ Z.of_nat (length arr) <= i -> js_get arr i = None.
Proof.
  intros Hi. unfold js_get.
  destruct (Z.ltb_spec i 0) as [?|?]; [done|].
  apply lookup_ge_None. lia.
Qed.

Lemma wf_board_line (b : Board) (i : nat) (line : list Cell) :
  wf_board b -> b !! i = Some line -> length line = 15%nat.
Proof.
  intros [_ Hall] Hi. rewrite Forall_lookup in Hall. by apply (Hall i).
Qed.

Lemma cell_at_wf (b : Board) (r c : Z) :
  wf_board b -> on_board r c -> exists x, cell_at b r c = Some x.
Proof.
  intros Hwf [Hr Hc]. unfold cell_at.
  destruct (Z.leb_spec 0 r); [|lia]. destruct (Z.leb_spec 0 c); [|lia]. simpl.
  destruct (lookup_lt_is_Some_2 b (Z.to_nat r)) as [line Hline]; [destruct Hwf; lia|].
  rewrite Hline.
  apply lookup_lt_is_Some_2. rewrite (wf_board_line b _ line Hwf Hline). lia.
Qed.

Lemma board_get_cell_at (b : Board) (r c : Z) (x : Cell) :
  cell_at b r c = Some x -> board_get b r c = Return x.
Proof.
  unfold cell_at, board_get, js_get. intros H.
  destruct (Z.leb_spec 0 r); [|done]. destruct (Z.leb_spec 0 c); [|done]. simpl in H.
  destruct (Z.ltb_spec r 0); [lia|]. destruct (b !! Z.to_nat r) as [line|]; [|done].
  destruct (Z.ltb_spec c 0); [lia|]. by rewrite H.
Qed.

Lemma board_get_wf (b : Board) (r c : Z) :
  wf_board b -> on_board r c ->
  exists x, cell_at b r c = Some x /\ board_get b r c = Return x.
Proof.
  intros Hwf Hrc. destruct (cell_at_wf b r c Hwf Hrc) as [x Hx].
  exists x. split; [done|]. by apply board_get_cell_at.
Qed.

Lemma board_set_wf (b : Board) (r c : Z) (v : Cell) :
  wf_board b -> on_board r c ->
  exists line, b !! Z.to_nat r = Some line /\
    board_set b r c v = Return (<[Z.to_nat r := <[Z.to_nat c := v]> line]> b).
Proof.
  intros Hwf [Hr Hc]. unfold board_set.
  destruct (js_get_Some b r) as (line & Hline & ->); [destruct Hwf; lia|].
  exists line. split; [done|].
  unfold js_set. rewrite (wf_board_line b _ line Hwf Hline).
  destruct (Z.ltb_spec c 0); [lia|]. destruct (Z.ltb_spec c (Z.of_nat 15)); [done|lia].
Qed.

Lemma wf_board_insert (b : Board) (i j : nat) (line : list Cell) (v : Cell) :
  wf_board b -> b !! i = Some line -> wf_board (<[i := <[j := v]> line]> b).
Proof.
  intros Hwf Hline. pose proof (wf_board_line b i line Hwf Hline) as Hlen.
  destruct Hwf as [Hrows Hall]. split.
  - by rewrite length_insert.
  - apply Forall_insert; [done|]. by rewrite length_insert.
Qed.

Lemma cell_at_insert_eq (b : Board) (r c : Z) (line : list Cell) (v : Cell) :
  wf_board b -> on_board r c -> b !! Z.to_nat r = Some line ->
  cell_at (<[Z.to_nat r := <[Z.to_nat c := v]> line]> b) r c = Some v.
Proof.
  intros Hwf [Hr Hc] Hline. unfold cell_at.
  destruct (Z.leb_spec 0 r); [|lia]. destruct (Z.leb_spec 0 c); [|lia]. simpl.
  rewrite list_lookup_insert_eq; [|destruct Hwf; lia].
  apply list_lookup_insert_eq. rewrite (wf_board_line b _ line Hwf Hline). lia.
Qed.

Lemma cell_at_insert_ne (b : Board) (r c r' c' : Z) (line : list Cell) (v : Cell) :
  0 <= r -> 0 <= c -> b !! Z.to_nat r = Some line -> (r', c') <> (r, c) ->
  cell_at (<[Z.to_nat r := <[Z.to_nat c := v]> line]> b) r' c' = cell_at b r' c'.
Proof.
  intros Hr Hc Hline Hne. unfold cell_at.
  destruct (Z.leb_spec 0 r'); [|done]. destruct (Z.leb_spec 0 c'); [|done]. simpl.
  destruct (decide (Z.to_nat r' = Z.to_nat r)) as [Heq|Hneq].
  - rewrite Heq, Hline.
    destruct (lookup_lt_is_Some_2 b (Z.to_nat r)) as [? _]; [by eapply lookup_lt_Some|].
    rewrite list_lookup_insert_eq; [|by eapply lookup_lt_Some].
    apply list_lookup_insert_ne. intros Hc'. apply Hne. f_equal; lia.
  - by rewrite list_lookup_insert_ne.
Qed.

Lemma wf_board_empty : wf_board GameBoard._createEmptyBoard.
Proof. split; [reflexivity|]. vm_compute. repeat constructor. Qed.

End BoardAccess.

(** ** Move validity and the read accessors *)

Lemma out_of_board_true (r c : Z) :
  GameLogic.out_of_board r c = true <-> ~ on_board r c.
Proof.
  unfold GameLogic.out_of_board, GameLogic.BOARD_SIZE, on_board.
  rewrite !orb_true_iff, !Z.ltb_lt, !Z.geb_le. lia.
Qed.

Lemma out_of_board_false (r c : Z) :
  GameLogic.out_of_board r c = false <-> on_board r c.
Proof.
  rewrite <- not_true_iff_false, out_of_board_true. unfold on_board. lia.
Qed.

Lemma Cell_eqb_eq (x y : Cell) : Cell_eqb x y = true <-> x = y.
Proof.
  destruct x as [| |[]], y as [| |[]]; simpl; split; congruence.
Qed.

Lemma isValidMove_on_board (b : Board) (r c : Z) (x : Cell) :
  on_board r c -> cell_at b r c = Some x ->
  GameLogic.isValidMove b r c = Return (Cell_eqb x null).
Proof.
  intros Hrc Hx. unfold GameLogic.isValidMove.
  apply out_of_board_false in Hrc. rewrite Hrc.
  by rewrite (board_get_cell_at b r c x Hx).
Qed.

Lemma isValidMove_out_of_range (b : Board) (r c : Z) :
  r < 0 \/ r >= 15 \/ c < 0 \/ c >= 15 -> GameLogic.isValidMove b r c = Return false.
Proof.
  intros Hout. unfold GameLogic.isValidMove.
  assert (GameLogic.out_of_board r c = true) as ->; [|done].
  apply out_of_board_true. unfold on_board. lia.
Qed.

(** C8.  On a 15x15 board [isValidMove] returns normally, and returns [true]
    exactly when both coordinates lie in [0, 15) and the cell there is
    [null] (Empty).  For coordinates outside the board it returns [false]
    without raising, whatever the board, and for an occupied cell of the
    board it returns [false]. *)
Theorem isValidMove_iff (b : Board) (r c : Z) :
  (wf_board b ->
   exists v, GameLogic.isValidMove b r c = Return v /\
     (v = true <-> 0 <= r < 15 /\ 0 <= c < 15 /\ cell_at b r c = Some null))
  /\ (r < 0 \/ r >= 15 \/ c < 0 \/ c >= 15 -> GameLogic.isValidMove b r c = Return false)
  /\ (forall p, on_board r c -> cell_at b r c = Some (piece p) ->
        GameLogic.isValidMove b r c = Return false).
Proof.
  split; [|split].
  - intros Hwf.
    destruct (GameLogic.out_of_board r c) eqn:Hout.
    + exists false. unfold GameLogic.isValidMove. rewrite Hout. split; [done|].
      apply out_of_board_true in Hout. unfold on_board in Hout.
      split; [done|]. intros (? & ? & _). lia.
    + apply out_of_board_false in Hout.
      destruct (cell_at_wf b r c Hwf Hout) as [x Hx].
      exists (Cell_eqb x null). split; [by apply isValidMove_on_board|].
      rewrite Cell_eqb_eq, Hx. destruct Hout. split.
      * intros ->. done.
      * intros (_ & _ & [= ->]). done.
  - apply isValidMove_out_of_range.
  - intros p Hrc Hp. by rewrite (isValidMove_on_board b r c _ Hrc Hp).
Qed.

Lemma isValidMove_iff_witness :
  (exists v, GameLogic.isValidMove GameBoard._createEmptyBoard 7 7 = Return v /\
     (v = true <-> 0 <= 7 < 15 /\ 0 <= 7 < 15 /\
        cell_at GameBoard._createEmptyBoard 7 7 = Some null))
  /\ GameLogic.isValidMove GameBoard._createEmptyBoard (-1) 0 = Return false
  /\ GameLogic.isValidMove GameBoard._createEmptyBoard 15 0 = Return false
  /\ GameLogic.isValidMove GameBoard._createEmptyBoard 0 (-1) = Return false
  /\ GameLogic.isValidMove GameBoard._createEmptyBoard 0 15 = Return false
  /\ GameLogic.isValidMove (<[7%nat := <[7%nat := piece black]> (replicate 15 null)]>
                              GameBoard._createEmptyBoard) 7 7 = Return false.
Proof.
  split; [|split; [|split; [|split; [|split]]]].
  - apply (isValidMove_iff GameBoard._createEmptyBoard 7 7).
    split; [reflexivity|]. vm_compute. repeat constructor.
  - apply (isValidMove_iff GameBoard._createEmptyBoard (-1) 0). lia.
  - apply (isValidMove_iff GameBoard._createEmptyBoard 15 0). lia.
  - apply (isValidMove_iff GameBoard._createEmptyBoard 0 (-1)). lia.
  - apply (isValidMove_iff GameBoard._createEmptyBoard 0 15). lia.
  - eapply (isValidMove_iff _ 7 7).
    + unfold on_board. lia.
    + reflexivity.
Defined.

(** C10.  For coordinates outside [0, 15) x [0, 15), in any session state,
    [getPiece] returns [null] instead of raising, so [isEmpty] returns
    [true] there, while [isValidMove] on the session's board returns
    [false]. *)
Theorem getPiece_out_of_range (s : GameBoard.Session) (r c : Z) :
  r < 0 \/ r >= 15 \/ c < 0 \/ c >= 15 ->
  GameBoard.getPiece s r c = Return null
  /\ GameBoard.isEmpty s r c = Return true
  /\ GameLogic.isValidMove (GameBoard.board s) r c = Return false.
Proof.
  intros Hout.
  assert (GameBoard.getPiece s r c = Return null) as Hget.
  { unfold GameBoard.getPiece, GameBoard.boardSize.
    assert ((r <? 0) || (r >=? 15) || (c <? 0) || (c >=? 15) = true) as ->; [|done].
    rewrite !orb_true_iff, !Z.ltb_lt, !Z.geb_le. lia. }
  split; [done|]. split.
  - unfold GameBoard.isEmpty. by rewrite Hget.
  - by apply isValidMove_out_of_range.
Qed.

Lemma getPiece_out_of_range_witness :
  GameBoard.getPiece GameBoard.initial (-1) 3 = Return null
  /\ GameBoard.isEmpty GameBoard.initial (-1) 3 = Return true
  /\ GameLogic.isValidMove (GameBoard.board GameBoard.initial) (-1) 3 = Return false.
Proof. apply (getPiece_out_of_range GameBoard.initial (-1) 3). lia. Defined.

(** ** Win detection *)

Section Winner.

Variable b : Board.
Variable p : Player.
Hypothesis Hwf : wf_board b.

Lemma loop_condition (r c : Z) :
  (r >=? 0) && (r <? GameLogic.BOARD_SIZE) && (c >=? 0) && (c <? GameLogic.BOARD_SIZE) = true
  <-> on_board r c.
Proof.
  unfold GameLogic.BOARD_SIZE, on_board.
  rewrite !andb_true_iff, !Z.ltb_lt, !Z.geb_le. lia.
Qed.

(** One turn of the loop on a matching cell. *)
Lemma while_same_holds (fuel : nat) (dx dy r c count : Z) :
  holds b p r c ->
  GameLogic.while_same (S fuel) b p dx dy r c count
  = GameLogic.while_same fuel b p dx dy (r + dx) (c + dy) (count + 1).
Proof.
  intros [Hrc Hcell]. simpl.
  apply loop_condition in Hrc. rewrite Hrc.
  rewrite (board_get_cell_at b r c _ Hcell). simpl.
  destruct p; done.
Qed.

(** The loop leaves at the first cell that does not match. *)
Lemma while_same_stop (fuel : nat) (dx dy r c count : Z) :
  ~ holds b p r c ->
  GameLogic.while_same (S fuel) b p dx dy r c count = Return count.
Proof.
  intros Hno. simpl.
  destruct ((r >=? 0) && (r <? GameLogic.BOARD_SIZE) && (c >=? 0) && (c <? GameLogic.BOARD_SIZE))
    eqn:Hcond; [|done].
  apply loop_condition in Hcond.
  destruct (board_get_wf b r c Hwf Hcond) as (x & Hx & ->). simpl.
  destruct (Cell_eqb x (piece p)) eqn:Heq; [|done].
  apply Cell_eqb_eq in Heq. subst x. by destruct Hno.
Qed.

(** [n] matching cells starting at [(r, c)] itself, then a mismatch. *)
Lemma while_same_run (n fuel : nat) (dx dy r c count : Z) :
  (n < fuel)%nat ->
  (forall k, 0 <= k < Z.of_nat n -> holds b p (r + k * dx) (c + k * dy)) ->
  ~ holds b p (r + Z.of_nat n * dx) (c + Z.of_nat n * dy) ->
  GameLogic.while_same fuel b p dx dy r c count = Return (count + Z.of_nat n).
Proof.
  revert fuel r c count.
  induction n as [|n IH]; intros fuel r c count Hfuel Hrun Hend.
  - destruct fuel as [|fuel]; [lia|].
    rewrite while_same_stop; [f_equal; lia|].
    by replace r with (r + Z.of_nat 0 * dx) by lia; replace c with (c + Z.of_nat 0 * dy) by lia.
  - destruct fuel as [|fuel]; [lia|].
    rewrite while_same_holds.
    + rewrite (IH fuel); [f_equal; lia|lia| |].
      * intros k Hk.
        replace (r + dx + k * dx) with (r + (k + 1) * dx) by lia.
        replace (c + dy + k * dy) with (c + (k + 1) * dy) by lia.
        apply Hrun. lia.
      * replace (r + dx + Z.of_nat n * dx) with (r + Z.of_nat (S n) * dx) by lia.
        by replace (c + dy + Z.of_nat n * dy) with (c + Z.of_nat (S n) * dy) by lia.
    + replace r with (r + 0 * dx) by lia. replace c with (c + 0 * dy) by lia.
      apply Hrun. lia.
Qed.

(** Searching upwards from step [k] for the first mismatch. *)
Lemma first_mismatch (r c dx dy : Z) (m : nat) :
  forall k : Z, 1 <= k ->
  (forall j, 1 <= j < k -> holds b p (r + j * dx) (c + j * dy)) ->
  ~ holds b p (r + (k + Z.of_nat m) * dx) (c + (k + Z.of_nat m) * dy) ->
  exists n, k - 1 <= n <= k - 1 + Z.of_nat m /\ ray b p r c dx dy n.
Proof.
  induction m as [|m IH]; intros k Hk Hbefore Hend.
  - exists (k - 1). split; [lia|]. split; [lia|]. split.
    + intros j Hj. apply Hbefore. lia.
    + by replace (k - 1 + 1) with (k + Z.of_nat 0) by lia.
  - destruct (decide (holds b p (r + k * dx) (c + k * dy))) as [Hk'|Hk'].
    + destruct (IH (k + 1)) as (n & Hn & Hray); [lia| | |].
      * intros j Hj. destruct (decide (j = k)) as [->|]; [done|]. apply Hbefore. lia.
      * by replace (k + 1 + Z.of_nat m) with (k + Z.of_nat (S m)) by lia.
      * exists n. split; [lia|done].
    + exists (k - 1). split; [lia|]. split; [lia|]. split.
      * intros j Hj. apply Hbefore. lia.
      * by replace (k - 1 + 1) with k by lia.
Qed.

(** In a direction that moves, a ray leaves the board within 15 steps. *)
Lemma ray_exists (r c dx dy : Z) :
  dx <> 0 \/ dy <> 0 ->
  exists n, 0 <= n <= 15 /\ ray b p r c dx dy n.
Proof.
  intros Hdir.
  destruct (decide (holds b p (r + 1 * dx) (c + 1 * dy))) as [H1|H1].
  - destruct (first_mismatch r c dx dy 15 1) as (n & Hn & Hray); [lia| | |].
    + intros j Hj. lia.
    + intros [[Hr Hc] _]. destruct H1 as [[Hr1 Hc1] _]. simpl in *. nia.
    + exists n. split; [lia|done].
  - exists 0. split; [lia|]. split; [lia|]. split; [intros k Hk; lia|done].
Qed.

Lemma ray_unique (r c dx dy n m : Z) :
  ray b p r c dx dy n -> ray b p r c dx dy m -> n = m.
Proof.
  intros (Hn & Hrun_n & Hend_n) (Hm & Hrun_m & Hend_m).
  destruct (Z.lt_trichotomy n m) as [Hlt|[->|Hgt]]; [|done|].
  - destruct Hend_n. apply Hrun_m. lia.
  - destruct Hend_m. apply Hrun_n. lia.
Qed.

(** The [while] loop counts the ray, with any fuel above 15. *)
Lemma while_same_ray (fuel : nat) (r c dx dy n count : Z) :
  (15 < fuel)%nat -> 0 <= n <= 15 -> ray b p r c dx dy n ->
  GameLogic.while_same fuel b p dx dy (r + dx) (c + dy) count = Return (count + n).
Proof.
  intros Hfuel Hn (_ & Hrun & Hend).
  rewrite (while_same_run (Z.to_nat n)).
  - f_equal. lia.
  - lia.
  - intros k Hk.
    replace (r + dx + k * dx) with (r + (k + 1) * dx) by lia.
    replace (c + dy + k * dy) with (c + (k + 1) * dy) by lia.
    apply Hrun. lia.
  - rewrite Z2Nat.id by lia.
    replace (r + dx + n * dx) with (r + (n + 1) * dx) by lia.
    by replace (c + dy + n * dy) with (c + (n + 1) * dy) by lia.
Qed.

(** The loop bound cuts nothing off: more fuel gives the same count. *)
Lemma while_same_bound_enough (fuel : nat) (r c dx dy count : Z) :
  dx <> 0 \/ dy <> 0 -> (GameLogic.loop_bound <= fuel)%nat ->
  GameLogic.while_same fuel b p dx dy (r + dx) (c + dy) count
  = GameLogic.while_same GameLogic.loop_bound b p dx dy (r + dx) (c + dy) count.
Proof.
  intros Hdir Hfuel. destruct (ray_exists r c dx dy Hdir) as (n & Hn & Hray).
  assert (GameLogic.loop_bound = 16%nat) as Hbound by reflexivity.
  rewrite (while_same_ray fuel r c dx dy n), (while_same_ray GameLogic.loop_bound r c dx dy n);
    [done|lia|done|done|lia|done|done].
Qed.

(** The two rays of one axis. *)
Lemma for_rays_axis (r c dx dy : Z) :
  dx <> 0 \/ dy <> 0 ->
  exists total,
    GameLogic.for_rays b r c p [ (dx, dy); (- dx, - dy) ] 1 = Return total
    /\ axis_count b p r c (dx, dy) total.
Proof.
  intros Hdir.
  destruct (ray_exists r c dx dy Hdir) as (n1 & Hn1 & Hray1).
  destruct (ray_exists r c (- dx) (- dy)) as (n2 & Hn2 & Hray2); [lia|].
  exists (1 + n1 + n2). split.
  - cbn [GameLogic.for_rays].
    assert (15 < GameLogic.loop_bound)%nat as Hbound by (vm_compute; lia).
    rewrite (while_same_ray _ r c dx dy n1); [|done..]. cbn [cbind].
    rewrite (while_same_ray _ r c (- dx) (- dy) n2); [|done..]. done.
  - by exists n1, n2.
Qed.

Lemma axis_count_unique (r c : Z) (axis : Z * Z) (t1 t2 : Z) :
  axis_count b p r c axis t1 -> axis_count b p r c axis t2 -> t1 = t2.
Proof.
  intros (n1 & n2 & H1 & H2 & ->) (m1 & m2 & H1' & H2' & ->).
  by rewrite (ray_unique _ _ _ _ _ _ H1 H1'), (ray_unique _ _ _ _ _ _ H2 H2').
Qed.

(** [checkWinner] returns normally, with the truth value of
    [five_in_a_row]. *)
Lemma checkWinner_correct (r c : Z) :
  exists v, GameLogic.checkWinner b r c p = Return v
            /\ (v = true <-> five_in_a_row b p r c).
Proof.
  unfold GameLogic.checkWinner, GameLogic.directions.
  destruct (for_rays_axis r c 0 1) as (t1 & E1 & A1); [lia|].
  destruct (for_rays_axis r c 1 0) as (t2 & E2 & A2); [lia|].
  destruct (for_rays_axis r c 1 1) as (t3 & E3 & A3); [lia|].
  destruct (for_rays_axis r c 1 (-1)) as (t4 & E4 & A4); [lia|].
  change (- 0) with 0 in E1, E2. change (- (1)) with (-1) in E1, E2, E3, E4.
  change (- -1) with 1 in E4.
  assert (forall axis total, axis ∈ axes -> axis_count b p r c axis total ->
            total = t1 \/ total = t2 \/ total = t3 \/ total = t4) as Hany.
  { intros axis total Hin Hcount. unfold axes in Hin.
    repeat (apply elem_of_cons in Hin as [->|Hin]);
      [ left | right; left | right; right; left | right; right; right | by apply elem_of_nil in Hin ];
      eapply axis_count_unique; eauto. }
  cbn [GameLogic.for_directions]. unfold GameLogic.WINNING_LENGTH.
  rewrite E1. cbn [cbind].
  destruct (Z.geb_spec t1 5) as [G1|G1].
  { exists true. split; [done|]. split; [|done]. intros _.
    exists (0, 1), t1. split; [|split; [done|lia]]. unfold axes. repeat constructor. }
  rewrite E2. cbn [cbind].
  destruct (Z.geb_spec t2 5) as [G2|G2].
  { exists true. split; [done|]. split; [|done]. intros _.
    exists (1, 0), t2. split; [|split; [done|lia]]. unfold axes. repeat constructor. }
  rewrite E3. cbn [cbind].
  destruct (Z.geb_spec t3 5) as [G3|G3].
  { exists true. split; [done|]. split; [|done]. intros _.
    exists (1, 1), t3. split; [|split; [done|lia]]. unfold axes. repeat constructor. }
  rewrite E4. cbn [cbind].
  destruct (Z.geb_spec t4 5) as [G4|G4].
  { exists true. split; [done|]. split; [|done]. intros _.
    exists (1, -1), t4. split; [|split; [done|lia]]. unfold axes. repeat constructor. }
  exists false. split; [done|]. split; [done|].
  intros (axis & total & Hin & Hcount & Hge).
  destruct (Hany axis total Hin Hcount) as [-> | [-> | [-> | ->]]]; lia.
Qed.

End Winner.

(** C2.  On a 15x15 board and for a cell on it, [checkWinner] returns
    normally, and returns [true] exactly when on one of the four axes
    through the cell (horizontal, vertical, the two diagonals) the count
    1 + the two opposite rays of contiguous stones of the player, each
    stopped by the first non-matching cell or the edge, is at least 5.  In
    particular it returns [true] when some axis counts exactly 5, and
    [false] when no axis counts more than 4. *)
Theorem checkWinner_iff (b : Board) (r c : Z) (p : Player) :
  wf_board b -> on_board r c ->
  (exists v, GameLogic.checkWinner b r c p = Return v
             /\ (v = true <-> five_in_a_row b p r c))
  /\ (forall axis, axis ∈ axes -> axis_count b p r c axis 5 ->
        GameLogic.checkWinner b r c p = Return true)
  /\ ((forall axis total, axis ∈ axes -> axis_count b p r c axis total -> total <= 4) ->
        GameLogic.checkWinner b r c p = Return false).
Proof.
  intros Hwf _.
  destruct (checkWinner_correct b p Hwf r c) as (v & Hv & Hiff).
  split; [by exists v|]. rewrite Hv. split.
  - intros axis Hin Hcount. f_equal. apply Hiff.
    exists axis, 5. split; [done|]. split; [done|lia].
  - intros Hsmall. f_equal. destruct v; [|done].
    destruct Hiff as [Hfive _].
    destruct (Hfive eq_refl) as (axis & total & Hin & Hcount & Hge).
    specialize (Hsmall axis total Hin Hcount). lia.
Qed.

(** Five black stones in row 7, columns 5 to 9. *)
Example checkWinner_five_horizontal :
  let b := board_with [ (7, 5, black); (7, 6, black); (7, 7, black); (7, 8, black); (7, 9, black) ] in
  GameLogic.checkWinner b 7 9 black = Return true
  /\ GameLogic.checkWinner b 7 7 black = Return true
  /\ GameLogic.checkWinner b 7 9 white = Return false.
Proof. vm_compute. done. Qed.

(** Five white stones in column 7 and five black stones on each diagonal. *)
Example checkWinner_five_vertical_diagonal :
  GameLogic.checkWinner
    (board_with [ (5, 7, white); (6, 7, white); (7, 7, white); (8, 7, white); (9, 7, white) ])
    9 7 white = Return true
  /\ GameLogic.checkWinner
       (board_with [ (5, 5, black); (6, 6, black); (7, 7, black); (8, 8, black); (9, 9, black) ])
       9 9 black = Return true
  /\ GameLogic.checkWinner
       (board_with [ (5, 9, black); (6, 8, black); (7, 7, black); (8, 6, black); (9, 5, black) ])
       7 7 black = Return true.
Proof. vm_compute. done. Qed.

(** Four in a row, closed by the opponent on both sides, or by the edge on
    one side and the opponent on the other. *)
Example checkWinner_four_blocked :
  GameLogic.checkWinner
    (board_with [ (7, 4, white); (7, 5, black); (7, 6, black); (7, 7, black); (7, 8, black);
                  (7, 9, white) ])
    7 8 black = Return false
  /\ GameLogic.checkWinner
       (board_with [ (7, 0, black); (7, 1, black); (7, 2, black); (7, 3, black); (7, 4, white) ])
       7 3 black = Return false.
Proof. vm_compute. done. Qed.

Lemma checkWinner_iff_witness :
  let b := board_with [ (7, 5, black); (7, 6, black); (7, 7, black); (7, 8, black); (7, 9, black) ] in
  (exists v, GameLogic.checkWinner b 7 9 black = Return v
             /\ (v = true <-> five_in_a_row b black 7 9))
  /\ (forall axis, axis ∈ axes -> axis_count b black 7 9 axis 5 ->
        GameLogic.checkWinner b 7 9 black = Return true)
  /\ ((forall axis total, axis ∈ axes -> axis_count b black 7 9 axis total -> total <= 4) ->
        GameLogic.checkWinner b 7 9 black = Return false).
Proof.
  apply (checkWinner_iff
           (board_with [ (7, 5, black); (7, 6, black); (7, 7, black); (7, 8, black);
                         (7, 9, black) ]) 7 9 black).
  - split; [reflexivity|]. vm_compute. repeat constructor.
  - unfold on_board. lia.
Defined.

(** ** Draw detection *)

Section Draw.

Variable b : Board.
Hypothesis Hwf : wf_board b.

Lemma elem_of_indices (i : Z) : i ∈ GameLogic.indices <-> 0 <= i < 15.
Proof.
  unfold GameLogic.indices, GameLogic.BOARD_SIZE.
  rewrite list_elem_of_In, in_map_iff. split.
  - intros (n & <- & Hn). apply in_seq in Hn. lia.
  - intros Hi. exists (Z.to_nat i). split; [lia|]. apply in_seq. lia.
Qed.

Lemma any_null_in_row_correct (r : Z) (cols : list Z) :
  0 <= r < 15 -> Forall (fun c => 0 <= c < 15) cols ->
  exists v, GameLogic.any_null_in_row b r cols = Return v
            /\ (v = true <-> exists c, c ∈ cols /\ cell_at b r c = Some null).
Proof.
  intros Hr. induction cols as [|c cols IH]; intros Hcols.
  - exists false. split; [done|]. split; [done|].
    intros (c & Hc & _). by apply elem_of_nil in Hc.
  - apply Forall_cons in Hcols as [Hc Hcols].
    destruct (IH Hcols) as (v & Hv & Hiff). cbn [GameLogic.any_null_in_row].
    destruct (board_get_wf b r c Hwf (conj Hr Hc)) as (x & Hx & ->). cbn [cbind].
    destruct (Cell_eqb x null) eqn:Heq.
    + apply Cell_eqb_eq in Heq. subst x. exists true. split; [done|].
      split; [|done]. intros _. exists c. split; [constructor|done].
    + exists v. split; [done|]. rewrite Hiff. split.
      * intros (c' & Hin & Hnull). exists c'. split; [by constructor|done].
      * intros (c' & Hin & Hnull). apply elem_of_cons in Hin as [->|Hin].
        -- rewrite Hx in Hnull. injection Hnull as ->. done.
        -- by exists c'.
Qed.

Lemma any_null_correct (rows cols : list Z) :
  Forall (fun r => 0 <= r < 15) rows -> Forall (fun c => 0 <= c < 15) cols ->
  exists v, GameLogic.any_null b rows cols = Return v
            /\ (v = true <-> exists r c, r ∈ rows /\ c ∈ cols /\ cell_at b r c = Some null).
Proof.
  intros Hrows Hcols. induction rows as [|r rows IH].
  - exists false. split; [done|]. split; [done|].
    intros (r & c & Hr & _). by apply elem_of_nil in Hr.
  - apply Forall_cons in Hrows as [Hr Hrows].
    destruct (IH Hrows) as (v & Hv & Hiff). cbn [GameLogic.any_null].
    destruct (any_null_in_row_correct r cols Hr Hcols) as (w & -> & Hw). cbn [cbind].
    destruct w.
    + exists true. split; [done|]. split; [|done]. intros _.
      destruct Hw as [Hw _]. destruct (Hw eq_refl) as (c & Hc & Hnull).
      exists r, c. split; [constructor|done].
    + exists v. split; [done|]. rewrite Hiff. split.
      * intros (r' & c & Hin & Hc & Hnull). exists r', c. split; [by constructor|done].
      * intros (r' & c & Hin & Hc & Hnull). apply elem_of_cons in Hin as [->|Hin].
        -- destruct Hw as [_ Hw]. discriminate Hw. by exists c.
        -- by exists r', c.
Qed.

(** [checkDraw] returns normally, and [true] exactly on a full board. *)
Lemma checkDraw_correct :
  exists v, GameLogic.checkDraw b = Return v /\ (v = true <-> board_full b).
Proof.
  assert (Forall (fun i => 0 <= i < 15) GameLogic.indices) as Hall.
  { apply Forall_forall. intros i. by rewrite elem_of_indices. }
  destruct (any_null_correct _ _ Hall Hall) as (v & Hv & Hiff).
  unfold GameLogic.checkDraw. rewrite Hv. cbn [cbind].
  exists (negb v). split; [done|].
  rewrite negb_true_iff, <- not_true_iff_false, Hiff. unfold board_full. split.
  - intros Hno r c [Hr Hc] Hnull. apply Hno. exists r, c.
    by rewrite !elem_of_indices.
  - intros Hfull (r & c & Hr & Hc & Hnull). apply elem_of_indices in Hr, Hc.
    by apply (Hfull r c).
Qed.

End Draw.

(** ** The board state machine *)

Lemma GameStatus_eqb_eq (x y : GameStatus) : GameStatus_eqb x y = true <-> x = y.
Proof. destruct x, y; simpl; split; congruence. Qed.

Lemma switch_player (p : Player) :
  (if Player_eqb p black then white else black) = other p.
Proof. by destruct p. Qed.

Lemma makeMove_game_over (s : GameBoard.Session) (r c now : Z) :
  GameBoard.gameStatus s <> playing ->
  GameBoard.makeMove r c now s = (Throw GameOverError, s).
Proof.
  intros Hst. unfold GameBoard.makeMove, bind, this. simpl.
  destruct (GameStatus_eqb (GameBoard.gameStatus s) playing) eqn:Heq; [|done].
  by apply GameStatus_eqb_eq in Heq.
Qed.

Lemma makeMove_invalid (s : GameBoard.Session) (r c now : Z) :
  GameBoard.gameStatus s = playing ->
  GameLogic.isValidMove (GameBoard.board s) r c = Return false ->
  GameBoard.makeMove r c now s = (Throw InvalidMoveError, s).
Proof.
  intros Hst Hinv.
  unfold GameBoard.makeMove, bind, this, lift.
  cbn -[GameLogic.isValidMove]. rewrite Hst. cbn -[GameLogic.isValidMove].
  by rewrite Hinv.
Qed.

Lemma makeMove_accepted (s : GameBoard.Session) (r c now : Z) :
  wf_board (GameBoard.board s) ->
  GameBoard.gameStatus s = playing ->
  on_board r c ->
  cell_at (GameBoard.board s) r c = Some null ->
  exists line win full,
    let b' := <[Z.to_nat r := <[Z.to_nat c := piece (GameBoard.currentPlayer s)]> line]>
                (GameBoard.board s) in
    GameBoard.board s !! Z.to_nat r = Some line
    /\ GameLogic.checkWinner b' r c (GameBoard.currentPlayer s) = Return win
    /\ GameLogic.checkDraw b' = Return full
    /\ GameBoard.makeMove r c now s = (Return true, after_move s b' r c now win full).
Proof.
  intros Hwf Hst Hrc Hnull.
  destruct (board_set_wf (GameBoard.board s) r c (piece (GameBoard.currentPlayer s)) Hwf Hrc)
    as (line & Hline & Hset).
  pose proof (wf_board_insert _ _ (Z.to_nat c) _ (piece (GameBoard.currentPlayer s)) Hwf Hline)
    as Hwf'.
  destruct (checkWinner_correct _ (GameBoard.currentPlayer s) Hwf' r c) as (win & Hwin & _).
  destruct (checkDraw_correct _ Hwf') as (full & Hfull & _).
  exists line, win, full. cbn zeta. split; [done|]. split; [done|]. split; [done|].
  unfold GameBoard.makeMove, bind, this, lift.
  cbn -[GameLogic.isValidMove GameLogic.checkWinner GameLogic.checkDraw board_set].
  rewrite Hst. cbn -[GameLogic.isValidMove GameLogic.checkWinner GameLogic.checkDraw board_set].
  rewrite (isValidMove_on_board _ r c null Hrc Hnull).
  cbn -[GameLogic.checkWinner GameLogic.checkDraw board_set].
  rewrite Hset. cbn -[GameLogic.checkWinner GameLogic.checkDraw].
  rewrite Hwin. unfold after_move.
  destruct win; cbn -[GameLogic.checkDraw]; [done|].
  rewrite Hfull. destruct full; cbn; [done|].
  unfold ret. by rewrite Hst, switch_player.
Qed.

(** C5.  [makeMove] throws the game-over error whenever the status is not
    [playing], and the invalid-move error whenever the status is [playing]
    but [isValidMove] returns [false]; in both cases the session (board,
    history, current player, status, winner) is exactly as before. *)
Theorem makeMove_rejects (s : GameBoard.Session) (r c now : Z) :
  (GameBoard.gameStatus s <> playing ->
   GameBoard.makeMove r c now s = (Throw GameOverError, s))
  /\ (GameBoard.gameStatus s = playing ->
      GameLogic.isValidMove (GameBoard.board s) r c = Return false ->
      GameBoard.makeMove r c now s = (Throw InvalidMoveError, s)).
Proof.
  split.
  - apply makeMove_game_over.
  - apply makeMove_invalid.
Qed.

(** C1.  In a session whose status is [playing], a move on an in-range
    empty cell returns [true] and leaves a session in which: the cell holds
    the mover's stone and every other cell is as before; the history is the
    old one followed by the move record, numbered old length + 1 and stamped
    with the current time; and, with [win] and [full] the answers of
    [checkWinner] (for the placed stone) and [checkDraw] on the new board,
    (a) if [win], the status is [won], the winner is the mover and the turn
    stays; (b) else if [full], the status is [draw] and the turn stays;
    (c) else the turn passes to the other colour. *)
Theorem makeMove_accepts (s : GameBoard.Session) (r c now : Z) :
  wf_board (GameBoard.board s) ->
  GameBoard.gameStatus s = playing ->
  on_board r c ->
  cell_at (GameBoard.board s) r c = Some null ->
  exists s' win full,
    GameBoard.makeMove r c now s = (Return true, s')
    /\ cell_at (GameBoard.board s') r c = Some (piece (GameBoard.currentPlayer s))
    /\ (forall r' c', (r', c') <> (r, c) ->
          cell_at (GameBoard.board s') r' c' = cell_at (GameBoard.board s) r' c')
    /\ GameBoard.moveHistory s'
       = GameBoard.moveHistory s
           ++ [mkMove r c (GameBoard.currentPlayer s)
                 (Z.of_nat (length (GameBoard.moveHistory s)) + 1) now]
    /\ GameLogic.checkWinner (GameBoard.board s') r c (GameBoard.currentPlayer s) = Return win
    /\ GameLogic.checkDraw (GameBoard.board s') = Return full
    /\ (win = true ->
          GameBoard.gameStatus s' = won
          /\ GameBoard.winner s' = Some (GameBoard.currentPlayer s)
          /\ GameBoard.currentPlayer s' = GameBoard.currentPlayer s)
    /\ (win = false -> full = true ->
          GameBoard.gameStatus s' = draw
          /\ GameBoard.winner s' = GameBoard.winner s
          /\ GameBoard.currentPlayer s' = GameBoard.currentPlayer s)
    /\ (win = false -> full = false ->
          GameBoard.gameStatus s' = playing
          /\ GameBoard.winner s' = GameBoard.winner s
          /\ GameBoard.currentPlayer s' = other (GameBoard.currentPlayer s)).
Proof.
  intros Hwf Hst Hrc Hnull.
  destruct (makeMove_accepted s r c now Hwf Hst Hrc Hnull)
    as (line & win & full & Hline & Hwin & Hfull & Hmove). cbn zeta in *.
  eexists _, win, full. split; [exact Hmove|]. simpl.
  split; [by apply cell_at_insert_eq|].
  split; [intros r' c' Hne; destruct Hrc; by apply cell_at_insert_ne; try lia|].
  split; [done|]. split; [done|]. split; [done|].
  split; [by intros ->|]. split; by intros -> ->.
Qed.

Lemma makeMove_rejects_witness :
  GameBoard.makeMove 7 7 1000
    (GameBoard.mkSession GameBoard._createEmptyBoard [] black won (Some black))
  = (Throw GameOverError,
     GameBoard.mkSession GameBoard._createEmptyBoard [] black won (Some black))
  /\ GameBoard.makeMove (-1) 0 1000 GameBoard.initial
     = (Throw InvalidMoveError, GameBoard.initial).
Proof.
  split.
  - apply (makeMove_rejects
             (GameBoard.mkSession GameBoard._createEmptyBoard [] black won (Some black))
             7 7 1000).
    simpl. discriminate.
  - apply (makeMove_rejects GameBoard.initial (-1) 0 1000); reflexivity.
Defined.

Lemma makeMove_accepts_witness :
  exists s' win full,
    GameBoard.makeMove 7 7 1000 GameBoard.initial = (Return true, s')
    /\ cell_at (GameBoard.board s') 7 7 = Some (piece black)
    /\ (forall r' c', (r', c') <> (7, 7) ->
          cell_at (GameBoard.board s') r' c'
          = cell_at (GameBoard.board GameBoard.initial) r' c')
    /\ GameBoard.moveHistory s' = [] ++ [mkMove 7 7 black (Z.of_nat 0 + 1) 1000]
    /\ GameLogic.checkWinner (GameBoard.board s') 7 7 black = Return win
    /\ GameLogic.checkDraw (GameBoard.board s') = Return full
    /\ (win = true ->
          GameBoard.gameStatus s' = won
          /\ GameBoard.winner s' = Some black
          /\ GameBoard.currentPlayer s' = black)
    /\ (win = false -> full = true ->
          GameBoard.gameStatus s' = draw
          /\ GameBoard.winner s' = None
          /\ GameBoard.currentPlayer s' = black)
    /\ (win = false -> full = false ->
          GameBoard.gameStatus s' = playing
          /\ GameBoard.winner s' = None
          /\ GameBoard.currentPlayer s' = other black).
Proof.
  apply (makeMove_accepts GameBoard.initial 7 7 1000).
  - split; [reflexivity|]. vm_compute. repeat constructor.
  - reflexivity.
  - unfold on_board. lia.
  - reflexivity.
Defined.

(** *** Undo *)

Lemma pop_snoc {A} (h : list A) (m : A) : GameBoard.pop (h ++ [m]) = (h, Some m).
Proof. unfold GameBoard.pop. by rewrite removelast_last, last_snoc. Qed.

Lemma undo_empty (s : GameBoard.Session) :
  GameBoard.moveHistory s = [] -> GameBoard.undo s = (Return false, s).
Proof.
  intros Hh. unfold GameBoard.undo, bind, this. cbn.
  by rewrite Hh.
Qed.

Lemma undo_game_over (s : GameBoard.Session) :
  GameBoard.gameStatus s <> playing -> GameBoard.undo s = (Return false, s).
Proof.
  intros Hst. unfold GameBoard.undo, bind, this. cbn.
  destruct (Z.of_nat (length (GameBoard.moveHistory s)) =? 0); [done|]. cbn.
  destruct (GameStatus_eqb (GameBoard.gameStatus s) playing) eqn:Heq; [|done].
  by apply GameStatus_eqb_eq in Heq.
Qed.

Lemma undo_accepted (s : GameBoard.Session) (h : list Move) (m : Move) :
  wf_board (GameBoard.board s) ->
  GameBoard.moveHistory s = h ++ [m] ->
  GameBoard.gameStatus s = playing ->
  on_board (row m) (col m) ->
  exists line,
    GameBoard.board s !! Z.to_nat (row m) = Some line
    /\ GameBoard.undo s
       = (Return true,
          GameBoard.mkSession
            (<[Z.to_nat (row m) := <[Z.to_nat (col m) := null]> line]> (GameBoard.board s))
            h (player m) (GameBoard.gameStatus s) (GameBoard.winner s)).
Proof.
  intros Hwf Hh Hst Hm.
  destruct (board_set_wf (GameBoard.board s) (row m) (col m) null Hwf Hm)
    as (line & Hline & Hset).
  exists line. split; [done|].
  unfold GameBoard.undo, bind, this, lift.
  cbn -[board_set GameBoard.pop]. rewrite Hh.
  destruct (Z.eqb_spec (Z.of_nat (length (h ++ [m]))) 0) as [Hlen|_].
  { rewrite length_app in Hlen. simpl in Hlen. lia. }
  cbn -[board_set GameBoard.pop].
  rewrite Hst. cbn -[board_set GameBoard.pop].
  rewrite pop_snoc. cbn -[board_set]. rewrite Hset. cbn. by rewrite Hst.
Qed.

(** C3.  In a session of the data model (15x15 board, every recorded move
    on the board), [undo] returns [false] with the whole session unchanged
    exactly when the history is empty or the status is not [playing] (so,
    in particular, after a win); in every other session it returns [true],
    drops exactly the last move from the history, sets that move's cell to
    [null], leaves every other cell alone, and makes the undone move's
    player the current player. *)
Theorem undo_spec (s : GameBoard.Session) :
  wf_board (GameBoard.board s) ->
  Forall (fun m => on_board (row m) (col m)) (GameBoard.moveHistory s) ->
  (GameBoard.undo s = (Return false, s)
   <-> GameBoard.moveHistory s = [] \/ GameBoard.gameStatus s <> playing)
  /\ (GameBoard.gameStatus s = won -> GameBoard.undo s = (Return false, s))
  /\ (forall h m,
        GameBoard.moveHistory s = h ++ [m] ->
        GameBoard.gameStatus s = playing ->
        exists s',
          GameBoard.undo s = (Return true, s')
          /\ GameBoard.moveHistory s' = h
          /\ cell_at (GameBoard.board s') (row m) (col m) = Some null
          /\ (forall r' c', (r', c') <> (row m, col m) ->
                cell_at (GameBoard.board s') r' c' = cell_at (GameBoard.board s) r' c')
          /\ GameBoard.currentPlayer s' = player m
          /\ GameBoard.gameStatus s' = GameBoard.gameStatus s
          /\ GameBoard.winner s' = GameBoard.winner s).
Proof.
  intros Hwf Hmoves.
  assert (forall h m, GameBoard.moveHistory s = h ++ [m] -> on_board (row m) (col m)) as Hlast.
  { intros h m Hh. rewrite Hh in Hmoves. apply Forall_app in Hmoves as [_ Hm].
    by inversion Hm. }
  split; [|split].
  - split.
    + intros Hundo.
      destruct (decide (GameBoard.moveHistory s = [])) as [|Hne]; [by left|]. right.
      intros Hst. destruct (exists_last Hne) as (h & m & Hh).
      destruct (undo_accepted s h m Hwf Hh Hst (Hlast h m Hh)) as (line & _ & Hok).
      rewrite Hok in Hundo. discriminate.
    + intros [Hh|Hst]; [by apply undo_empty|by apply undo_game_over].
  - intros Hst. apply undo_game_over. by rewrite Hst.
  - intros h m Hh Hst.
    pose proof (Hlast h m Hh) as Hm.
    destruct (undo_accepted s h m Hwf Hh Hst Hm) as (line & Hline & Hok).
    eexists. split; [exact Hok|]. simpl.
    split; [done|]. split; [by apply cell_at_insert_eq|].
    split; [|done].
    intros r' c' Hne. destruct Hm. by apply cell_at_insert_ne; try lia.
Qed.

Lemma undo_spec_witness :
  (GameBoard.undo GameBoard.initial = (Return false, GameBoard.initial)
   <-> GameBoard.moveHistory GameBoard.initial = []
       \/ GameBoard.gameStatus GameBoard.initial <> playing)
  /\ exists s',
       GameBoard.undo (snd (GameBoard.makeMove 7 7 1000 GameBoard.initial)) = (Return true, s')
       /\ GameBoard.moveHistory s' = []
       /\ cell_at (GameBoard.board s') 7 7 = Some null
       /\ GameBoard.currentPlayer s' = black.
Proof.
  split.
  - apply (undo_spec GameBoard.initial).
    + split; [reflexivity|]. vm_compute. repeat constructor.
    + constructor.
  - destruct (undo_spec (snd (GameBoard.makeMove 7 7 1000 GameBoard.initial)))
      as (_ & _ & Hok).
    + split; [reflexivity|]. vm_compute. repeat constructor.
    + vm_compute. repeat constructor; discriminate.
    + destruct (Hok [] (mkMove 7 7 black 1 1000)) as (s' & H1 & H2 & H3 & _ & H5 & _);
        [reflexivity..|].
      exists s'. repeat split; assumption.
Defined.

(** ** History length and stones on the board *)

Section Counting.

Lemma sum_list_with_insert {A} (f : A -> nat) (l : list A) (i : nat) (x y : A) :
  l !! i = Some x ->
  (sum_list_with f (<[i := y]> l) + f x = sum_list_with f l + f y)%nat.
Proof.
  revert i. induction l as [|a l IH]; intros [|i] Hi; simpl in *; try done.
  - injection Hi as ->. lia.
  - specialize (IH i Hi). lia.
Qed.

(** Overwriting one cell changes the count by the difference of the two
    contents. *)
Lemma count_nonempty_insert (b : Board) (i j : nat) (line : list Cell) (x v : Cell) :
  b !! i = Some line -> line !! j = Some x ->
  (count_nonempty (<[i := <[j := v]> line]> b) + occupied x
   = count_nonempty b + occupied v)%nat.
Proof.
  intros Hline Hx. unfold count_nonempty.
  pose proof (sum_list_with_insert (sum_list_with occupied) b i line (<[j := v]> line) Hline).
  pose proof (sum_list_with_insert occupied line j x v Hx).
  lia.
Qed.

Lemma cell_at_lookup (b : Board) (r c : Z) (line : list Cell) (x : Cell) :
  on_board r c -> b !! Z.to_nat r = Some line -> cell_at b r c = Some x ->
  line !! Z.to_nat c = Some x.
Proof.
  intros [Hr Hc] Hline. unfold cell_at. rewrite Hline.
  destruct (Z.leb_spec 0 r); [|lia]. destruct (Z.leb_spec 0 c); [|lia]. done.
Qed.

Lemma no_holes_insert (b : Board) (i j : nat) (line : list Cell) (v : Cell) :
  no_holes b -> b !! i = Some line -> v <> undefined ->
  no_holes (<[i := <[j := v]> line]> b).
Proof.
  intros Hb Hline Hv. unfold no_holes in *.
  apply Forall_insert; [done|]. apply Forall_insert; [|done].
  rewrite Forall_lookup in Hb. by apply (Hb i).
Qed.

End Counting.

Section Invariant.

Lemma session_inv_initial : session_inv GameBoard.initial.
Proof.
  split; simpl.
  - apply wf_board_empty.
  - reflexivity.
  - constructor.
  - constructor.
  - vm_compute. repeat (constructor; try discriminate).
Qed.

Lemma session_inv_after_move s (r c now : Z) (line : list Cell) (win full : bool) :
  session_inv s -> on_board r c ->
  cell_at (GameBoard.board s) r c = Some null ->
  GameBoard.board s !! Z.to_nat r = Some line ->
  session_inv
    (after_move s
       (<[Z.to_nat r := <[Z.to_nat c := piece (GameBoard.currentPlayer s)]> line]>
          (GameBoard.board s))
       r c now win full).
Proof.
  intros [Hwf Hcount Hnodup Hstones Hholes] Hrc Hnull Hline.
  assert (forall m, m ∈ GameBoard.moveHistory s -> coords m <> (r, c)) as Hfresh.
  { intros m Hm Heq. rewrite Forall_forall in Hstones.
    destruct (Hstones m Hm) as (_ & q & Hq).
    unfold coords in Heq. injection Heq as Hr Hc. rewrite Hr, Hc in Hq. congruence. }
  split; simpl.
  - by apply wf_board_insert.
  - pose proof (count_nonempty_insert (GameBoard.board s) _ _ line null
                  (piece (GameBoard.currentPlayer s)) Hline
                  (cell_at_lookup _ r c line null Hrc Hline Hnull)) as Hins.
    unfold occupied in Hins. rewrite length_app. simpl in *. lia.
  - rewrite map_app. apply NoDup_app. split; [done|]. split; [|apply NoDup_singleton].
    intros xy Hin. apply list_elem_of_fmap in Hin as (m & -> & Hm).
    simpl. intros Hin. apply list_elem_of_singleton in Hin. by apply (Hfresh m).
  - apply Forall_app. split.
    + rewrite Forall_forall in Hstones |- *. intros m Hm.
      destruct (Hstones m Hm) as (Hon & q & Hq). split; [done|]. exists q.
      destruct Hrc. rewrite cell_at_insert_ne; [done|lia|lia|done|].
      apply (Hfresh m Hm).
    + apply Forall_singleton. split; [done|]. simpl.
      exists (GameBoard.currentPlayer s). by apply cell_at_insert_eq.
  - by apply no_holes_insert.
Qed.

Lemma session_inv_after_undo s (h : list Move) (m : Move) (line : list Cell) :
  session_inv s ->
  GameBoard.moveHistory s = h ++ [m] ->
  GameBoard.board s !! Z.to_nat (row m) = Some line ->
  session_inv
    (GameBoard.mkSession
       (<[Z.to_nat (row m) := <[Z.to_nat (col m) := null]> line]> (GameBoard.board s))
       h (player m) (GameBoard.gameStatus s) (GameBoard.winner s)).
Proof.
  intros [Hwf Hcount Hnodup Hstones Hholes] Hh Hline.
  rewrite Hh in Hcount, Hnodup, Hstones.
  apply Forall_app in Hstones as [Hstones Hm].
  apply Forall_singleton in Hm as (Hon & q & Hq).
  rewrite map_app in Hnodup. apply NoDup_app in Hnodup as (Hnodup & Hfresh & _).
  split; simpl.
  - by apply wf_board_insert.
  - pose proof (count_nonempty_insert (GameBoard.board s) _ _ line (piece q) null Hline
                  (cell_at_lookup _ _ _ line _ Hon Hline Hq)) as Hins.
    unfold occupied in Hins. rewrite length_app in Hcount. simpl in *. lia.
  - done.
  - rewrite Forall_forall in Hstones |- *. intros m' Hm'.
    destruct (Hstones m' Hm') as (Hon' & q' & Hq'). split; [done|]. exists q'.
    destruct Hon. rewrite cell_at_insert_ne; [done|lia|lia|done|].
    intros Heq. apply (Hfresh (coords m')).
    + apply list_elem_of_fmap. by exists m'.
    + unfold coords at 1. rewrite Heq. simpl. apply list_elem_of_singleton. done.
  - by apply no_holes_insert.
Qed.

Lemma session_inv_makeMove s (r c now : Z) :
  session_inv s -> session_inv (snd (GameBoard.makeMove r c now s)).
Proof.
  intros Hinv. pose proof (inv_wf s Hinv) as Hwf.
  destruct (decide (GameBoard.gameStatus s = playing)) as [Hst|Hst];
    [|by rewrite makeMove_game_over].
  destruct (decide (on_board r c)) as [Hrc|Hrc].
  - destruct (cell_at_wf _ r c Hwf Hrc) as [x Hx].
    destruct (decide (x = null)) as [->|Hx'].
    + destruct (makeMove_accepted s r c now Hwf Hst Hrc Hx)
        as (line & win & full & Hline & _ & _ & ->). simpl.
      by apply session_inv_after_move.
    + rewrite makeMove_invalid; [done..|].
      rewrite (isValidMove_on_board _ r c x Hrc Hx). f_equal.
      apply not_true_iff_false. by rewrite Cell_eqb_eq.
  - rewrite makeMove_invalid; [done..|].
    unfold GameLogic.isValidMove.
    by apply out_of_board_true in Hrc as ->.
Qed.

Lemma session_inv_undo s : session_inv s -> session_inv (snd (GameBoard.undo s)).
Proof.
  intros Hinv. pose proof (inv_wf s Hinv) as Hwf.
  destruct (decide (GameBoard.gameStatus s = playing)) as [Hst|Hst];
    [|by rewrite undo_game_over].
  destruct (decide (GameBoard.moveHistory s = [])) as [Hh|Hh];
    [by rewrite undo_empty|].
  destruct (exists_last Hh) as (h & m & Hm).
  assert (on_board (row m) (col m)) as Hon.
  { pose proof (inv_stones s Hinv) as Hstones. rewrite Hm in Hstones.
    apply Forall_app in Hstones as [_ Hlast]. by apply Forall_singleton in Hlast as [? _]. }
  destruct (undo_accepted s h m Hwf Hm Hst Hon) as (line & Hline & ->). simpl.
  by apply session_inv_after_undo.
Qed.

Lemma session_inv_reset (s : GameBoard.Session) : session_inv (snd (GameBoard.reset s)).
Proof. apply session_inv_initial. Qed.

Lemma reachable_inv s : reachable s -> session_inv s.
Proof.
  induction 1 as [|s o _ IH].
  - apply session_inv_initial.
  - destruct o as [r c now| |]; simpl.
    + by apply session_inv_makeMove.
    + by apply session_inv_undo.
    + apply (session_inv_reset s).
Qed.

(** Every session reached by playing is a session of the data model: a
    15x15 board without holes, and every recorded move on the board. *)
Lemma reachable_data_model (s : GameBoard.Session) :
  reachable s ->
  wf_board (GameBoard.board s)
  /\ no_holes (GameBoard.board s)
  /\ Forall (fun m => on_board (row m) (col m)) (GameBoard.moveHistory s).
Proof.
  intros Hreach. apply reachable_inv in Hreach as [Hwf _ _ Hstones Hholes].
  split; [done|]. split; [done|].
  eapply Forall_impl; [exact Hstones|]. by intros m [Hon _].
Qed.

End Invariant.

(** C6.  In every session reached from the initial one by any sequence of
    [makeMove], [undo] and [reset] calls (accepted or rejected), the length
    of the move history is the number of non-empty cells of the board. *)
Theorem history_length_counts_stones (s : GameBoard.Session) :
  reachable s ->
  length (GameBoard.moveHistory s) = count_nonempty (GameBoard.board s).
Proof.
  intros Hreach. symmetry. apply inv_count. by apply reachable_inv.
Qed.

(** After black (7,7), white (7,8), an undo, a rejected move and white (8,8). *)
Lemma history_length_counts_stones_witness :
  let s := apply_op (OpMakeMove 8 8 1004)
             (apply_op (OpMakeMove 7 7 1003)
                (apply_op OpUndo
                   (apply_op (OpMakeMove 7 8 1001)
                      (apply_op (OpMakeMove 7 7 1000) GameBoard.initial)))) in
  length (GameBoard.moveHistory s) = 2%nat
  /\ length (GameBoard.moveHistory s) = count_nonempty (GameBoard.board s).
Proof.
  split; [reflexivity|].
  apply (history_length_counts_stones
           (apply_op (OpMakeMove 8 8 1004)
              (apply_op (OpMakeMove 7 7 1003)
                 (apply_op OpUndo
                    (apply_op (OpMakeMove 7 8 1001)
                       (apply_op (OpMakeMove 7 7 1000) GameBoard.initial)))))).
  repeat apply reachable_step. apply reachable_initial.
Defined.

(** ** Scenarios *)

(** Black plays (7,5) to (7,8) while white answers on row 8; black's fifth
    stone at (7,9) wins.  After that neither a move nor an undo is taken. *)
Example scenario_horizontal_win :
  let s := run [ OpMakeMove 7 5 1; OpMakeMove 8 5 2; OpMakeMove 7 6 3; OpMakeMove 8 6 4;
                 OpMakeMove 7 7 5; OpMakeMove 8 7 6; OpMakeMove 7 8 7; OpMakeMove 8 8 8;
                 OpMakeMove 7 9 9 ] GameBoard.initial in
  GameBoard.gameStatus s = won
  /\ GameBoard.winner s = Some black
  /\ GameBoard.currentPlayer s = black
  /\ length (GameBoard.moveHistory s) = 9%nat
  /\ GameBoard.undo s = (Return false, s)
  /\ GameBoard.makeMove 0 0 10 s = (Throw GameOverError, s).
Proof. vm_compute. done. Qed.

(** Two moves, one undone: white is to move again and (7,8) is empty. *)
Example scenario_undo :
  let s := run [ OpMakeMove 7 7 1; OpMakeMove 7 8 2; OpUndo ] GameBoard.initial in
  GameBoard.currentPlayer s = white
  /\ cell_at (GameBoard.board s) 7 8 = Some null
  /\ cell_at (GameBoard.board s) 7 7 = Some (piece black)
  /\ length (GameBoard.moveHistory s) = 1%nat.
Proof. vm_compute. done. Qed.

(** A move on an occupied cell or off the board changes nothing. *)
Example scenario_invalid_move :
  let s := run [ OpMakeMove 7 7 1 ] GameBoard.initial in
  GameBoard.makeMove 7 7 2 s = (Throw InvalidMoveError, s)
  /\ GameBoard.makeMove 15 0 2 s = (Throw InvalidMoveError, s).
Proof. vm_compute. done. Qed.

(** Reset gives back the initial session. *)
Example scenario_reset :
  run [ OpMakeMove 7 7 1; OpMakeMove 7 8 2; OpReset ] GameBoard.initial = GameBoard.initial.
Proof. reflexivity. Qed.

(** ** Display coordinates *)

Section DisplayCoords.

Local Open Scope string_scope.

Lemma small_index (i : Z) :
  0 <= i < 15 ->
  i = 0 \/ i = 1 \/ i = 2 \/ i = 3 \/ i = 4 \/ i = 5 \/ i = 6 \/ i = 7 \/ i = 8
  \/ i = 9 \/ i = 10 \/ i = 11 \/ i = 12 \/ i = 13 \/ i = 14.
Proof. lia. Qed.

(** The column letter is the [c]-th capital letter. *)
Lemma letter_of_column (c : Z) :
  0 <= c < 15 ->
  Helpers.hole_of_char (Helpers.char_at Helpers.letters c)
  = String (ascii_of_nat (65 + Z.to_nat c)) EmptyString.
Proof.
  intros Hc. destruct (small_index c Hc) as
    [->|[->|[->|[->|[->|[->|[->|[->|[->|[->|[->|[->|[->|[->| ->]]]]]]]]]]]]]];
    reflexivity.
Qed.

(** The row number is written as the decimal numeral of [15 - r]. *)
Lemma numeral_of_row (r : Z) :
  0 <= r < 15 ->
  Helpers.hole_of_int (15 - r) = NilZero.string_of_int (Z.to_int (15 - r)).
Proof.
  intros Hr. destruct (small_index r Hr) as
    [->|[->|[->|[->|[->|[->|[->|[->|[->|[->|[->|[->|[->|[->| ->]]]]]]]]]]]]]];
    reflexivity.
Qed.

Lemma display_then_board (r c : Z) :
  0 <= r < 15 -> 0 <= c < 15 ->
  Helpers.displayToBoardCoords (Helpers.boardToDisplayCoords r c)
  = Some (Helpers.mkCoords (Helpers.Int r) c).
Proof.
  intros Hr Hc.
  destruct (small_index r Hr) as
    [->|[->|[->|[->|[->|[->|[->|[->|[->|[->|[->|[->|[->|[->| ->]]]]]]]]]]]]]];
  destruct (small_index c Hc) as
    [->|[->|[->|[->|[->|[->|[->|[->|[->|[->|[->|[->|[->|[->| ->]]]]]]]]]]]]]];
  reflexivity.
Qed.

End DisplayCoords.

(** C9.  For every board coordinate with [0 <= r < 15] and [0 <= c < 15],
    [boardToDisplayCoords] yields the column's letter (the [c]-th capital
    letter, A for 0 up to O for 14) followed by the decimal numeral of
    [15 - r], and [displayToBoardCoords] maps that text back to exactly
    [{row: r, col: c}]; (0,0) is written A15 and (14,14) is written O1. *)
Theorem display_coords_exact_invertible (r c : Z) :
  0 <= r < 15 -> 0 <= c < 15 ->
  Helpers.boardToDisplayCoords r c
  = String (ascii_of_nat (65 + Z.to_nat c)) (NilZero.string_of_int (Z.to_int (15 - r)))
  /\ Helpers.displayToBoardCoords (Helpers.boardToDisplayCoords r c)
     = Some (Helpers.mkCoords (Helpers.Int r) c)
  /\ Helpers.boardToDisplayCoords 0 0 = "A15"%string
  /\ Helpers.boardToDisplayCoords 14 14 = "O1"%string
  /\ Helpers.displayToBoardCoords "A15" = Some (Helpers.mkCoords (Helpers.Int 0) 0)
  /\ Helpers.displayToBoardCoords "O1" = Some (Helpers.mkCoords (Helpers.Int 14) 14).
Proof.
  intros Hr Hc. split; [|split; [by apply display_then_board|by repeat split]].
  unfold Helpers.boardToDisplayCoords.
  by rewrite letter_of_column, numeral_of_row.
Qed.

Lemma display_coords_exact_invertible_witness :
  Helpers.boardToDisplayCoords 7 7 = "H8"%string
  /\ Helpers.displayToBoardCoords (Helpers.boardToDisplayCoords 7 7)
     = Some (Helpers.mkCoords (Helpers.Int 7) 7).
Proof.
  destruct (display_coords_exact_invertible 7 7) as (H1 & H2 & _); [lia..|].
  split; [exact H1|exact H2].
Defined.

(** ** JSON text carries plain values exactly *)

Section Numbers.

Lemma code_char (n : Z) : 0 <= n < 256 -> JSON.code (JSON.char n) = n.
Proof.
  intros Hn. unfold JSON.code, JSON.char.
  rewrite nat_ascii_embedding by lia. lia.
Qed.

Lemma is_digit_char (d : Z) : 0 <= d <= 9 -> JSON.is_digit (JSON.char (48 + d)) = true.
Proof.
  intros Hd. unfold JSON.is_digit. rewrite code_char by lia.
  apply andb_true_iff. split; apply Z.leb_le; lia.
Qed.

Lemma read_digits_cons (d : Z) (k : string) (acc : Z) :
  0 <= d <= 9 ->
  JSON.read_digits (String (JSON.char (48 + d)) k) acc = JSON.read_digits k (acc * 10 + d).
Proof.
  intros Hd. cbn [JSON.read_digits]. rewrite is_digit_char by done.
  rewrite code_char by lia. f_equal. lia.
Qed.

(** Reading back the digits that were printed in front of [k]. *)
Lemma read_print_digits (fuel : nat) (n : Z) (k : string) :
  0 <= n < 2 ^ Z.of_nat fuel ->
  JSON.read_digits (JSON.print_digits fuel n k) 0 = JSON.read_digits k n.
Proof.
  revert n k. induction fuel as [|fuel IH]; intros n k Hn.
  - simpl. f_equal. change (2 ^ Z.of_nat 0) with 1 in Hn. lia.
  - cbn [JSON.print_digits].
    assert (0 <= n mod 10 <= 9) as Hmod by (pose proof (Z.mod_pos_bound n 10); lia).
    destruct (Z.ltb_spec n 10) as [Hsmall|Hbig].
    + rewrite read_digits_cons by done. f_equal. rewrite Z.mod_small; lia.
    + rewrite IH.
      * rewrite read_digits_cons by done. f_equal.
        pose proof (Z.div_mod n 10). lia.
      * split; [apply Z.div_pos; lia|].
        apply Z.div_lt_upper_bound; [lia|].
        rewrite Nat2Z.inj_succ, Z.pow_succ_r in Hn by lia. lia.
Qed.

Lemma read_digits_delimited (k : string) (n : Z) :
  delimited k = true -> JSON.read_digits k n = (n, k).
Proof.
  destruct k as [|ch k]; [done|]. cbn [delimited JSON.read_digits].
  rewrite !andb_true_iff, !negb_true_iff. by intros [[[-> _] _] _].
Qed.

(** A positive number is printed with a leading digit other than 0. *)
Lemma print_digits_head (fuel : nat) (n : Z) (k : string) :
  1 <= n < 2 ^ Z.of_nat fuel ->
  exists d rest, 1 <= d <= 9 /\ JSON.print_digits fuel n k = String (JSON.char (48 + d)) rest.
Proof.
  revert n k. induction fuel as [|fuel IH]; intros n k Hn.
  - change (2 ^ Z.of_nat 0) with 1 in Hn. lia.
  - cbn [JSON.print_digits]. destruct (Z.ltb_spec n 10) as [Hsmall|Hbig].
    + exists n, k. split; [lia|]. rewrite Z.mod_small; [done|lia].
    + apply IH. split.
      * apply Z.div_le_lower_bound; lia.
      * apply Z.div_lt_upper_bound; [lia|].
        rewrite Nat2Z.inj_succ, Z.pow_succ_r in Hn by lia. lia.
Qed.

Lemma print_nat_fuel (n : Z) :
  0 <= n -> n < 2 ^ Z.of_nat (S (Z.to_nat (Z.log2 n))).
Proof.
  intros Hn. rewrite Nat2Z.inj_succ, Z2Nat.id by apply Z.log2_nonneg.
  destruct (decide (n = 0)) as [->|Hpos]; [done|].
  apply Z.log2_spec. lia.
Qed.

Lemma scan_frac_delimited (k : string) :
  delimited k = true -> JSON.scan_frac k = Return (EmptyString, k).
Proof.
  destruct k as [|ch k]; [done|]. cbn [delimited JSON.scan_frac].
  rewrite !andb_true_iff, !negb_true_iff. by intros [[[_ ->] _] _].
Qed.

Lemma scan_exp_delimited (k : string) :
  delimited k = true -> JSON.scan_exp k = Return (EmptyString, k).
Proof.
  destruct k as [|ch k]; [done|]. cbn [delimited JSON.scan_exp].
  rewrite !andb_true_iff, !negb_true_iff. by intros [[[_ _] ->] ->].
Qed.

(** The part of [parse_number] after the sign, on a printed number. *)
Lemma parse_number_print_nat (n : Z) (k : string) :
  0 <= n -> delimited k = true ->
  exists ch rest,
    JSON.print_nat n k = String ch rest
    /\ JSON.is_digit ch = true
    /\ (if JSON.code ch =? 48 then (0, rest) else JSON.read_digits (String ch rest) 0) = (n, k).
Proof.
  intros Hn Hk. destruct (decide (n = 0)) as [->|Hpos].
  - exists (JSON.char 48), k. done.
  - destruct (print_digits_head (S (Z.to_nat (Z.log2 n))) n k) as (d & rest & Hd & Hhead).
    { split; [lia|]. by apply print_nat_fuel. }
    exists (JSON.char (48 + d)), rest. unfold JSON.print_nat.
    split; [done|]. split; [by apply is_digit_char; lia|].
    rewrite code_char by lia. destruct (Z.eqb_spec (48 + d) 48); [lia|].
    rewrite <- Hhead, read_print_digits by (split; [lia|by apply print_nat_fuel]).
    by apply read_digits_delimited.
Qed.

Lemma parse_number_print (n : Z) (k : string) :
  delimited k = true ->
  JSON.parse_number (JSON.print_number n k) = Return (JSON.Number n, k).
Proof.
  intros Hk. unfold JSON.print_number, JSON.parse_number.
  destruct (Z.ltb_spec n 0) as [Hneg|Hpos].
  - change (JSON.code "-" =? 45) with true. cbn iota.
    destruct (parse_number_print_nat (- n) k) as (ch & rest & -> & Hdigit & Hread); [lia|done|].
    rewrite Hdigit, Hread. cbn [cbind fst snd].
    rewrite scan_frac_delimited by done. cbn [cbind fst snd].
    rewrite scan_exp_delimited by done. cbn [cbind fst snd String.append].
    by rewrite Z.opp_involutive.
  - destruct (parse_number_print_nat n k) as (ch & rest & -> & Hdigit & Hread); [lia|done|].
    assert ((JSON.code ch =? 45) = false) as ->.
    { unfold JSON.is_digit in Hdigit. apply andb_true_iff in Hdigit as [H1 _].
      apply Z.leb_le in H1. apply Z.eqb_neq. lia. }
    rewrite Hdigit, Hread. cbn [cbind fst snd].
    rewrite scan_frac_delimited by done. cbn [cbind fst snd].
    rewrite scan_exp_delimited by done. done.
Qed.

End Numbers.

Section Strings.

Lemma plain_char_code (ch : ascii) :
  plain_char ch = true -> 32 <= JSON.code ch /\ JSON.code ch <> 34 /\ JSON.code ch <> 92.
Proof.
  unfold plain_char. rewrite !andb_true_iff, !negb_true_iff, Z.leb_le, !Z.eqb_neq. tauto.
Qed.

Lemma print_char_plain (ch : ascii) (k : string) :
  plain_char ch = true -> JSON.print_char ch k = String ch k.
Proof.
  intros Hch. apply plain_char_code in Hch as (H32 & H34 & H92). unfold JSON.print_char.
  repeat match goal with
         | |- context [?a =? ?b] => destruct (Z.eqb_spec a b); [lia|]
         | |- context [?a <? ?b] => destruct (Z.ltb_spec a b); [lia|]
         end.
  done.
Qed.

Lemma parse_chars_plain (ch : ascii) (rest : string) :
  plain_char ch = true ->
  JSON.parse_chars (String ch rest)
  = cbind (JSON.parse_chars rest) (fun r => Return (String ch (fst r), snd r)).
Proof.
  intros Hch. apply plain_char_code in Hch as (H32 & H34 & H92).
  cbn [JSON.parse_chars].
  destruct (Z.eqb_spec (JSON.code ch) 34); [lia|].
  destruct (Z.eqb_spec (JSON.code ch) 92); [lia|].
  destruct (Z.ltb_spec (JSON.code ch) 32); [lia|]. done.
Qed.

(** A string literal without escapes is read back as written. *)
Lemma parse_chars_print (s k : string) :
  plain_string s = true ->
  JSON.parse_chars (JSON.print_chars s (String JSON.dquote k)) = Return (s, k).
Proof.
  induction s as [|ch s IH]; intros Hs; [done|].
  cbn [plain_string] in Hs. apply andb_true_iff in Hs as [Hch Hs].
  cbn [JSON.print_chars]. rewrite print_char_plain, parse_chars_plain by done.
  by rewrite IH.
Qed.

End Strings.

Section Values.

(** Induction over a value and, inside arrays and objects, over its parts. *)
Lemma value_parts_ind (P : JSON.value -> Prop) :
  P JSON.Undefined -> P JSON.Null -> (forall b, P (JSON.Bool b)) ->
  (forall n, P (JSON.Number n)) -> (forall neg n tail, P (JSON.Real neg n tail)) ->
  (forall s, P (JSON.Str s)) ->
  (forall items, Forall P items -> P (JSON.Array items)) ->
  (forall props, Forall (fun kv => P (snd kv)) props -> P (JSON.Object props)) ->
  forall v, P v.
Proof.
  intros HU HN HB HNum HR HS HA HO.
  refine (fix IH (v : JSON.value) : P v :=
            match v with
            | JSON.Undefined => HU
            | JSON.Null => HN
            | JSON.Bool b => HB b
            | JSON.Number n => HNum n
            | JSON.Real neg n tail => HR neg n tail
            | JSON.Str s => HS s
            | JSON.Array items =>
                HA items ((fix all (l : list JSON.value) : Forall P l :=
                             match l with
                             | [] => List.Forall_nil P
                             | x :: rest => List.Forall_cons P x rest (IH x) (all rest)
                             end) items)
            | JSON.Object props =>
                HO props ((fix all (l : list (string * JSON.value))
                             : Forall (fun kv => P (snd kv)) l :=
                             match l with
                             | [] => List.Forall_nil _
                             | kv :: rest => List.Forall_cons _ kv rest (IH (snd kv)) (all rest)
                             end) props)
            end).
Qed.

Lemma print_Array (items : list JSON.value) (k : string) :
  JSON.print (JSON.Array items) k = String "[" (print_elements true items (String "]" k)).
Proof. reflexivity. Qed.

Lemma print_Object (props : list (string * JSON.value)) (k : string) :
  JSON.print (JSON.Object props) k = String "{" (print_members true props (String "}" k)).
Proof. reflexivity. Qed.

Lemma print_members_plain (first : bool) (key : string) (x : JSON.value)
    (rest : list (string * JSON.value)) (k : string) :
  plain x = true ->
  print_members first ((key, x) :: rest) k
  = let body :=
      JSON.print_string key (String ":" (JSON.print x (print_members false rest k))) in
    if first then body else String "," body.
Proof. by destruct x. Qed.

Lemma print_number_head (n : Z) (k : string) :
  exists ch rest,
    JSON.print_number n k = String ch rest
    /\ (JSON.code ch = 45 \/ JSON.is_digit ch = true).
Proof.
  unfold JSON.print_number. destruct (Z.ltb_spec n 0) as [Hneg|Hpos].
  - eexists _, _. split; [done|]. by left.
  - destruct (decide (n = 0)) as [->|Hnz].
    + exists (JSON.char 48), k. split; [done|]. by right.
    + destruct (print_digits_head (S (Z.to_nat (Z.log2 n))) n k) as (d & rest & Hd & Hhead).
      { split; [lia|]. by apply print_nat_fuel. }
      exists (JSON.char (48 + d)), rest. split; [done|]. right. apply is_digit_char. lia.
Qed.

Lemma number_head_starts (ch : ascii) :
  JSON.code ch = 45 \/ JSON.is_digit ch = true -> starts_value ch.
Proof.
  unfold starts_value, JSON.is_digit, JSON.is_ws.
  rewrite andb_true_iff, !Z.leb_le. intros H.
  repeat match goal with
         | |- context [?a =? ?b] => destruct (Z.eqb_spec a b); [lia|]
         end.
  split; [done|lia].
Qed.

Lemma print_head (v : JSON.value) (k : string) :
  plain v = true ->
  exists ch rest, JSON.print v k = String ch rest /\ starts_value ch.
Proof.
  intros Hv. destruct v as [| |[]|n| |s|items|props]; try done;
    try (eexists _, _; split; [reflexivity|]; by repeat split).
  destruct (print_number_head n k) as (ch & rest & Hprint & Hhead).
  exists ch, rest. split; [done|]. by apply number_head_starts.
Qed.

Lemma skip_ws_starts (ch : ascii) (rest : string) :
  starts_value ch -> JSON.skip_ws (String ch rest) = String ch rest.
Proof. intros (Hws & _). cbn [JSON.skip_ws]. by rewrite Hws. Qed.

Lemma parse_value_number (fuel : nat) (ch : ascii) (rest : string) :
  JSON.code ch = 45 \/ JSON.is_digit ch = true ->
  JSON.parse_value (S fuel) (String ch rest) = JSON.parse_number (String ch rest).
Proof.
  intros Hhead. cbn [JSON.parse_value].
  rewrite skip_ws_starts by (by apply number_head_starts).
  assert (((JSON.code ch =? 45) || JSON.is_digit ch) = true) as Hor.
  { destruct Hhead as [->| ->]; [done|apply orb_true_r]. }
  rewrite Hor.
  unfold JSON.is_digit in Hhead. rewrite andb_true_iff, !Z.leb_le in Hhead.
  repeat match goal with
         | |- context [?a =? ?b] => destruct (Z.eqb_spec a b); [lia|]
         end.
  done.
Qed.

Lemma parse_elements_print (xs : list JSON.value) :
  forall x fuel k,
    Forall reads_back (x :: xs) ->
    forallb plain (x :: xs) = true ->
    (list_sum (List.map (fun y => S (size y)) (x :: xs)) <= fuel)%nat ->
    JSON.parse_elements fuel (JSON.print x (print_elements false xs (String "]" k)))
    = Return (x :: xs, k).
Proof.
  induction xs as [|y ys IH]; intros x fuel k Hall Hplain Hfuel;
    apply Forall_cons in Hall as [Hx Hall];
    cbn [forallb] in Hplain; apply andb_true_iff in Hplain as [Hpx Hplain];
    simpl in Hfuel;
    (destruct fuel as [|fuel]; [lia|]); cbn [JSON.parse_elements].
  - cbn [print_elements]. rewrite (Hx Hpx) by (done || lia). done.
  - cbn [print_elements]. rewrite (Hx Hpx) by (done || lia).
    cbn [cbind fst snd JSON.skip_ws].
    change (JSON.is_ws ",") with false. cbn iota.
    change (JSON.code "," =? 44) with true. cbn iota.
    rewrite (IH y fuel k Hall Hplain) by (simpl; lia). done.
Qed.

Lemma parse_members_print (ps : list (string * JSON.value)) :
  forall key x fuel k,
    Forall (fun kv => reads_back (snd kv)) ((key, x) :: ps) ->
    forallb (fun kv => plain_string (fst kv) && plain (snd kv)) ((key, x) :: ps) = true ->
    (list_sum (List.map (fun kv => S (size (snd kv))) ((key, x) :: ps)) <= fuel)%nat ->
    JSON.parse_members fuel
      (JSON.print_string key
         (String ":" (JSON.print x (print_members false ps (String "}" k)))))
    = Return ((key, x) :: ps, k).
Proof.
  induction ps as [|[key' y] ps IH]; intros key x fuel k Hall Hplain Hfuel;
    apply Forall_cons in Hall as [Hx Hall]; cbn [fst snd] in Hx;
    cbn [forallb fst snd] in Hplain;
    apply andb_true_iff in Hplain as [Hpx Hplain];
    apply andb_true_iff in Hpx as [Hkey Hpx];
    simpl in Hfuel;
    (destruct fuel as [|fuel]; [lia|]); cbn [JSON.parse_members];
    unfold JSON.print_string at 1; cbn [JSON.skip_ws];
    change (JSON.is_ws JSON.dquote) with false; cbn iota;
    change (JSON.code JSON.dquote =? 34) with true; cbn iota;
    rewrite parse_chars_print by done; cbn [cbind fst snd JSON.skip_ws];
    change (JSON.is_ws ":") with false; cbn iota;
    change (JSON.code ":" =? 58) with true; cbn iota.
  - cbn [print_members]. rewrite (Hx Hpx) by (done || lia). done.
  - rewrite print_members_plain.
    2:{ cbn [forallb fst snd] in Hplain. apply andb_true_iff in Hplain as [Hy _].
        by apply andb_true_iff in Hy as [_ Hy]. }
    cbn zeta. rewrite (Hx Hpx) by (done || lia).
    cbn [cbind fst snd JSON.skip_ws].
    change (JSON.is_ws ",") with false. cbn iota.
    change (JSON.code "," =? 44) with true. cbn iota.
    rewrite (IH key' y fuel k Hall Hplain) by (simpl; lia). done.
Qed.

(** Every plain value is read back from its text. *)
Lemma parse_value_print (v : JSON.value) : reads_back v.
Proof.
  induction v as [| |b|n|neg n tail|s|items IH|props IH] using value_parts_ind;
    intros Hplain fuel k Hfuel Hk; try done;
    (destruct fuel as [|fuel]; [simpl in Hfuel; lia|]).
  - done.
  - by destruct b.
  - destruct (print_number_head n k) as (ch & rest & Hprint & Hhead).
    cbn [JSON.print]. rewrite Hprint, parse_value_number by done.
    rewrite <- Hprint. by apply parse_number_print.
  - cbn [JSON.print JSON.parse_value]. unfold JSON.print_string.
    cbn [JSON.skip_ws]. change (JSON.is_ws JSON.dquote) with false. cbn iota.
    change (JSON.code JSON.dquote =? 91) with false.
    change (JSON.code JSON.dquote =? 123) with false.
    change (JSON.code JSON.dquote =? 34) with true. cbn iota.
    by rewrite parse_chars_print.
  - rewrite print_Array. cbn [JSON.parse_value JSON.skip_ws].
    change (JSON.is_ws "[") with false. cbn iota.
    change (JSON.code "[" =? 91) with true. cbn iota.
    destruct items as [|x xs]; [done|].
    cbn [print_elements].
    cbn [plain] in Hplain. pose proof Hplain as Hpx. cbn [forallb] in Hpx.
    apply andb_true_iff in Hpx as [Hpx _].
    destruct (print_head x (print_elements false xs (String "]" k)) Hpx)
      as (ch & rest & Hprint & Hstart).
    rewrite Hprint at 1. rewrite skip_ws_starts by done.
    destruct Hstart as (_ & H93 & _).
    destruct (Z.eqb_spec (JSON.code ch) 93); [done|].
    rewrite (parse_elements_print xs x fuel k IH Hplain); [done|].
    simpl in Hfuel |- *. lia.
  - rewrite print_Object. cbn [JSON.parse_value JSON.skip_ws].
    change (JSON.is_ws "{") with false. cbn iota.
    change (JSON.code "{" =? 91) with false.
    change (JSON.code "{" =? 123) with true. cbn iota.
    destruct props as [|[key x] ps]; [done|].
    cbn [plain] in Hplain. pose proof Hplain as Hpx. cbn [forallb fst snd] in Hpx.
    apply andb_true_iff in Hpx as [Hpx _]. apply andb_true_iff in Hpx as [_ Hpx].
    rewrite print_members_plain by done. cbn zeta.
    unfold JSON.print_string at 1. cbn [JSON.skip_ws].
    change (JSON.is_ws JSON.dquote) with false. cbn iota.
    change (JSON.code JSON.dquote =? 125) with false. cbn iota.
    change (String JSON.dquote
              (JSON.print_chars key
                 (String JSON.dquote
                    (String ":" (JSON.print x (print_members false ps (String "}" k)))))))
      with (JSON.print_string key
              (String ":" (JSON.print x (print_members false ps (String "}" k))))).
    rewrite (parse_members_print ps key x fuel k IH Hplain); [done|].
    simpl in Hfuel |- *. lia.
Qed.

(** *** The text is long enough to pay for its own parsing *)

Lemma print_digits_length (fuel : nat) (n : Z) (k : string) :
  (String.length k <= String.length (JSON.print_digits fuel n k))%nat.
Proof.
  revert n k. induction fuel as [|fuel IH]; intros n k; [done|].
  cbn [JSON.print_digits]. destruct (n <? 10).
  - simpl. lia.
  - etrans; [|apply IH]. simpl. lia.
Qed.

Lemma print_number_length (n : Z) (k : string) :
  (S (String.length k) <= String.length (JSON.print_number n k))%nat.
Proof.
  assert (forall m, S (String.length k) <= String.length (JSON.print_nat m k))%nat as Hnat.
  { intros m. unfold JSON.print_nat. cbn [JSON.print_digits]. destruct (m <? 10).
    - simpl. lia.
    - etrans; [|apply print_digits_length]. simpl. lia. }
  unfold JSON.print_number. destruct (n <? 0); [|apply Hnat].
  specialize (Hnat (- n)). simpl. lia.
Qed.

Lemma print_char_length (ch : ascii) (k : string) :
  (S (String.length k) <= String.length (JSON.print_char ch k))%nat.
Proof.
  unfold JSON.print_char.
  repeat match goal with
         | |- context [if ?c then _ else _] => destruct c
         end; simpl; lia.
Qed.

Lemma print_chars_length (s k : string) :
  (String.length k <= String.length (JSON.print_chars s k))%nat.
Proof.
  induction s as [|ch s IH]; [done|]. cbn [JSON.print_chars].
  pose proof (print_char_length ch (JSON.print_chars s k)). lia.
Qed.

Lemma print_string_length (s k : string) :
  (2 + String.length k <= String.length (JSON.print_string s k))%nat.
Proof.
  unfold JSON.print_string.
  pose proof (print_chars_length s (String JSON.dquote k)). simpl in *. lia.
Qed.

Lemma string_length_append (a b : string) :
  String.length (String.append a b) = (String.length a + String.length b)%nat.
Proof. induction a as [|ch a IH]; simpl; [done|]. by rewrite IH. Qed.

Lemma print_elements_length (xs : list JSON.value) (k : string) :
  Forall long_enough xs -> forallb plain xs = true ->
  (list_sum (List.map (fun y => S (size y)) xs) + String.length k
   <= String.length (print_elements false xs k))%nat.
Proof.
  induction xs as [|x xs IH]; intros Hall Hplain; [done|].
  apply Forall_cons in Hall as [Hx Hall].
  cbn [forallb] in Hplain. apply andb_true_iff in Hplain as [Hpx Hplain].
  cbn [print_elements]. specialize (IH Hall Hplain).
  specialize (Hx Hpx (print_elements false xs k)). simpl in *. lia.
Qed.

Lemma print_members_length (ps : list (string * JSON.value)) (k : string) :
  Forall (fun kv => long_enough (snd kv)) ps ->
  forallb (fun kv => plain_string (fst kv) && plain (snd kv)) ps = true ->
  (list_sum (List.map (fun kv => S (size (snd kv))) ps) + String.length k
   <= String.length (print_members false ps k))%nat.
Proof.
  induction ps as [|[key x] ps IH]; intros Hall Hplain; [done|].
  apply Forall_cons in Hall as [Hx Hall]. cbn [fst snd] in Hx.
  cbn [forallb fst snd] in Hplain. apply andb_true_iff in Hplain as [Hpx Hplain].
  apply andb_true_iff in Hpx as [_ Hpx].
  rewrite print_members_plain by done. cbn zeta. specialize (IH Hall Hplain).
  specialize (Hx Hpx (print_members false ps k)).
  pose proof (print_string_length key
                (String ":" (JSON.print x (print_members false ps k)))).
  simpl in *. lia.
Qed.

Lemma print_length (v : JSON.value) : long_enough v.
Proof.
  induction v as [| |b|n|neg n tail|s|items IH|props IH] using value_parts_ind;
    intros Hplain k; try done.
  - simpl. lia.
  - destruct b; simpl; lia.
  - pose proof (print_number_length n k). simpl in *. lia.
  - pose proof (print_string_length s k). simpl in *. lia.
  - rewrite print_Array. cbn [plain] in Hplain.
    destruct items as [|x xs]; [simpl; lia|].
    apply Forall_cons in IH as [Hx IH].
    cbn [forallb] in Hplain. apply andb_true_iff in Hplain as [Hpx Hplain].
    cbn [print_elements].
    specialize (Hx Hpx (print_elements false xs (String "]" k))).
    pose proof (print_elements_length xs (String "]" k) IH Hplain).
    simpl in *. lia.
  - rewrite print_Object. cbn [plain] in Hplain.
    destruct props as [|[key x] ps]; [simpl; lia|].
    apply Forall_cons in IH as [Hx IH]. cbn [fst snd] in Hx.
    cbn [forallb fst snd] in Hplain. apply andb_true_iff in Hplain as [Hpx Hplain].
    apply andb_true_iff in Hpx as [_ Hpx].
    rewrite print_members_plain by done. cbn zeta.
    specialize (Hx Hpx (print_members false ps (String "}" k))).
    pose proof (print_members_length ps (String "}" k) IH Hplain).
    pose proof (print_string_length key
                  (String ":" (JSON.print x (print_members false ps (String "}" k))))).
    simpl in *. lia.
Qed.

(** [JSON.parse(JSON.stringify(v))] is [v] for every plain value. *)
Lemma parse_stringify (v : JSON.value) :
  plain v = true -> JSON.parse (JSON.stringify v) = Return v.
Proof.
  intros Hplain. unfold JSON.parse, JSON.stringify.
  rewrite (parse_value_print v Hplain); [done| |done].
  pose proof (print_length v Hplain EmptyString). simpl in *. lia.
Qed.

End Values.

(** *** JSON.parse always answers *)

Section ParseTotal.

Local Open Scope js_scope.

Lemma skip_ws_length (s : string) :
  (String.length (JSON.skip_ws s) <= String.length s)%nat.
Proof.
  induction s as [|ch s IH]; [done|]. cbn [JSON.skip_ws].
  destruct (JSON.is_ws ch); simpl in *; lia.
Qed.

Lemma skip_ws_cons_length (s rest : string) (ch : ascii) :
  JSON.skip_ws s = String ch rest -> (String.length rest < String.length s)%nat.
Proof.
  intros Hs. pose proof (skip_ws_length s) as Hlen. rewrite Hs in Hlen. simpl in Hlen. lia.
Qed.


















End ParseTotal.

(** ** Saving and loading a session *)

Section SaveLoad.

Variable renders : GameController.Fields -> bool.

Lemma plain_value_of_player (p : Player) : plain (GameController.value_of_player p) = true.
Proof. by destruct p. Qed.

Lemma plain_value_of_board (b : Board) :
  no_holes b -> plain (GameController.value_of_board b) = true.
Proof.
  intros Hb. cbn [GameController.value_of_board plain].
  induction Hb as [|line b Hline _ IH]; [done|].
  cbn [List.map forallb]. rewrite IH, andb_true_r. cbn [plain].
  induction Hline as [|x line Hx _ IHline]; [done|].
  cbn [List.map forallb]. rewrite IHline, andb_true_r.
  destruct x as [| |p]; [done|done|apply plain_value_of_player].
Qed.

Lemma plain_value_of_history (h : list Move) :
  plain (GameController.value_of_history h) = true.
Proof.
  cbn [GameController.value_of_history plain].
  induction h as [|m h IH]; [done|].
  cbn [List.map forallb]. rewrite IH, andb_true_r.
  unfold GameController.value_of_move. cbn [plain forallb fst snd].
  by rewrite plain_value_of_player.
Qed.

(** What [loadGame] does with text that parses to an object: no field is
    required; each of the five is overwritten with the object's property,
    [undefined] when it has none. *)
Lemma loadGame_object (text : string) (props : list (string * JSON.value))
    (prior : GameController.Fields) :
  JSON.parse text = Return (JSON.Object props) ->
  let loaded :=
    GameController.mkFields
      (JSON.lookup_prop "board" props) (JSON.lookup_prop "moveHistory" props)
      (JSON.lookup_prop "currentPlayer" props) (JSON.lookup_prop "gameStatus" props)
      (JSON.lookup_prop "winner" props) in
  GameController.loadGame renders text prior = (Return (renders loaded), loaded).
Proof.
  intros Hparse. unfold GameController.loadGame, GameController.loadGame_try, bind, lift, this.
  rewrite Hparse. cbn. by destruct (renders _).
Qed.



Lemma saveGame_loadGame (s : GameBoard.Session) (now : Z) (prior : GameController.Fields) :
  no_holes (GameBoard.board s) ->
  GameController.loadGame renders (GameController.saveGame s now) prior
  = (Return (renders (GameController.fields_of s)), GameController.fields_of s).
Proof.
  intros Hb. unfold GameController.saveGame. cbn zeta.
  unfold GameBoard.getBoardCopy, GameBoard.getMoveHistory, GameBoard.getCurrentPlayer,
    GameBoard.getGameStatus, GameBoard.getWinner.
  rewrite map_id.
  match goal with
  | |- context [JSON.stringify (JSON.Object ?ps)] => rewrite (loadGame_object _ ps prior)
  end.
  - reflexivity.
  - apply parse_stringify. cbn [plain forallb fst snd].
    rewrite plain_value_of_board, plain_value_of_history, plain_value_of_player by done.
    by destruct (GameBoard.gameStatus s), (GameBoard.winner s) as [[]|].
Qed.

End SaveLoad.

Section FieldsInjective.

Lemma value_of_player_inj (p q : Player) :
  GameController.value_of_player p = GameController.value_of_player q -> p = q.
Proof. by destruct p, q. Qed.

Lemma value_of_cell_inj (x y : Cell) :
  GameController.value_of_cell x = GameController.value_of_cell y -> x = y.
Proof. by destruct x as [| |[]], y as [| |[]]. Qed.

Lemma map_injective {A B} (f : A -> B) (l1 l2 : list A) :
  (forall x y, f x = f y -> x = y) -> List.map f l1 = List.map f l2 -> l1 = l2.
Proof.
  intros Hf. revert l2. induction l1 as [|x l1 IH]; intros [|y l2] Heq; try done.
  injection Heq as Hxy Hrest. f_equal; [by apply Hf|by apply IH].
Qed.

Lemma value_of_move_inj (m1 m2 : Move) :
  GameController.value_of_move m1 = GameController.value_of_move m2 -> m1 = m2.
Proof.
  destruct m1, m2. unfold GameController.value_of_move. simpl.
  intros [= -> -> Hp -> ->]. apply value_of_player_inj in Hp. by subst.
Qed.

(** Different sessions have different fields. *)
Lemma fields_of_inj (s1 s2 : GameBoard.Session) :
  GameController.fields_of s1 = GameController.fields_of s2 -> s1 = s2.
Proof.
  destruct s1 as [b1 h1 p1 g1 w1], s2 as [b2 h2 p2 g2 w2].
  unfold GameController.fields_of. simpl. intros [= Hb Hh Hp Hg Hw].
  f_equal.
  - eapply map_injective; [|exact Hb].
    intros l1 l2 [= Hl]. eapply map_injective; [|exact Hl]. apply value_of_cell_inj.
  - eapply map_injective; [|exact Hh]. apply value_of_move_inj.
  - by apply value_of_player_inj.
  - by destruct g1, g2.
  - destruct w1 as [q1|], w2 as [q2|]; try done.
    + f_equal. by apply value_of_player_inj.
    + by destruct q1.
    + by destruct q2.
Qed.

End FieldsInjective.

(** C7.  For every session state of the data model (no hole in the board),
    loading the text that [saveGame] produced for it leaves, whatever the
    fields held before, exactly the board, the move history, the current
    player, the game status and the winner of that session; no other session
    has these five fields. *)
Theorem save_load_roundtrip (renders : GameController.Fields -> bool)
    (s : GameBoard.Session) (now : Z) (prior : GameController.Fields) :
  no_holes (GameBoard.board s) ->
  snd (GameController.loadGame renders (GameController.saveGame s now) prior)
  = GameController.fields_of s
  /\ (forall s',
        snd (GameController.loadGame renders (GameController.saveGame s now) prior)
        = GameController.fields_of s' -> s' = s).
Proof.
  intros Hb. rewrite (saveGame_loadGame renders s now prior Hb). simpl.
  split; [done|]. intros s' Heq. symmetry. by apply fields_of_inj.
Qed.

Lemma save_load_roundtrip_witness :
  let s := snd (GameBoard.makeMove 7 8 1001 (snd (GameBoard.makeMove 7 7 1000 GameBoard.initial))) in
  snd (GameController.loadGame (fun _ => true) (GameController.saveGame s 5000)
         (GameController.fields_of GameBoard.initial))
  = GameController.fields_of s.
Proof.
  apply (save_load_roundtrip (fun _ => true)
           (snd (GameBoard.makeMove 7 8 1001 (snd (GameBoard.makeMove 7 7 1000 GameBoard.initial))))
           5000 (GameController.fields_of GameBoard.initial)).
  vm_compute. repeat (constructor; try discriminate).
Defined.


(** A saved game without its [winner] field is accepted when the renderer
    can draw it: [loadGame] returns [true] and the winner is [undefined]. *)
Example loadGame_without_winner :
  let text :=
    JSON.stringify
      (JSON.Object
         [ ("board"%string, GameController.value_of_board GameBoard._createEmptyBoard);
           ("moveHistory"%string, JSON.Array []);
           ("currentPlayer"%string, JSON.Str "black");
           ("gameStatus"%string, JSON.Str "playing") ]) in
  let result :=
    GameController.loadGame (fun _ => true) text (GameController.fields_of GameBoard.initial) in
  fst result = Return true /\ GameController.winner (snd result) = JSON.Undefined.
Proof. vm_compute. done. Qed.



(** ** The list of valid moves *)

Section Increasing.

Context {A : Type} (key : A -> Z).

Lemma increasing_nil : increasing key [].
Proof. intros i j a b Hi. done. Qed.

Lemma increasing_cons (x : A) (l : list A) :
  increasing key (x :: l) <-> Forall (fun b => key x < key b) l /\ increasing key l.
Proof.
  split.
  - intros Hinc. split.
    + apply Forall_lookup. intros j b Hb. by apply (Hinc 0%nat (S j) x b); [| |lia].
    + intros i j a b Ha Hb Hij. by apply (Hinc (S i) (S j) a b); [| |lia].
  - intros [Hx Hinc] [|i] [|j] a b Ha Hb Hij; simpl in *; try lia.
    + injection Ha as <-. rewrite Forall_lookup in Hx. by apply (Hx j).
    + apply (Hinc i j a b Ha Hb). lia.
Qed.

Lemma increasing_app (l1 l2 : list A) :
  increasing key l1 -> increasing key l2 ->
  (forall a b, a ∈ l1 -> b ∈ l2 -> key a < key b) ->
  increasing key (l1 ++ l2).
Proof.
  induction l1 as [|x l1 IH]; intros H1 H2 Hcross; [done|].
  apply increasing_cons in H1 as [Hx H1]. simpl. apply increasing_cons. split.
  - apply Forall_app. split; [done|]. apply Forall_forall. intros b Hb.
    apply Hcross; [constructor|done].
  - apply IH; [done..|]. intros a b Ha Hb. apply Hcross; [by constructor|done].
Qed.

Lemma increasing_filter (P : A -> Prop) `{!forall x, Decision (P x)} (l : list A) :
  increasing key l -> increasing key (filter P l).
Proof.
  induction l as [|x l IH]; intros Hinc; [done|].
  apply increasing_cons in Hinc as [Hx Hinc]. rewrite filter_cons.
  destruct (decide (P x)); [|by apply IH].
  apply increasing_cons. split; [|by apply IH].
  apply Forall_forall. intros b Hb. apply list_elem_of_filter in Hb as [_ Hb].
  rewrite Forall_forall in Hx. by apply Hx.
Qed.

Lemma increasing_NoDup (l : list A) : increasing key l -> NoDup l.
Proof.
  induction l as [|x l IH]; intros Hinc; [constructor|].
  apply increasing_cons in Hinc as [Hx Hinc]. constructor; [|by apply IH].
  intros Hin. rewrite Forall_forall in Hx. specialize (Hx x Hin). lia.
Qed.

End Increasing.

Section ValidMoves.

Variable b : Board.
Hypothesis Hwf : wf_board b.

Lemma push_valid_in_row_correct (r : Z) (cols : list Z) (validMoves : list (Z * Z)) :
  0 <= r < 15 -> Forall (fun c => 0 <= c < 15) cols ->
  GameLogic.push_valid_in_row b r cols validMoves
  = Return (validMoves ++ empty_in_row b r cols).
Proof.
  intros Hr Hcols. revert validMoves.
  induction Hcols as [|c cols Hc _ IH]; intros validMoves.
  - simpl. by rewrite app_nil_r.
  - cbn [GameLogic.push_valid_in_row].
    destruct (cell_at_wf b r c Hwf (conj Hr Hc)) as [x Hx].
    rewrite (isValidMove_on_board b r c x (conj Hr Hc) Hx). cbn [cbind].
    rewrite IH. unfold empty_in_row. rewrite filter_cons.
    destruct (decide (is_null_at b r c)) as [Hnull|Hnull]; unfold is_null_at in Hnull.
    + rewrite Hx in Hnull. injection Hnull as ->. simpl. by rewrite <- app_assoc.
    + destruct (Cell_eqb x null) eqn:Heq; [|done].
      apply Cell_eqb_eq in Heq. by subst x.
Qed.

Lemma push_valid_correct (rows cols : list Z) (validMoves : list (Z * Z)) :
  Forall (fun r => 0 <= r < 15) rows -> Forall (fun c => 0 <= c < 15) cols ->
  GameLogic.push_valid b rows cols validMoves
  = Return (validMoves ++ empty_cells b rows cols).
Proof.
  intros Hrows Hcols. revert validMoves.
  induction Hrows as [|r rows Hr _ IH]; intros validMoves.
  - simpl. by rewrite app_nil_r.
  - cbn [GameLogic.push_valid]. rewrite push_valid_in_row_correct by done.
    cbn [cbind]. rewrite IH. unfold empty_cells. by rewrite bind_cons, <- app_assoc.
Qed.

Lemma indices_in_range : Forall (fun i => 0 <= i < 15) GameLogic.indices.
Proof. apply Forall_forall. intros i. by rewrite elem_of_indices. Qed.

(** [getValidMoves] returns the empty cells in reading order. *)
Lemma getValidMoves_correct :
  GameLogic.getValidMoves b
  = Return (empty_cells b GameLogic.indices GameLogic.indices).
Proof.
  unfold GameLogic.getValidMoves.
  by rewrite push_valid_correct by apply indices_in_range.
Qed.

Lemma elem_of_empty_cells (r c : Z) :
  (r, c) ∈ empty_cells b GameLogic.indices GameLogic.indices
  <-> on_board r c /\ cell_at b r c = Some null.
Proof.
  unfold empty_cells, empty_in_row. rewrite list_elem_of_bind. split.
  - intros (r' & Hin & Hr'). apply list_elem_of_fmap in Hin as (c' & [= -> ->] & Hc').
    apply list_elem_of_filter in Hc' as [Hnull Hc'].
    apply elem_of_indices in Hr', Hc'. done.
  - intros ([Hr Hc] & Hnull). exists r. split; [|by apply elem_of_indices].
    apply list_elem_of_fmap. exists c. split; [done|].
    apply list_elem_of_filter. split; [done|by apply elem_of_indices].
Qed.

Lemma indices_increasing : increasing (fun i : Z => i) GameLogic.indices.
Proof.
  assert (forall n start, increasing (fun i : Z => i) (List.map Z.of_nat (seq start n))) as Hseq.
  { induction n as [|n IH]; intros start; [apply increasing_nil|].
    simpl. apply increasing_cons. split; [|apply IH].
    apply Forall_forall. intros i Hi. apply list_elem_of_In, in_map_iff in Hi as (k & <- & Hk).
    apply in_seq in Hk. lia. }
  apply Hseq.
Qed.

Lemma empty_in_row_increasing (r : Z) (cols : list Z) :
  increasing (fun i : Z => i) cols -> increasing row_major (empty_in_row b r cols).
Proof.
  intros Hcols. unfold empty_in_row.
  pose proof (increasing_filter _ (is_null_at b r) cols Hcols) as Hfil.
  intros i j a a' Ha Ha' Hij.
  rewrite list_lookup_fmap in Ha, Ha'.
  destruct (filter (is_null_at b r) cols !! i) as [c|] eqn:Hc; [|done].
  destruct (filter (is_null_at b r) cols !! j) as [c'|] eqn:Hc'; [|done].
  injection Ha as <-. injection Ha' as <-. unfold row_major. simpl.
  specialize (Hfil i j c c' Hc Hc' Hij). simpl in Hfil. lia.
Qed.

Lemma empty_cells_increasing (rows cols : list Z) :
  increasing (fun i : Z => i) rows -> increasing (fun i : Z => i) cols ->
  Forall (fun c => 0 <= c < 15) cols ->
  increasing row_major (empty_cells b rows cols).
Proof.
  intros Hrows Hcols Hrange. unfold empty_cells.
  induction rows as [|r rows IH]; [apply increasing_nil|].
  apply increasing_cons in Hrows as [Hr Hrows]. rewrite bind_cons.
  apply increasing_app; [by apply empty_in_row_increasing|by apply IH|].
  intros a a' Ha Ha'. unfold empty_in_row in Ha.
  apply list_elem_of_fmap in Ha as (c & -> & Hc).
  apply list_elem_of_filter in Hc as [_ Hc].
  apply list_elem_of_bind in Ha' as (r' & Ha' & Hr').
  apply list_elem_of_fmap in Ha' as (c' & -> & Hc').
  apply list_elem_of_filter in Hc' as [_ Hc'].
  rewrite Forall_forall in Hr, Hrange. specialize (Hr r' Hr').
  pose proof (Hrange c Hc). pose proof (Hrange c' Hc').
  unfold row_major. simpl in *. lia.
Qed.

End ValidMoves.

Section CountingEmpty.

(** A sum over the indices of a list is a sum over its elements. *)
Lemma sum_over_indices {A} (f : A -> nat) (g : Z -> nat) (full : list A) :
  (forall i x, full !! i = Some x -> g (Z.of_nat i) = f x) ->
  sum_list_with g (List.map Z.of_nat (seq 0 (length full))) = sum_list_with f full.
Proof.
  intros Hgf.
  assert (forall l start, drop start full = l ->
            sum_list_with g (List.map Z.of_nat (seq start (length l))) = sum_list_with f l)
    as Hdrop.
  { induction l as [|x l IH]; intros start Hl; [done|].
    assert (full !! start = Some x) as Hx.
    { rewrite <- (Nat.add_0_r start), <- lookup_drop, Hl. done. }
    simpl. f_equal; [by apply Hgf|].
    apply IH. rewrite (drop_S full x start Hx) in Hl. by injection Hl. }
  apply (Hdrop full 0%nat). apply drop_0.
Qed.

Lemma length_bind_sum {A B} (f : A -> list B) (l : list A) :
  length (l ≫= f) = sum_list_with (fun x => length (f x)) l.
Proof.
  induction l as [|x l IH]; [done|]. rewrite bind_cons, length_app, IH. done.
Qed.

Lemma length_filter_sum {A} (P : A -> Prop) `{!forall x, Decision (P x)} (l : list A) :
  length (filter P l) = sum_list_with (fun x => if decide (P x) then 1%nat else 0%nat) l.
Proof.
  induction l as [|x l IH]; [done|]. rewrite filter_cons. simpl.
  destruct (decide (P x)); simpl; by rewrite IH.
Qed.

Lemma sum_occupied_and_null (line : list Cell) :
  (sum_list_with (fun x => if decide (x = null) then 1 else 0) line
   + sum_list_with occupied line = length line)%nat.
Proof.
  induction line as [|x line IH]; [done|]. simpl.
  destruct (decide (x = null)) as [->|Hx]; unfold occupied at 1; simpl; [lia|].
  destruct x; simpl; [lia|done|lia].
Qed.

(** In a row of fifteen slots, the empty cells and the other cells add up
    to fifteen. *)
Lemma empty_in_row_length (b : Board) (r : nat) (line : list Cell) :
  b !! r = Some line -> length line = 15%nat ->
  (length (empty_in_row b (Z.of_nat r) GameLogic.indices)
   + sum_list_with occupied line = 15)%nat.
Proof.
  intros Hline Hlen. unfold empty_in_row. rewrite length_fmap, length_filter_sum.
  unfold GameLogic.indices, GameLogic.BOARD_SIZE.
  change (Z.to_nat 15) with 15%nat. rewrite <- Hlen.
  rewrite (sum_over_indices (fun x => if decide (x = null) then 1%nat else 0%nat)).
  - apply sum_occupied_and_null.
  - intros i x Hx.
    assert (is_null_at b (Z.of_nat r) (Z.of_nat i) <-> x = null) as Hiff.
    { unfold is_null_at, cell_at.
      destruct (Z.leb_spec 0 (Z.of_nat r)); [|lia].
      destruct (Z.leb_spec 0 (Z.of_nat i)); [|lia]. simpl.
      rewrite !Nat2Z.id, Hline, Hx. split; congruence. }
    destruct (decide (is_null_at b (Z.of_nat r) (Z.of_nat i))),
      (decide (x = null)); tauto.
Qed.

Lemma empty_cells_length (b : Board) :
  wf_board b ->
  (length (empty_cells b GameLogic.indices GameLogic.indices) + count_nonempty b = 225)%nat.
Proof.
  intros [Hrows Hlines]. unfold empty_cells. rewrite length_bind_sum.
  unfold GameLogic.indices at 2, GameLogic.BOARD_SIZE.
  change (Z.to_nat 15) with 15%nat. rewrite <- Hrows.
  rewrite (sum_over_indices (fun line => 15 - sum_list_with occupied line)%nat).
  - unfold count_nonempty.
    assert (sum_list_with (fun line => 15 - sum_list_with occupied line) b
            + sum_list_with (sum_list_with occupied) b = 15 * length b)%nat as Hsum.
    { clear Hrows. induction Hlines as [|line b' Hline _ IH]; simpl in *; [lia|].
      pose proof (sum_occupied_and_null line). lia. }
    lia.
  - intros i line Hline. rewrite Forall_lookup in Hlines.
    pose proof (empty_in_row_length b i line Hline (Hlines i line Hline)). lia.
Qed.

End CountingEmpty.

(** ** More on the rules engine *)

(** X1.  On a 15x15 board [getValidMoves] returns normally; a pair is in
    the result exactly when it is an empty cell of the board, and the result
    is in reading order (row by row, left to right), so no cell is listed
    twice. *)
Theorem getValidMoves_exact (b : Board) :
  wf_board b ->
  exists l,
    GameLogic.getValidMoves b = Return l
    /\ (forall r c, (r, c) ∈ l <-> on_board r c /\ cell_at b r c = Some null)
    /\ increasing row_major l
    /\ NoDup l.
Proof.
  intros Hwf. exists (empty_cells b GameLogic.indices GameLogic.indices).
  assert (increasing row_major (empty_cells b GameLogic.indices GameLogic.indices)) as Hinc.
  { apply empty_cells_increasing; [apply indices_increasing..|apply indices_in_range]. }
  split; [by apply getValidMoves_correct|]. split; [apply elem_of_empty_cells|].
  split; [done|]. by apply (increasing_NoDup row_major).
Qed.

Lemma getValidMoves_exact_witness :
  exists l,
    GameLogic.getValidMoves (board_with [ (0, 0, black); (0, 2, white) ]) = Return l
    /\ (forall r c, (r, c) ∈ l
          <-> on_board r c
              /\ cell_at (board_with [ (0, 0, black); (0, 2, white) ]) r c = Some null)
    /\ increasing row_major l
    /\ NoDup l.
Proof.
  apply (getValidMoves_exact (board_with [ (0, 0, black); (0, 2, white) ])).
  split; [reflexivity|]. vm_compute. repeat constructor.
Defined.

(** X2.  On a 15x15 board the valid moves and the non-empty cells together
    are the 225 cells: the number of valid moves is 225 minus the number of
    non-empty cells. *)
Theorem getValidMoves_count (b : Board) :
  wf_board b ->
  exists l,
    GameLogic.getValidMoves b = Return l
    /\ (length l + count_nonempty b = 225)%nat.
Proof.
  intros Hwf. exists (empty_cells b GameLogic.indices GameLogic.indices).
  split; [by apply getValidMoves_correct|by apply empty_cells_length].
Qed.

Lemma getValidMoves_count_witness :
  exists l,
    GameLogic.getValidMoves (board_with [ (0, 0, black); (0, 2, white) ]) = Return l
    /\ Nat.add (length l) (count_nonempty (board_with [ (0, 0, black); (0, 2, white) ]))
       = 225%nat.
Proof.
  apply (getValidMoves_count (board_with [ (0, 0, black); (0, 2, white) ])).
  split; [reflexivity|]. vm_compute. repeat constructor.
Defined.

(** X3.  On a 15x15 board [checkDraw] returns normally, and returns [true]
    exactly when no cell of the board is [null]; one empty cell anywhere
    makes it [false], whatever the other cells hold. *)
Theorem checkDraw_iff_full (b : Board) :
  wf_board b ->
  exists v,
    GameLogic.checkDraw b = Return v
    /\ (v = true <-> forall r c, on_board r c -> cell_at b r c <> Some null)
    /\ (forall r c, on_board r c -> cell_at b r c = Some null -> v = false).
Proof.
  intros Hwf. destruct (checkDraw_correct b Hwf) as (v & Hv & Hiff).
  exists v. split; [done|]. split; [done|].
  intros r c Hrc Hnull. destruct v; [|done].
  destruct Hiff as [Hfull _]. by destruct (Hfull eq_refl r c Hrc).
Qed.

Lemma checkDraw_iff_full_witness :
  exists v,
    GameLogic.checkDraw GameBoard._createEmptyBoard = Return v
    /\ (v = true <-> forall r c, on_board r c ->
                       cell_at GameBoard._createEmptyBoard r c <> Some null)
    /\ (forall r c, on_board r c ->
          cell_at GameBoard._createEmptyBoard r c = Some null -> v = false).
Proof.
  apply (checkDraw_iff_full GameBoard._createEmptyBoard).
  split; [reflexivity|]. vm_compute. repeat constructor.
Defined.

(** X4.  On a 15x15 board [checkDraw] says draw exactly when
    [getValidMoves] has nothing to offer. *)
Theorem checkDraw_iff_no_valid_move (b : Board) :
  wf_board b ->
  (GameLogic.checkDraw b = Return true <-> GameLogic.getValidMoves b = Return []).
Proof.
  intros Hwf. destruct (checkDraw_correct b Hwf) as (v & Hv & Hiff).
  rewrite Hv, (getValidMoves_correct b Hwf).
  pose proof (elem_of_empty_cells b) as Hmem.
  revert Hmem. generalize (empty_cells b GameLogic.indices GameLogic.indices).
  intros l Hmem. split.
  - intros [= ->]. f_equal. destruct Hiff as [Hfull _]. specialize (Hfull eq_refl).
    destruct l as [|[r c] l]; [done|].
    destruct (Hmem r c) as [Hin _].
    destruct Hin as [Hrc Hnull]; [constructor|]. by destruct (Hfull r c Hrc).
  - intros [= ->]. f_equal. apply Hiff. intros r c Hrc Hnull.
    assert ((r, c) ∈ @nil (Z * Z)) as Hin by (by apply Hmem).
    by apply elem_of_nil in Hin.
Qed.

Lemma checkDraw_iff_no_valid_move_witness :
  GameLogic.checkDraw GameBoard._createEmptyBoard = Return true
  <-> GameLogic.getValidMoves GameBoard._createEmptyBoard = Return [].
Proof.
  apply (checkDraw_iff_no_valid_move GameBoard._createEmptyBoard).
  split; [reflexivity|]. vm_compute. repeat constructor.
Defined.

Section OwnCell.

Variable b : Board.
Variable p : Player.
Variables r c : Z.
Variable line : list Cell.
Variable x : Cell.
Hypothesis Hr : 0 <= r.
Hypothesis Hc : 0 <= c.
Hypothesis Hline : b !! Z.to_nat r = Some line.

Let b' : Board := <[Z.to_nat r := <[Z.to_nat c := x]> line]> b.

Lemma holds_elsewhere (r' c' : Z) :
  (r', c') <> (r, c) -> holds b' p r' c' <-> holds b p r' c'.
Proof.
  intros Hne. unfold holds, b'. by rewrite cell_at_insert_ne.
Qed.

(** A ray that moves never looks at the cell it starts from. *)
Lemma ray_elsewhere (dx dy n : Z) :
  dx <> 0 \/ dy <> 0 -> ray b' p r c dx dy n <-> ray b p r c dx dy n.
Proof.
  intros Hdir.
  assert (forall k, 1 <= k -> (r + k * dx, c + k * dy) <> (r, c)) as Hoff.
  { intros k Hk [= H1 H2]. nia. }
  unfold ray. split; intros (Hn & Hrun & Hend); (split; [done|]); split.
  - intros k Hk. apply holds_elsewhere; [apply Hoff; lia|by apply Hrun].
  - intros Hh. apply Hend. apply holds_elsewhere; [apply Hoff; lia|done].
  - intros k Hk. apply holds_elsewhere; [apply Hoff; lia|by apply Hrun].
  - intros Hh. apply Hend. apply holds_elsewhere in Hh; [done|apply Hoff; lia].
Qed.

Lemma five_in_a_row_elsewhere : five_in_a_row b' p r c <-> five_in_a_row b p r c.
Proof.
  assert (forall axis, axis ∈ axes -> fst axis <> 0 \/ snd axis <> 0) as Hmoves.
  { intros axis Hin. unfold axes in Hin.
    repeat (apply elem_of_cons in Hin as [->|Hin]); simpl; try lia.
    by apply elem_of_nil in Hin. }
  unfold five_in_a_row, axis_count.
  split; intros (axis & total & Hin & (n1 & n2 & H1 & H2 & Htotal) & Hge);
    exists axis, total; (split; [done|]); (split; [|done]); exists n1, n2;
    pose proof (Hmoves axis Hin);
    (split; [by apply ray_elsewhere|]); (split; [|done]);
    apply ray_elsewhere; (lia || done).
Qed.

End OwnCell.

(** X5.  [checkWinner] never reads the cell it is asked about: on a 15x15
    board, overwriting the cell [(r, c)] with anything leaves the answer for
    [(r, c)] unchanged.  So the answer before a stone is placed is the
    answer after it is placed. *)
Theorem checkWinner_ignores_own_cell (b : Board) (r c : Z) (p : Player) (x : Cell) :
  wf_board b -> on_board r c ->
  exists b',
    board_set b r c x = Return b'
    /\ cell_at b' r c = Some x
    /\ GameLogic.checkWinner b' r c p = GameLogic.checkWinner b r c p.
Proof.
  intros Hwf Hrc. destruct (board_set_wf b r c x Hwf Hrc) as (line & Hline & Hset).
  eexists. split; [exact Hset|]. split; [by apply cell_at_insert_eq|].
  pose proof (wf_board_insert b _ (Z.to_nat c) line x Hwf Hline) as Hwf'.
  destruct (checkWinner_correct _ p Hwf' r c) as (v' & -> & Hv').
  destruct (checkWinner_correct b p Hwf r c) as (v & -> & Hv).
  f_equal. destruct Hrc as [Hr Hc].
  rewrite (five_in_a_row_elsewhere b p r c line x) in Hv' by (lia || done).
  destruct v, v'; try done.
  - apply Hv'. by apply Hv.
  - symmetry. apply Hv. by apply Hv'.
Qed.

Lemma checkWinner_ignores_own_cell_witness :
  let b := board_with [ (7, 5, black); (7, 6, black); (7, 7, black); (7, 8, black) ] in
  exists b',
    board_set b 7 9 (piece black) = Return b'
    /\ cell_at b' 7 9 = Some (piece black)
    /\ GameLogic.checkWinner b' 7 9 black = GameLogic.checkWinner b 7 9 black.
Proof.
  apply (checkWinner_ignores_own_cell
           (board_with [ (7, 5, black); (7, 6, black); (7, 7, black); (7, 8, black) ])
           7 9 black (piece black)).
  - split; [reflexivity|]. vm_compute. repeat constructor.
  - unfold on_board. lia.
Defined.

(** X6.  [evaluatePosition] is a placeholder that reads neither the board
    nor the player: its score is 43 minus twice the city-block distance to
    the centre (7,7).  On the board it lies between 15 and 43, and 43 is
    reached at the centre only. *)
Theorem evaluatePosition_centre (b : Board) (r c : Z) (p : Player) :
  (forall b' p', GameLogic.evaluatePosition b' r c p' = GameLogic.evaluatePosition b r c p)
  /\ GameLogic.evaluatePosition b r c p = 43 - 2 * (Z.abs (r - 7) + Z.abs (c - 7))
  /\ (on_board r c -> 15 <= GameLogic.evaluatePosition b r c p <= 43)
  /\ (GameLogic.evaluatePosition b r c p = 43 <-> r = 7 /\ c = 7).
Proof.
  assert (forall b' p', GameLogic.evaluatePosition b' r c p'
                        = 43 - 2 * (Z.abs (r - 7) + Z.abs (c - 7))) as Hscore.
  { intros b' p'. unfold GameLogic.evaluatePosition, GameLogic._countConsecutive. lia. }
  split; [intros b' p'; by rewrite !Hscore|]. rewrite Hscore.
  split; [done|]. unfold on_board. split; lia.
Qed.

Lemma evaluatePosition_centre_witness :
  15 <= GameLogic.evaluatePosition GameBoard._createEmptyBoard 0 14 white <= 43.
Proof.
  apply (evaluatePosition_centre GameBoard._createEmptyBoard 0 14 white).
  unfold on_board. lia.
Defined.

(** ** What playing keeps true *)

Section Replay.

Lemma mover_S (i : nat) : mover (S i) = other (mover i).
Proof.
  unfold mover. rewrite Nat.even_succ, <- Nat.negb_even. by destruct (Nat.even i).
Qed.

Lemma replay_snoc (h : list Move) (m : Move) :
  replay (h ++ [m]) = put (replay h) (row m, col m, player m).
Proof. unfold replay. by rewrite foldl_app. Qed.

Lemma put_on_board (b : Board) (r c : Z) (p : Player) (line : list Cell) :
  wf_board b -> on_board r c -> b !! Z.to_nat r = Some line ->
  put b (r, c, p) = <[Z.to_nat r := <[Z.to_nat c := piece p]> line]> b.
Proof.
  intros Hwf Hrc Hline. unfold put.
  destruct (board_set_wf b r c (piece p) Hwf Hrc) as (line' & Hline' & ->).
  rewrite Hline in Hline'. by injection Hline' as <-.
Qed.

Lemma cell_at_empty (r c : Z) :
  on_board r c -> cell_at GameBoard._createEmptyBoard r c = Some null.
Proof.
  intros [Hr Hc]. unfold cell_at, GameBoard._createEmptyBoard, GameBoard.boardSize.
  destruct (Z.leb_spec 0 r); [|lia]. destruct (Z.leb_spec 0 c); [|lia]. cbn [andb].
  rewrite lookup_replicate_2 by lia. apply lookup_replicate_2. lia.
Qed.

Lemma replay_wf (h : list Move) :
  Forall (fun m => on_board (row m) (col m)) h -> wf_board (replay h).
Proof.
  induction h as [|m h IH] using rev_ind; intros Hall; [apply wf_board_empty|].
  apply Forall_app in Hall as [Hall Hm]. rewrite Forall_singleton in Hm.
  specialize (IH Hall). rewrite replay_snoc.
  destruct (board_set_wf (replay h) (row m) (col m) (piece (player m)) IH Hm)
    as (line & Hline & _).
  rewrite (put_on_board _ _ _ _ line) by done. by apply wf_board_insert.
Qed.

(** A cell that no move of [h] touched is still empty. *)
Lemma cell_at_replay_fresh (h : list Move) (r c : Z) :
  Forall (fun m => on_board (row m) (col m)) h ->
  (r, c) ∉ List.map coords h -> on_board r c ->
  cell_at (replay h) r c = Some null.
Proof.
  induction h as [|m h IH] using rev_ind; intros Hall Hfresh Hrc;
    [by apply cell_at_empty|].
  apply Forall_app in Hall as [Hall Hm]. rewrite Forall_singleton in Hm.
  rewrite map_app in Hfresh. apply not_elem_of_app in Hfresh as [Hfresh Hne].
  rewrite replay_snoc.
  pose proof (replay_wf h Hall) as Hwf.
  destruct (board_set_wf (replay h) (row m) (col m) (piece (player m)) Hwf Hm)
    as (line & Hline & _).
  rewrite (put_on_board _ _ _ _ line) by done. destruct Hm as [Hmr Hmc].
  rewrite cell_at_insert_ne; [by apply IH|lia|lia|done|].
  intros Heq. apply Hne. simpl. rewrite Heq. constructor.
Qed.

(** Taking the last stone off the board gives the board before it. *)
Lemma replay_unplayed (h : list Move) (m : Move) (line : list Cell) :
  Forall (fun m' => on_board (row m') (col m')) (h ++ [m]) ->
  NoDup (List.map coords (h ++ [m])) ->
  replay (h ++ [m]) !! Z.to_nat (row m) = Some line ->
  <[Z.to_nat (row m) := <[Z.to_nat (col m) := null]> line]> (replay (h ++ [m])) = replay h.
Proof.
  intros Hall Hnodup Hline.
  apply Forall_app in Hall as [Hall Hm]. rewrite Forall_singleton in Hm.
  rewrite map_app in Hnodup. apply NoDup_app in Hnodup as (_ & Hfresh & _).
  assert (coords m ∉ List.map coords h) as Hnew.
  { intros Hin. apply (Hfresh _ Hin). simpl. constructor. }
  pose proof (replay_wf h Hall) as Hwf.
  pose proof (cell_at_replay_fresh h _ _ Hall Hnew Hm) as Hnull.
  destruct (board_set_wf (replay h) (row m) (col m) (piece (player m)) Hwf Hm)
    as (line0 & Hline0 & _).
  rewrite replay_snoc, (put_on_board _ _ _ _ line0) in Hline |- * by done.
  rewrite list_lookup_insert_eq in Hline by (by eapply lookup_lt_Some).
  injection Hline as <-.
  rewrite list_insert_insert_eq, list_insert_insert_eq.
  rewrite (list_insert_id line0); [by apply list_insert_id|].
  by apply (cell_at_lookup (replay h) (row m) (col m)).
Qed.

Lemma snoc_split {A} (h h1 h2 : list A) (m m' : A) :
  h ++ [m] = h1 ++ m' :: h2 ->
  (h2 = [] /\ h1 = h /\ m' = m) \/ (exists h2', h2 = h2' ++ [m] /\ h = h1 ++ m' :: h2').
Proof.
  intros Heq. destruct h2 as [|x h2] using rev_ind.
  - left. apply app_inj_tail in Heq as [-> ->]. done.
  - right. exists h2.
    change (h1 ++ m' :: h2 ++ [x]) with (h1 ++ (m' :: h2) ++ [x]) in Heq.
    rewrite app_assoc in Heq. apply app_inj_tail in Heq as [-> ->]. done.
Qed.

Lemma quiet_nil : quiet [].
Proof. intros h1 m h2 Heq. by destruct h1. Qed.

Lemma quiet_snoc (h : list Move) (m : Move) :
  quiet h -> ~ wins_after h m -> ~ board_full (replay (h ++ [m])) -> quiet (h ++ [m]).
Proof.
  intros Hq Hwin Hfull h1 m' h2 Heq.
  apply snoc_split in Heq as [(-> & -> & ->)|(h2' & -> & ->)]; [done|].
  by apply (Hq h1 m' h2').
Qed.

Lemma quiet_prefix (h : list Move) (m : Move) : quiet (h ++ [m]) -> quiet h.
Proof.
  intros Hq h1 m' h2 ->. apply (Hq h1 m' (h2 ++ [m])).
  by rewrite <- app_assoc.
Qed.

End Replay.

Section PlayInvariant.

Lemma play_inv_initial : play_inv GameBoard.initial.
Proof.
  split; simpl; try done. apply quiet_nil.
Qed.

Lemma play_inv_after_move (s : GameBoard.Session) (r c now : Z) (line : list Cell)
    (win full : bool) :
  let b' := <[Z.to_nat r := <[Z.to_nat c := piece (GameBoard.currentPlayer s)]> line]>
              (GameBoard.board s) in
  session_inv s -> play_inv s ->
  GameBoard.gameStatus s = playing -> on_board r c ->
  GameBoard.board s !! Z.to_nat r = Some line ->
  GameLogic.checkWinner b' r c (GameBoard.currentPlayer s) = Return win ->
  GameLogic.checkDraw b' = Return full ->
  play_inv (after_move s b' r c now win full).
Proof.
  intros b' Hinv [Hboard Hnum Hpl Hturn Hwinner Hverdict] Hst Hrc Hline Hwin Hfull.
  pose proof (inv_wf s Hinv) as Hwf.
  rewrite Hst in Hturn, Hwinner, Hverdict. simpl in Hturn, Hwinner, Hverdict.
  set (m := mkMove r c (GameBoard.currentPlayer s)
              (Z.of_nat (length (GameBoard.moveHistory s)) + 1) now).
  assert (replay (GameBoard.moveHistory s ++ [m]) = b') as Hreplay.
  { rewrite replay_snoc, <- Hboard. simpl. by apply put_on_board. }
  pose proof (wf_board_insert _ _ (Z.to_nat c) line (piece (GameBoard.currentPlayer s))
                Hwf Hline) as Hwf'.
  fold b' in Hwf'.
  assert (win = true <-> wins_after (GameBoard.moveHistory s) m) as Hwin_iff.
  { destruct (checkWinner_correct b' (GameBoard.currentPlayer s) Hwf' r c) as (v & Hv & Hiff).
    rewrite Hv in Hwin. injection Hwin as <-. unfold wins_after. by rewrite Hreplay. }
  assert (full = true <-> board_full (replay (GameBoard.moveHistory s ++ [m]))) as Hfull_iff.
  { destruct (checkDraw_correct b' Hwf') as (v & Hv & Hiff).
    rewrite Hv in Hfull. injection Hfull as <-. by rewrite Hreplay. }
  split; unfold after_move; cbn [GameBoard.board GameBoard.moveHistory
    GameBoard.currentPlayer GameBoard.gameStatus GameBoard.winner]; fold m.
  - done.
  - intros i m' Hi. apply lookup_app_Some in Hi as [Hi|[Hlen Hi]]; [by apply Hnum|].
    apply list_lookup_singleton_Some in Hi as [Hi <-]. simpl. lia.
  - intros i m' Hi. apply lookup_app_Some in Hi as [Hi|[Hlen Hi]]; [by apply Hpl|].
    apply list_lookup_singleton_Some in Hi as [Hi <-]. simpl.
    rewrite Hturn. f_equal. lia.
  - rewrite length_app. simpl.
    replace (length (GameBoard.moveHistory s) + 1)%nat
      with (S (length (GameBoard.moveHistory s))) by lia.
    destruct win; [done|]. destruct full; [done|]. simpl.
    by rewrite mover_S, Hturn.
  - destruct win; [done|]. by destruct full.
  - destruct win; [|destruct full]; simpl.
    + exists (GameBoard.moveHistory s), m. split; [done|]. split; [done|]. by apply Hwin_iff.
    + exists (GameBoard.moveHistory s), m. split; [done|]. split; [done|].
      split; [|by apply Hfull_iff]. intros Hw. by apply Hwin_iff in Hw.
    + apply quiet_snoc; [done| |].
      * intros Hw. by apply Hwin_iff in Hw.
      * intros Hf. by apply Hfull_iff in Hf.
Qed.

Lemma play_inv_after_undo (s : GameBoard.Session) (h : list Move) (m : Move)
    (line : list Cell) :
  session_inv s -> play_inv s ->
  GameBoard.gameStatus s = playing ->
  GameBoard.moveHistory s = h ++ [m] ->
  GameBoard.board s !! Z.to_nat (row m) = Some line ->
  play_inv
    (GameBoard.mkSession
       (<[Z.to_nat (row m) := <[Z.to_nat (col m) := null]> line]> (GameBoard.board s))
       h (player m) (GameBoard.gameStatus s) (GameBoard.winner s)).
Proof.
  intros Hinv [Hboard Hnum Hpl Hturn Hwinner Hverdict] Hst Hh Hline.
  rewrite Hst in Hturn, Hwinner, Hverdict |- *. simpl in Hturn, Hwinner, Hverdict.
  rewrite Hh in Hboard, Hnum, Hpl, Hverdict.
  assert (Forall (fun m' => on_board (row m') (col m')) (h ++ [m])) as Hon.
  { rewrite <- Hh. eapply Forall_impl; [apply (inv_stones s Hinv)|]. by intros m' [? _]. }
  split; simpl.
  - rewrite Hboard in Hline |- *. apply replay_unplayed; [done| |done].
    rewrite <- Hh. apply (inv_nodup s Hinv).
  - intros i m' Hi. apply Hnum. by apply lookup_app_l_Some.
  - intros i m' Hi. apply Hpl. by apply lookup_app_l_Some.
  - apply Hpl. by rewrite lookup_app_r, Nat.sub_diag.
  - done.
  - by apply (quiet_prefix h m).
Qed.

Lemma play_inv_makeMove (s : GameBoard.Session) (r c now : Z) :
  session_inv s -> play_inv s -> play_inv (snd (GameBoard.makeMove r c now s)).
Proof.
  intros Hinv Hplay. pose proof (inv_wf s Hinv) as Hwf.
  destruct (decide (GameBoard.gameStatus s = playing)) as [Hst|Hst];
    [|by rewrite makeMove_game_over].
  destruct (decide (on_board r c)) as [Hrc|Hrc].
  - destruct (cell_at_wf _ r c Hwf Hrc) as [x Hx].
    destruct (decide (x = null)) as [->|Hx'].
    + destruct (makeMove_accepted s r c now Hwf Hst Hrc Hx)
        as (line & win & full & Hline & Hwin & Hfull & ->). simpl.
      by apply play_inv_after_move.
    + rewrite makeMove_invalid; [done..|].
      rewrite (isValidMove_on_board _ r c x Hrc Hx). f_equal.
      apply not_true_iff_false. by rewrite Cell_eqb_eq.
  - rewrite makeMove_invalid; [done..|].
    unfold GameLogic.isValidMove.
    by apply out_of_board_true in Hrc as ->.
Qed.

Lemma play_inv_undo (s : GameBoard.Session) :
  session_inv s -> play_inv s -> play_inv (snd (GameBoard.undo s)).
Proof.
  intros Hinv Hplay. pose proof (inv_wf s Hinv) as Hwf.
  destruct (decide (GameBoard.gameStatus s = playing)) as [Hst|Hst];
    [|by rewrite undo_game_over].
  destruct (decide (GameBoard.moveHistory s = [])) as [Hh|Hh];
    [by rewrite undo_empty|].
  destruct (exists_last Hh) as (h & m & Hm).
  assert (on_board (row m) (col m)) as Hon.
  { pose proof (inv_stones s Hinv) as Hstones. rewrite Hm in Hstones.
    apply Forall_app in Hstones as [_ Hlast]. rewrite Forall_singleton in Hlast.
    by destruct Hlast. }
  destruct (undo_accepted s h m Hwf Hm Hst Hon) as (line & Hline & ->). simpl.
  by apply play_inv_after_undo.
Qed.

Lemma reachable_play_inv (s : GameBoard.Session) : reachable s -> play_inv s.
Proof.
  induction 1 as [|s o Hreach IH].
  - apply play_inv_initial.
  - pose proof (reachable_inv s Hreach) as Hinv.
    destruct o as [r c now| |]; simpl.
    + by apply play_inv_makeMove.
    + by apply play_inv_undo.
    + apply play_inv_initial.
Qed.

Lemma reachable_run (ops : list Op) (s : GameBoard.Session) :
  reachable s -> reachable (run ops s).
Proof.
  unfold run. revert s. induction ops as [|o ops IH]; intros s Hs; [done|].
  simpl. apply IH. by apply reachable_step.
Qed.

End PlayInvariant.

(** ** Properties of every game that is played *)

Section ReplayCells.

Lemma cell_at_Some_on_board (b : Board) (r c : Z) (x : Cell) :
  wf_board b -> cell_at b r c = Some x -> on_board r c.
Proof.
  intros Hwf. unfold cell_at.
  destruct (Z.leb_spec 0 r); [|done]. destruct (Z.leb_spec 0 c); [|done]. cbn [andb].
  destruct (b !! Z.to_nat r) as [line|] eqn:Hline; [|done]. intros Hx.
  pose proof (wf_board_line b _ line Hwf Hline).
  apply lookup_lt_Some in Hline, Hx. destruct Hwf. unfold on_board. lia.
Qed.

(** The cell of a recorded move holds the stone of the player who made it. *)
Lemma cell_at_replay_move (h : list Move) (m : Move) :
  Forall (fun m' => on_board (row m') (col m')) h ->
  NoDup (List.map coords h) -> m ∈ h ->
  cell_at (replay h) (row m) (col m) = Some (piece (player m)).
Proof.
  induction h as [|m' h IH] using rev_ind; intros Hall Hnodup Hin;
    [by apply elem_of_nil in Hin|].
  apply Forall_app in Hall as [Hall Hm']. rewrite Forall_singleton in Hm'.
  rewrite map_app in Hnodup. apply NoDup_app in Hnodup as (Hnodup & Hfresh & _).
  pose proof (replay_wf h Hall) as Hwf.
  destruct (board_set_wf (replay h) (row m') (col m') (piece (player m')) Hwf Hm')
    as (line & Hline & _).
  rewrite replay_snoc, (put_on_board _ _ _ _ line) by done.
  apply elem_of_app in Hin as [Hin|Hin].
  - destruct Hm' as [Hr Hc]. rewrite cell_at_insert_ne; [by apply IH|lia|lia|done|].
    intros Heq. apply (Hfresh (coords m)).
    + apply list_elem_of_fmap. by exists m.
    + unfold coords at 1. rewrite Heq. simpl. constructor.
  - apply list_elem_of_singleton in Hin as ->. by apply cell_at_insert_eq.
Qed.

Lemma getLastMove_last (s : GameBoard.Session) :
  GameBoard.getLastMove s = last (GameBoard.moveHistory s).
Proof.
  unfold GameBoard.getLastMove.
  destruct (GameBoard.moveHistory s) as [|m h] using rev_ind; [done|].
  rewrite last_snoc, length_app. simpl.
  destruct (Z.gtb_spec (Z.of_nat (length h + 1)) 0); [|lia].
  unfold js_get. destruct (Z.ltb_spec (Z.of_nat (length h + 1) - 1) 0); [lia|].
  replace (Z.to_nat (Z.of_nat (length h + 1) - 1)) with (length h) by lia.
  by rewrite lookup_app_r, Nat.sub_diag.
Qed.

(** A board that is not full has an empty cell. *)
Lemma not_full_has_null (b : Board) :
  ~ board_full b -> exists r c, on_board r c /\ cell_at b r c = Some null.
Proof.
  intros Hnot. pose proof (elem_of_empty_cells b) as Hmem. revert Hmem.
  generalize (empty_cells b GameLogic.indices GameLogic.indices). intros [|[r c] l] Hmem.
  - destruct Hnot. intros r c Hrc Hnull.
    eapply elem_of_nil, Hmem. split; [exact Hrc|exact Hnull].
  - exists r, c. apply Hmem. constructor.
Qed.

End ReplayCells.

(** X7.  In every session reached by playing, the moves of the history are
    numbered 1, 2, 3, ... in order: the move at index [i] has [moveNumber]
    [i + 1]. *)
Theorem move_numbers_in_sequence (s : GameBoard.Session) :
  reachable s ->
  forall i m, GameBoard.moveHistory s !! i = Some m -> moveNumber m = Z.of_nat i + 1.
Proof. intros Hreach. apply pi_numbers. by apply reachable_play_inv. Qed.

Lemma move_numbers_in_sequence_witness :
  moveNumber (mkMove 8 8 white 2 3) = 2.
Proof.
  apply (move_numbers_in_sequence
           (run [ OpMakeMove 7 7 1; OpMakeMove 7 8 2; OpUndo; OpMakeMove 8 8 3 ]
              GameBoard.initial)
           (reachable_run _ _ reachable_initial) 1%nat (mkMove 8 8 white 2 3)).
  reflexivity.
Defined.

(** X8.  In every session reached by playing, black and white alternate in
    the history, black first.  While the game is on, the player to move is
    black exactly when an even number of moves is recorded; once it is over,
    the current player is the one who made the last move. *)
Theorem players_alternate (s : GameBoard.Session) :
  reachable s ->
  (forall i m, GameBoard.moveHistory s !! i = Some m ->
     player m = if Nat.even i then black else white)
  /\ (GameBoard.gameStatus s = playing ->
      (GameBoard.currentPlayer s = black
       <-> Nat.even (length (GameBoard.moveHistory s)) = true))
  /\ (GameBoard.gameStatus s <> playing ->
      exists h m, GameBoard.moveHistory s = h ++ [m] /\ GameBoard.currentPlayer s = player m).
Proof.
  intros Hreach. destruct (reachable_play_inv s Hreach) as [_ _ Hpl Hturn _ Hverdict].
  split; [exact Hpl|]. split.
  - intros Hst. rewrite Hst in Hturn. simpl in Hturn. rewrite Hturn. unfold mover.
    by destruct (Nat.even _).
  - intros Hst.
    assert (exists h m, GameBoard.moveHistory s = h ++ [m]) as (h & m & Hh).
    { destruct (GameBoard.gameStatus s); [done| |];
        destruct Hverdict as (h & m & Hh & _); by exists h, m. }
    exists h, m. split; [done|].
    assert (GameStatus_eqb (GameBoard.gameStatus s) playing = false) as Hne.
    { apply not_true_iff_false. by rewrite GameStatus_eqb_eq. }
    rewrite Hne, Hh, length_app in Hturn. simpl in Hturn.
    replace (pred (length h + 1)) with (length h) in Hturn by lia.
    rewrite Hturn. symmetry. apply Hpl. rewrite Hh.
    by rewrite lookup_app_r, Nat.sub_diag.
Qed.

Lemma players_alternate_witness :
  let s := run [ OpMakeMove 7 7 1; OpMakeMove 7 8 2; OpUndo; OpMakeMove 8 8 3 ]
             GameBoard.initial in
  GameBoard.currentPlayer s = black
  <-> Nat.even (length (GameBoard.moveHistory s)) = true.
Proof.
  intros s.
  destruct (players_alternate s (reachable_run _ _ reachable_initial)) as (_ & Hturn & _).
  apply Hturn. reflexivity.
Defined.

(** X9.  In every session reached by playing, the board is exactly what the
    history says: a cell holds a stone of a player if and only if the
    history records a move of that player on that cell. *)
Theorem board_matches_history (s : GameBoard.Session) :
  reachable s ->
  forall r c q,
    cell_at (GameBoard.board s) r c = Some (piece q)
    <-> exists m, m ∈ GameBoard.moveHistory s /\ row m = r /\ col m = c /\ player m = q.
Proof.
  intros Hreach r c q.
  pose proof (reachable_inv s Hreach) as Hinv.
  destruct (reachable_play_inv s Hreach) as [Hboard _ _ _ _ _].
  assert (Forall (fun m => on_board (row m) (col m)) (GameBoard.moveHistory s)) as Hon.
  { eapply Forall_impl; [apply (inv_stones s Hinv)|]. by intros m [? _]. }
  pose proof (inv_nodup s Hinv) as Hnodup.
  rewrite Hboard. split.
  - intros Hcell.
    assert (on_board r c) as Hrc.
    { eapply cell_at_Some_on_board; [by apply replay_wf|exact Hcell]. }
    destruct (decide ((r, c) ∈ List.map coords (GameBoard.moveHistory s))) as [Hin|Hout].
    + apply list_elem_of_fmap in Hin as (m & [= -> ->] & Hm).
      exists m. split; [done|]. split; [done|]. split; [done|].
      rewrite (cell_at_replay_move _ m Hon Hnodup Hm) in Hcell. by injection Hcell.
    + rewrite (cell_at_replay_fresh _ r c Hon Hout Hrc) in Hcell. done.
  - intros (m & Hm & <- & <- & <-). by apply cell_at_replay_move.
Qed.

Lemma board_matches_history_witness :
  let s := run [ OpMakeMove 7 7 1; OpMakeMove 7 8 2; OpUndo; OpMakeMove 8 8 3 ]
             GameBoard.initial in
  cell_at (GameBoard.board s) 8 8 = Some (piece white)
  <-> exists m, m ∈ GameBoard.moveHistory s /\ row m = 8 /\ col m = 8 /\ player m = white.
Proof.
  apply (board_matches_history
           (run [ OpMakeMove 7 7 1; OpMakeMove 7 8 2; OpUndo; OpMakeMove 8 8 3 ]
              GameBoard.initial)).
  apply reachable_run, reachable_initial.
Defined.

(** X10.  In every session reached by playing, [winner] is [null] exactly
    when the status is not [won]; when it names a player, the status is
    [won], that player is the current player and made the last recorded
    move, and that move is part of five in a row on the board. *)
Theorem winner_is_last_mover (s : GameBoard.Session) :
  reachable s ->
  (GameBoard.winner s = None <-> GameBoard.gameStatus s <> won)
  /\ (forall p, GameBoard.winner s = Some p ->
        GameBoard.gameStatus s = won
        /\ GameBoard.currentPlayer s = p
        /\ exists h m, GameBoard.moveHistory s = h ++ [m] /\ player m = p
                       /\ five_in_a_row (GameBoard.board s) p (row m) (col m)).
Proof.
  intros Hreach.
  destruct (reachable_play_inv s Hreach) as [Hboard _ Hpl Hturn Hwin Hverdict].
  destruct (GameBoard.gameStatus s) eqn:Hst; simpl in Hwin, Hturn.
  - split; [by rewrite Hwin|]. intros p Hp. by rewrite Hwin in Hp.
  - split; [rewrite Hwin; split; [done|by intros []]|].
    intros p Hp. rewrite Hwin in Hp. injection Hp as Hp.
    split; [done|]. split; [done|].
    destruct Hverdict as (h & m & Hh & _ & Hfive). exists h, m. split; [done|].
    assert (player m = p) as Hm.
    { rewrite <- Hp, Hturn, Hh, length_app. simpl.
      replace (pred (length h + 1)) with (length h) by lia.
      apply Hpl. rewrite Hh. by rewrite lookup_app_r, Nat.sub_diag. }
    split; [done|]. unfold wins_after in Hfive. by rewrite Hboard, Hh, <- Hm.
  - split; [by rewrite Hwin|]. intros p Hp. by rewrite Hwin in Hp.
Qed.

Lemma winner_is_last_mover_witness :
  let s := run [ OpMakeMove 7 7 1; OpMakeMove 7 8 2; OpUndo; OpMakeMove 8 8 3 ]
             GameBoard.initial in
  GameBoard.winner s = None <-> GameBoard.gameStatus s <> won.
Proof.
  intros s.
  destruct (winner_is_last_mover s (reachable_run _ _ reachable_initial)) as [Hnone _].
  exact Hnone.
Defined.

(** X11.  In every session reached by playing, the status says what is on
    the board: it is [won] exactly when the last recorded move is part of
    five in a row of its player, and [draw] exactly when the board is full
    and the last recorded move is not part of such a line. *)
Theorem status_reflects_board (s : GameBoard.Session) :
  reachable s ->
  (GameBoard.gameStatus s = won
   <-> exists h m, GameBoard.moveHistory s = h ++ [m]
                   /\ five_in_a_row (GameBoard.board s) (player m) (row m) (col m))
  /\ (GameBoard.gameStatus s = draw
      <-> board_full (GameBoard.board s)
          /\ forall h m, GameBoard.moveHistory s = h ++ [m] ->
               ~ five_in_a_row (GameBoard.board s) (player m) (row m) (col m)).
Proof.
  intros Hreach.
  destruct (reachable_play_inv s Hreach) as [Hboard _ _ _ _ Hverdict].
  rewrite Hboard.
  assert (forall h m, GameBoard.moveHistory s = h ++ [m] ->
            quiet (GameBoard.moveHistory s) ->
            ~ five_in_a_row (replay (GameBoard.moveHistory s)) (player m) (row m) (col m)
            /\ ~ board_full (replay (GameBoard.moveHistory s))) as Hquiet.
  { intros h m Hh Hq. rewrite Hh. apply (Hq h m []). exact Hh. }
  assert (~ board_full (replay [])) as Hempty.
  { intros Hfull. apply (Hfull 0 0); [done|]. apply cell_at_empty. done. }
  destruct (GameBoard.gameStatus s) eqn:Hst; simpl in Hverdict.
  - split; split; try done.
    + intros (h & m & Hh & Hfive). by destruct (Hquiet h m Hh Hverdict).
    + intros [Hfull Hno].
      destruct (GameBoard.moveHistory s) as [|m h _] using rev_ind; [done|].
      by destruct (Hquiet h m eq_refl Hverdict).
  - destruct Hverdict as (h & m & Hh & _ & Hfive). unfold wins_after in Hfive.
    split; split; try done.
    + intros _. exists h, m. by rewrite Hh.
    + intros [_ Hno]. destruct (Hno h m Hh). by rewrite Hh.
  - destruct Hverdict as (h & m & Hh & _ & Hno & Hfull). unfold wins_after in Hno.
    split; split; try done.
    + intros (h' & m' & Hh' & Hfive). rewrite Hh in Hh'.
      apply app_inj_tail in Hh' as [-> ->]. rewrite Hh in Hfive. done.
    + intros _. split; [done|]. intros h' m' Hh'. rewrite Hh in Hh'.
      apply app_inj_tail in Hh' as [-> ->]. by rewrite Hh.
Qed.

Lemma status_reflects_board_witness :
  let s := run [ OpMakeMove 7 3 1; OpMakeMove 0 0 2; OpMakeMove 7 4 3; OpMakeMove 0 1 4;
                 OpMakeMove 7 5 5; OpMakeMove 0 2 6; OpMakeMove 7 6 7; OpMakeMove 0 3 8;
                 OpMakeMove 7 7 9 ] GameBoard.initial in
  GameBoard.gameStatus s = won
  /\ (GameBoard.gameStatus s = won
      <-> exists h m, GameBoard.moveHistory s = h ++ [m]
                      /\ five_in_a_row (GameBoard.board s) (player m) (row m) (col m)).
Proof.
  intros s. split; [reflexivity|].
  destruct (status_reflects_board s (reachable_run _ _ reachable_initial)) as [Hwon _].
  exact Hwon.
Defined.

(** X12.  In every session reached by playing, no recorded move but the
    last ended the game: on the board as it was right after such a move,
    the move was not part of five in a row and an empty cell was left. *)
Theorem earlier_moves_did_not_end_game (s : GameBoard.Session) :
  reachable s ->
  forall h1 m h2,
    GameBoard.moveHistory s = h1 ++ m :: h2 -> h2 <> [] ->
    ~ five_in_a_row (replay (h1 ++ [m])) (player m) (row m) (col m)
    /\ exists r c, on_board r c /\ cell_at (replay (h1 ++ [m])) r c = Some null.
Proof.
  intros Hreach h1 m h2 Hh Hne.
  destruct (reachable_play_inv s Hreach) as [_ _ _ _ _ Hverdict].
  assert (exists h0 m0, h2 = h0 ++ [m0]) as (h0 & m0 & ->).
  { destruct h2 as [|m0 h0 _] using rev_ind; [done|]. by exists h0, m0. }
  assert (quiet (h1 ++ m :: h0)) as Hq.
  { assert (GameBoard.moveHistory s = (h1 ++ m :: h0) ++ [m0]) as Hh'.
    { by rewrite Hh, <- app_assoc. }
    destruct (GameBoard.gameStatus s); simpl in Hverdict.
    - rewrite Hh' in Hverdict. by apply quiet_prefix in Hverdict.
    - destruct Hverdict as (h' & m' & Heq & Hq & _). rewrite Hh' in Heq.
      by apply app_inj_tail in Heq as [-> _].
    - destruct Hverdict as (h' & m' & Heq & Hq & _). rewrite Hh' in Heq.
      by apply app_inj_tail in Heq as [-> _]. }
  destruct (Hq h1 m h0 eq_refl) as [Hno Hnot]. split; [exact Hno|].
  by apply not_full_has_null.
Qed.

Lemma earlier_moves_did_not_end_game_witness :
  ~ five_in_a_row (replay ([] ++ [mkMove 7 7 black 1 1])) black 7 7
  /\ exists r c, on_board r c /\ cell_at (replay ([] ++ [mkMove 7 7 black 1 1])) r c = Some null.
Proof.
  apply (earlier_moves_did_not_end_game
           (run [ OpMakeMove 7 7 1; OpMakeMove 7 8 2 ] GameBoard.initial)
           (reachable_run _ _ reachable_initial)
           [] (mkMove 7 7 black 1 1) [mkMove 7 8 white 2 2]).
  - reflexivity.
  - discriminate.
Defined.

(** X13.  In every session reached by playing whose status is [playing],
    the game can go on: some cell of the board is empty, and [makeMove] on
    it is accepted. *)
Theorem playing_has_legal_move (s : GameBoard.Session) :
  reachable s -> GameBoard.gameStatus s = playing ->
  exists r c,
    on_board r c /\ cell_at (GameBoard.board s) r c = Some null
    /\ forall now, fst (GameBoard.makeMove r c now s) = Return true.
Proof.
  intros Hreach Hst.
  pose proof (reachable_inv s Hreach) as Hinv.
  destruct (reachable_play_inv s Hreach) as [Hboard _ _ _ _ Hverdict].
  rewrite Hst in Hverdict. simpl in Hverdict.
  assert (exists r c, on_board r c /\ cell_at (GameBoard.board s) r c = Some null)
    as (r & c & Hrc & Hnull).
  { rewrite Hboard.
    destruct (GameBoard.moveHistory s) as [|m h _] using rev_ind.
    - exists 0, 0. split; [done|]. by apply cell_at_empty.
    - apply not_full_has_null. by apply (Hverdict h m []). }
  exists r, c. split; [done|]. split; [done|]. intros now.
  destruct (makeMove_accepted s r c now (inv_wf s Hinv) Hst Hrc Hnull)
    as (line & win & full & _ & _ & _ & ->).
  done.
Qed.

Lemma playing_has_legal_move_witness :
  let s := run [ OpMakeMove 7 7 1; OpMakeMove 7 8 2 ] GameBoard.initial in
  exists r c,
    on_board r c /\ cell_at (GameBoard.board s) r c = Some null
    /\ forall now, fst (GameBoard.makeMove r c now s) = Return true.
Proof.
  apply (playing_has_legal_move
           (run [ OpMakeMove 7 7 1; OpMakeMove 7 8 2 ] GameBoard.initial)
           (reachable_run _ _ reachable_initial)).
  reflexivity.
Defined.

(** X14.  [undo] takes back an accepted move that left the game going: on a
    15x15 board, [makeMove] on an empty cell followed by [undo] gives back
    the session as it was, unless the move ended the game, in which case
    [undo] is refused and the move stays. *)
Theorem makeMove_then_undo (s : GameBoard.Session) (r c now : Z) :
  wf_board (GameBoard.board s) ->
  GameBoard.gameStatus s = playing ->
  on_board r c ->
  cell_at (GameBoard.board s) r c = Some null ->
  let s' := snd (GameBoard.makeMove r c now s) in
  (GameBoard.gameStatus s' = playing -> GameBoard.undo s' = (Return true, s))
  /\ (GameBoard.gameStatus s' <> playing -> GameBoard.undo s' = (Return false, s')).
Proof.
  intros Hwf Hst Hrc Hnull s'. split; [|apply undo_game_over].
  subst s'.
  destruct (makeMove_accepted s r c now Hwf Hst Hrc Hnull)
    as (line & win & full & Hline & _ & _ & ->).
  cbn [snd]. intros Hst'.
  assert (win = false /\ full = false) as [-> ->].
  { unfold after_move in Hst'. simpl in Hst'. by destruct win, full. }
  set (m := mkMove r c (GameBoard.currentPlayer s)
              (Z.of_nat (length (GameBoard.moveHistory s)) + 1) now).
  set (s1 := after_move s _ r c now false false) in *.
  assert (wf_board (GameBoard.board s1)) as Hwf1.
  { by apply wf_board_insert. }
  destruct (undo_accepted s1 (GameBoard.moveHistory s) m Hwf1 eq_refl Hst' Hrc)
    as (line1 & Hline1 & ->).
  f_equal. subst s1 m. unfold after_move in *. cbn in *.
  rewrite list_lookup_insert_eq in Hline1 by (by apply lookup_lt_Some in Hline).
  injection Hline1 as <-.
  rewrite list_insert_insert_eq, list_insert_insert_eq.
  assert (line !! Z.to_nat c = Some null) as Hcell.
  { unfold cell_at in Hnull. destruct Hrc as [Hr Hc].
    destruct (Z.leb_spec 0 r); [|lia]. destruct (Z.leb_spec 0 c); [|lia].
    cbn [andb] in Hnull. by rewrite Hline in Hnull. }
  rewrite (list_insert_id line _ _ Hcell), (list_insert_id _ _ _ Hline).
  destruct s. cbn in *. by rewrite Hst.
Qed.

Lemma makeMove_then_undo_witness :
  let s' := snd (GameBoard.makeMove 7 7 1 GameBoard.initial) in
  GameBoard.gameStatus s' = playing /\ GameBoard.undo s' = (Return true, GameBoard.initial).
Proof.
  intros s'. split; [reflexivity|].
  assert (wf_board (GameBoard.board GameBoard.initial)) as Hwf.
  { split; [reflexivity|]. vm_compute. repeat constructor. }
  assert (on_board 7 7) as Hrc by (unfold on_board; lia).
  destruct (makeMove_then_undo GameBoard.initial 7 7 1 Hwf eq_refl Hrc eq_refl)
    as [Hundo _].
  apply Hundo. reflexivity.
Defined.

(** X15.  A finished game stays as it is: once the status is [won] or
    [draw], any sequence of [makeMove] and [undo] calls leaves the whole
    session unchanged; only [reset] leaves the state, and it gives the
    initial session. *)
Theorem finished_game_is_frozen (s : GameBoard.Session) (ops : list Op) :
  GameBoard.gameStatus s <> playing ->
  no_reset ops ->
  run ops s = s /\ run (ops ++ [OpReset]) s = GameBoard.initial.
Proof.
  intros Hst Hops.
  assert (run ops s = s) as Hrun.
  { unfold run. induction Hops as [|o ops Ho _ IH]; [done|]. simpl.
    assert (apply_op o s = s) as ->; [|exact IH].
    destruct o as [r c now| |]; simpl.
    - by rewrite makeMove_game_over.
    - by rewrite undo_game_over.
    - done. }
  split; [done|]. unfold run in *. by rewrite foldl_app, Hrun.
Qed.

Lemma finished_game_is_frozen_witness :
  let s := run [ OpMakeMove 7 3 1; OpMakeMove 0 0 2; OpMakeMove 7 4 3; OpMakeMove 0 1 4;
                 OpMakeMove 7 5 5; OpMakeMove 0 2 6; OpMakeMove 7 6 7; OpMakeMove 0 3 8;
                 OpMakeMove 7 7 9 ] GameBoard.initial in
  run [ OpUndo; OpMakeMove 9 9 10; OpUndo ] s = s
  /\ run ([ OpUndo; OpMakeMove 9 9 10; OpUndo ] ++ [OpReset]) s = GameBoard.initial.
Proof.
  intros s. apply (finished_game_is_frozen s [ OpUndo; OpMakeMove 9 9 10; OpUndo ]).
  - vm_compute. discriminate.
  - repeat constructor; discriminate.
Defined.

(** X16.  In every session reached by playing, [getLastMove] returns
    [null] exactly when the board holds no stone; otherwise it returns the
    last move of the history, whose cell holds a stone of its player and
    whose number is the number of stones on the board. *)
Theorem getLastMove_spec (s : GameBoard.Session) :
  reachable s ->
  match GameBoard.getLastMove s with
  | None => GameBoard.moveHistory s = [] /\ count_nonempty (GameBoard.board s) = 0%nat
  | Some m =>
      (exists h, GameBoard.moveHistory s = h ++ [m])
      /\ cell_at (GameBoard.board s) (row m) (col m) = Some (piece (player m))
      /\ moveNumber m = Z.of_nat (count_nonempty (GameBoard.board s))
  end.
Proof.
  intros Hreach.
  pose proof (reachable_inv s Hreach) as Hinv.
  destruct (reachable_play_inv s Hreach) as [Hboard Hnum _ _ _ _].
  assert (Forall (fun m => on_board (row m) (col m)) (GameBoard.moveHistory s)) as Hon.
  { eapply Forall_impl; [apply (inv_stones s Hinv)|]. by intros m [? _]. }
  pose proof (inv_nodup s Hinv) as Hnodup. pose proof (inv_count s Hinv) as Hcount.
  rewrite getLastMove_last.
  destruct (GameBoard.moveHistory s) as [|m h _] using rev_ind; [done|].
  rewrite last_snoc. split; [by exists h|]. split.
  - rewrite Hboard. apply cell_at_replay_move; [done..|].
    apply elem_of_app. right. constructor.
  - rewrite Hcount, length_app. simpl.
    rewrite (Hnum (length h) m) by (by rewrite lookup_app_r, Nat.sub_diag). lia.
Qed.

Lemma getLastMove_spec_witness :
  match GameBoard.getLastMove
          (run [ OpMakeMove 7 7 1; OpMakeMove 7 8 2; OpUndo; OpMakeMove 8 8 3 ]
             GameBoard.initial) with
  | None =>
      GameBoard.moveHistory
        (run [ OpMakeMove 7 7 1; OpMakeMove 7 8 2; OpUndo; OpMakeMove 8 8 3 ]
           GameBoard.initial) = []
      /\ count_nonempty
           (GameBoard.board
              (run [ OpMakeMove 7 7 1; OpMakeMove 7 8 2; OpUndo; OpMakeMove 8 8 3 ]
                 GameBoard.initial)) = 0%nat
  | Some m =>
      (exists h,
         GameBoard.moveHistory
           (run [ OpMakeMove 7 7 1; OpMakeMove 7 8 2; OpUndo; OpMakeMove 8 8 3 ]
              GameBoard.initial) = h ++ [m])
      /\ cell_at
           (GameBoard.board
              (run [ OpMakeMove 7 7 1; OpMakeMove 7 8 2; OpUndo; OpMakeMove 8 8 3 ]
                 GameBoard.initial)) (row m) (col m) = Some (piece (player m))
      /\ moveNumber m
         = Z.of_nat
             (count_nonempty
                (GameBoard.board
                   (run [ OpMakeMove 7 7 1; OpMakeMove 7 8 2; OpUndo; OpMakeMove 8 8 3 ]
                      GameBoard.initial)))
  end.
Proof.
  apply (getLastMove_spec
           (run [ OpMakeMove 7 7 1; OpMakeMove 7 8 2; OpUndo; OpMakeMove 8 8 3 ]
              GameBoard.initial)).
  apply reachable_run, reachable_initial.
Defined.

(** X17.  In every session reached by playing, on a cell of the board
    [getPiece] returns normally and never [undefined]; [isEmpty] agrees
    with [isValidMove] on the session's board, and both say [true] exactly
    when no recorded move is on the cell. *)
Theorem isEmpty_on_board (s : GameBoard.Session) (r c : Z) :
  reachable s -> on_board r c ->
  exists x v,
    GameBoard.getPiece s r c = Return x /\ x <> undefined
    /\ GameBoard.isEmpty s r c = Return v
    /\ GameLogic.isValidMove (GameBoard.board s) r c = Return v
    /\ (v = true <-> (r, c) ∉ List.map coords (GameBoard.moveHistory s)).
Proof.
  intros Hreach Hrc.
  pose proof (reachable_inv s Hreach) as Hinv.
  destruct (reachable_play_inv s Hreach) as [Hboard _ _ _ _ _].
  assert (Forall (fun m => on_board (row m) (col m)) (GameBoard.moveHistory s)) as Hon.
  { eapply Forall_impl; [apply (inv_stones s Hinv)|]. by intros m [? _]. }
  pose proof (inv_nodup s Hinv) as Hnodup.
  destruct (board_set_wf (GameBoard.board s) r c null (inv_wf s Hinv) Hrc)
    as (line & Hline & _).
  assert (exists x, cell_at (GameBoard.board s) r c = Some x) as (x & Hx).
  { unfold cell_at. destruct Hrc as [Hr Hc].
    destruct (Z.leb_spec 0 r); [|lia]. destruct (Z.leb_spec 0 c); [|lia]. cbn [andb].
    rewrite Hline. apply lookup_lt_is_Some.
    pose proof (wf_board_line _ _ line (inv_wf s Hinv) Hline). lia. }
  assert (GameBoard.getPiece s r c = Return x) as Hget.
  { unfold GameBoard.getPiece, GameBoard.boardSize.
    assert ((r <? 0) || (r >=? 15) || (c <? 0) || (c >=? 15) = false) as ->.
    { destruct Hrc. rewrite !orb_false_iff, !Z.ltb_ge. repeat split; try lia;
        apply not_true_iff_false; rewrite Z.geb_le; lia. }
    by apply board_get_cell_at. }
  assert (x = null <-> (r, c) ∉ List.map coords (GameBoard.moveHistory s)) as Hiff.
  { rewrite Hboard in Hx. split.
    - intros -> Hin. apply list_elem_of_fmap in Hin as (m & [= -> ->] & Hm).
      by rewrite (cell_at_replay_move _ m Hon Hnodup Hm) in Hx.
    - intros Hout. rewrite (cell_at_replay_fresh _ r c Hon Hout Hrc) in Hx. congruence. }
  exists x, (Cell_eqb x null). split; [done|]. split.
  { intros ->. pose proof (inv_no_holes s Hinv) as Hholes.
    unfold cell_at in Hx. destruct Hrc as [Hr Hc].
    destruct (Z.leb_spec 0 r); [|lia]. destruct (Z.leb_spec 0 c); [|lia].
    cbn [andb] in Hx. rewrite Hline in Hx.
    unfold no_holes in Hholes. rewrite Forall_lookup in Hholes.
    specialize (Hholes _ _ Hline). rewrite Forall_lookup in Hholes.
    by apply (Hholes _ _ Hx). }
  split; [unfold GameBoard.isEmpty; by rewrite Hget|]. split.
  - by apply isValidMove_on_board.
  - by rewrite Cell_eqb_eq.
Qed.

Lemma isEmpty_on_board_witness :
  let s := run [ OpMakeMove 7 7 1; OpMakeMove 7 8 2; OpUndo; OpMakeMove 8 8 3 ]
             GameBoard.initial in
  exists x v,
    GameBoard.getPiece s 7 8 = Return x /\ x <> undefined
    /\ GameBoard.isEmpty s 7 8 = Return v
    /\ GameLogic.isValidMove (GameBoard.board s) 7 8 = Return v
    /\ (v = true <-> (7, 8) ∉ List.map coords (GameBoard.moveHistory s)).
Proof.
  apply (isEmpty_on_board
           (run [ OpMakeMove 7 7 1; OpMakeMove 7 8 2; OpUndo; OpMakeMove 8 8 3 ]
              GameBoard.initial) 7 8).
  - apply reachable_run, reachable_initial.
  - unfold on_board. lia.
Defined.

(** ** More on helpers.js *)

Section DisplayBack.

Local Open Scope string_scope.

Lemma in_range_char (lo hi : Z) (ch : ascii) :
  Helpers.in_range lo hi ch = true -> exists n, lo <= n <= hi /\ ch = JSON.char n.
Proof.
  unfold Helpers.in_range. rewrite andb_true_iff, !Z.leb_le. intros [H1 H2].
  exists (JSON.code ch). split; [lia|]. unfold JSON.char, JSON.code.
  by rewrite Nat2Z.id, ascii_nat_embedding.
Qed.

(** The texts the pattern takes: a letter from A to O in either case, then
    a digit from 1 to 9, or 1 and a digit from 0 to 5. *)
Lemma match_display_Some (text g1 g2 : string) :
  Helpers.match_display text = Some (g1, g2) ->
  exists i j tail,
    0 <= i < 15 /\ 0 <= j < 15
    /\ (text = String (JSON.char (65 + i)) tail \/ text = String (JSON.char (97 + i)) tail)
    /\ (j < 9 /\ tail = String (JSON.char (49 + j)) EmptyString
        \/ j < 6 /\ tail = String "1" (String (JSON.char (48 + j)) EmptyString)).
Proof.
  destruct text as [|l tail]; [done|]. cbn [Helpers.match_display].
  destruct (Helpers.in_range 65 79 l || Helpers.in_range 97 111 l) eqn:Hl; [|done].
  intros Htail.
  assert (exists j, 0 <= j < 15
            /\ (j < 9 /\ tail = String (JSON.char (49 + j)) EmptyString
                \/ j < 6 /\ tail = String "1" (String (JSON.char (48 + j)) EmptyString)))
    as (j & Hj & Hshape).
  { destruct tail as [|d1 [|d2 [|d3 rest]]]; try done.
    - destruct (Helpers.in_range 49 57 d1) eqn:Hd; [|done].
      apply in_range_char in Hd as (n & Hn & ->).
      exists (n - 49). split; [lia|]. left. split; [lia|]. do 2 f_equal. lia.
    - destruct (JSON.code d1 =? 49)%Z eqn:H1; [|done].
      destruct (Helpers.in_range 48 53 d2) eqn:Hd; [|done].
      apply Z.eqb_eq in H1. apply in_range_char in Hd as (n & Hn & ->).
      exists (n - 48). split; [lia|]. right. split; [lia|].
      assert (d1 = "1"%char) as ->.
      { rewrite <- (ascii_nat_embedding d1). unfold JSON.code in H1.
        by replace (nat_of_ascii d1) with 49%nat by lia. }
      do 3 f_equal. lia. }
  apply orb_true_iff in Hl as [Hl|Hl]; apply in_range_char in Hl as (n & Hn & ->).
  - exists (n - 65), j, tail. split; [lia|]. split; [done|]. split; [|done].
    left. do 2 f_equal. lia.
  - exists (n - 97), j, tail. split; [lia|]. split; [done|]. split; [|done].
    right. do 2 f_equal. lia.
Qed.

(** What [displayToBoardCoords] gives on each of these texts. *)
Lemma board_of_display (i j : Z) (text tail : string) :
  0 <= i < 15 -> 0 <= j < 15 ->
  text = String (JSON.char (65 + i)) tail \/ text = String (JSON.char (97 + i)) tail ->
  j < 9 /\ tail = String (JSON.char (49 + j)) EmptyString
  \/ j < 6 /\ tail = String "1" (String (JSON.char (48 + j)) EmptyString) ->
  exists r,
    0 <= r < 15
    /\ Helpers.displayToBoardCoords text = Some (Helpers.mkCoords (Helpers.Int r) i)
    /\ Helpers.boardToDisplayCoords r i = Helpers.toUpperCase text.
Proof.
  intros Hi Hj Htext Htail.
  destruct Htail as [[Hj' ->]|[Hj' ->]].
  - exists (14 - j). split; [lia|].
    destruct (small_index i Hi) as
      [->|[->|[->|[->|[->|[->|[->|[->|[->|[->|[->|[->|[->|[->| ->]]]]]]]]]]]]]];
    destruct (small_index j Hj) as
      [->|[->|[->|[->|[->|[->|[->|[->|[->|[->|[->|[->|[->|[->| ->]]]]]]]]]]]]]];
    try lia; destruct Htext as [-> | ->]; split; reflexivity.
  - exists (5 - j). split; [lia|].
    destruct (small_index i Hi) as
      [->|[->|[->|[->|[->|[->|[->|[->|[->|[->|[->|[->|[->|[->| ->]]]]]]]]]]]]]];
    destruct (small_index j Hj) as
      [->|[->|[->|[->|[->|[->|[->|[->|[->|[->|[->|[->|[->|[->| ->]]]]]]]]]]]]]];
    try lia; destruct Htext as [-> | ->]; split; reflexivity.
Qed.

End DisplayBack.

(** X18.  Whenever [displayToBoardCoords] returns coordinates, they are on
    the board and [boardToDisplayCoords] writes them as the given text in
    capitals; it returns [null] only when the text does not match the
    pattern, so the range check after the match never fires. *)
Theorem displayToBoardCoords_sound (text : string) :
  match Helpers.displayToBoardCoords text with
  | Some rc =>
      exists r, Helpers.row rc = Helpers.Int r /\ on_board r (Helpers.col rc)
        /\ Helpers.boardToDisplayCoords r (Helpers.col rc) = Helpers.toUpperCase text
  | None => Helpers.match_display text = None
  end.
Proof.
  destruct (Helpers.match_display text) as [[g1 g2]|] eqn:Hm.
  - destruct (match_display_Some text g1 g2 Hm) as (i & j & tail & Hi & Hj & Htext & Htail).
    destruct (board_of_display i j text tail Hi Hj Htext Htail) as (r & Hr & -> & Hback).
    exists r. split; [done|]. split; [|done]. unfold on_board. simpl. lia.
  - unfold Helpers.displayToBoardCoords. by rewrite Hm.
Qed.

Section AnyString.

Local Open Scope js_scope.

(** Reading what [print_char] wrote for any byte gives the byte back. *)
Lemma parse_chars_print_char (ch : ascii) (k : string) :
  JSON.parse_chars (JSON.print_char ch k)
  = (r <- JSON.parse_chars k ;; Return (String ch (fst r), snd r)).
Proof. destruct ch as [[] [] [] [] [] [] [] []]; reflexivity. Qed.

Lemma parse_chars_print_any (s k : string) :
  JSON.parse_chars (JSON.print_chars s (String JSON.dquote k)) = Return (s, k).
Proof.
  induction s as [|ch s IH]; [reflexivity|].
  cbn [JSON.print_chars]. by rewrite parse_chars_print_char, IH.
Qed.

(** Any string, whatever it holds, is read back from its JSON text. *)
Lemma parse_stringify_Str (s : string) :
  JSON.parse (JSON.stringify (JSON.Str s)) = Return (JSON.Str s).
Proof.
  unfold JSON.parse, JSON.stringify. cbn [JSON.print]. unfold JSON.print_string.
  cbn [JSON.parse_value JSON.skip_ws String.length].
  change (JSON.is_ws JSON.dquote) with false. cbn iota.
  change (JSON.code JSON.dquote =? 91) with false.
  change (JSON.code JSON.dquote =? 123) with false.
  change (JSON.code JSON.dquote =? 34) with true. cbn iota.
  by rewrite parse_chars_print_any.
Qed.

Lemma stringify_nonempty (v : JSON.value) :
  plain v = true \/ (exists s, v = JSON.Str s) ->
  Helpers.item_text v = JSON.stringify v
  /\ exists ch rest, JSON.stringify v = String ch rest.
Proof.
  intros [Hplain|[s ->]].
  - split; [by destruct v|].
    destruct (print_head v EmptyString Hplain) as (ch & rest & Hprint & _).
    by exists ch, rest.
  - split; [done|]. by eexists _, _.
Qed.

Lemma parse_stringify_stored (v : JSON.value) :
  plain v = true \/ (exists s, v = JSON.Str s) ->
  JSON.parse (JSON.stringify v) = Return v.
Proof.
  intros [Hplain|[s ->]]; [by apply parse_stringify|apply parse_stringify_Str].
Qed.

Lemma getItem_removeItem_ne (key key' : string) (st : Helpers.Storage) :
  key' <> key -> Helpers.getItem key' (Helpers.removeItem key st) = Helpers.getItem key' st.
Proof.
  intros Hne. unfold Helpers.getItem, Helpers.removeItem.
  induction st as [|[k v] st IH]; [done|]. cbn [List.filter List.find fst].
  destruct (String.eqb_spec k key) as [->|Hk]; cbn [negb].
  - destruct (String.eqb_spec key key'); [congruence|]. exact IH.
  - cbn [List.find fst]. by destruct (String.eqb k key').
Qed.

Lemma getItem_removeItem (key : string) (st : Helpers.Storage) :
  Helpers.getItem key (Helpers.removeItem key st) = None.
Proof.
  unfold Helpers.getItem, Helpers.removeItem.
  induction st as [|[k v] st IH]; [done|]. cbn [List.filter List.find fst].
  destruct (String.eqb_spec k key) as [->|Hk]; cbn [negb]; [exact IH|].
  cbn [List.find fst]. destruct (String.eqb_spec k key); [done|exact IH].
Qed.

End AnyString.

(** X19.  What [setLocalStorage] stores, [getLocalStorage] gives back: for
    any string, and for any value without [undefined], fractions and
    escaped characters, when the browser has room for the item the call
    returns [true], reading the key returns the value itself, and no other
    key changes. *)
Theorem localStorage_roundtrip (room : Helpers.Storage -> string -> string -> bool)
    (key : string) (value defaultValue : JSON.value) (st : Helpers.Storage) :
  plain value = true \/ (exists s, value = JSON.Str s) ->
  room st key (Helpers.item_text value) = true ->
  exists st',
    Helpers.setLocalStorage room key value st = (true, st')
    /\ Helpers.getLocalStorage key defaultValue st' = Return value
    /\ forall key', key' <> key -> Helpers.getItem key' st' = Helpers.getItem key' st.
Proof.
  intros Hvalue Hroom.
  destruct (stringify_nonempty value Hvalue) as (Htext & ch & rest & Hshape).
  exists ((key, Helpers.item_text value) :: Helpers.removeItem key st).
  split; [|split].
  - unfold Helpers.setLocalStorage, Helpers.setItem. by rewrite Hroom.
  - unfold Helpers.getLocalStorage, Helpers.getItem. cbn [List.find fst].
    rewrite String.eqb_refl. cbn [fmap option_fmap option_map snd].
    rewrite Htext, Hshape, <- Hshape. by rewrite parse_stringify_stored.
  - intros key' Hne. unfold Helpers.getItem at 1. cbn [List.find fst].
    destruct (String.eqb_spec key key'); [congruence|].
    by apply getItem_removeItem_ne.
Qed.

Lemma localStorage_roundtrip_witness :
  exists st',
    Helpers.setLocalStorage (fun _ _ _ => true) "k"
      (JSON.Str (String JSON.dquote "a\b")) [("k", "1"); ("other", "2")]%string
    = (true, st')
    /\ Helpers.getLocalStorage "k" JSON.Null st'
       = Return (JSON.Str (String JSON.dquote "a\b"))
    /\ forall key', key' <> "k"%string ->
         Helpers.getItem key' st' = Helpers.getItem key' [("k", "1"); ("other", "2")]%string.
Proof.
  apply (localStorage_roundtrip (fun _ _ _ => true) "k"
           (JSON.Str (String JSON.dquote "a\b")) JSON.Null
           [("k", "1"); ("other", "2")]%string).
  - right. by eexists.
  - reflexivity.
Defined.

(** X20.  After [removeLocalStorage], or when nothing usable is stored,
    [getLocalStorage] gives the default: for a key that was removed, for a
    key whose item is the empty text, and for the word that storing
    [undefined] leaves behind. *)
Theorem getLocalStorage_default (room : Helpers.Storage -> string -> string -> bool)
    (key : string) (defaultValue : JSON.value) (st : Helpers.Storage) :
  Helpers.getLocalStorage key defaultValue (snd (Helpers.removeLocalStorage key st))
  = Return defaultValue
  /\ Helpers.getLocalStorage key defaultValue ((key, EmptyString) :: st) = Return defaultValue
  /\ Helpers.getLocalStorage key defaultValue
       (snd (Helpers.setLocalStorage room key JSON.Undefined st))
     = (if room st key "undefined"%string then Return defaultValue
        else Helpers.getLocalStorage key defaultValue st).
Proof.
  split; [|split].
  - unfold Helpers.removeLocalStorage, Helpers.getLocalStorage. cbn [snd].
    by rewrite getItem_removeItem.
  - unfold Helpers.getLocalStorage, Helpers.getItem. cbn [List.find fst].
    by rewrite String.eqb_refl.
  - unfold Helpers.setLocalStorage, Helpers.setItem, Helpers.item_text.
    destruct (room st key "undefined"%string); [|done]. cbn [snd].
    unfold Helpers.getLocalStorage, Helpers.getItem. cbn [List.find fst].
    by rewrite String.eqb_refl.
Qed.

(** X21.  A saved game survives local storage: storing the text of
    [saveGame] under a key and reading the key back gives a string that
    [loadGame] accepts, and loading it writes the saved session's fields
    whatever the controller held before. *)
Theorem saved_game_survives_storage (renders : GameController.Fields -> bool)
    (room : Helpers.Storage -> string -> string -> bool)
    (key : string) (s : GameBoard.Session) (now : Z)
    (prior : GameController.Fields) (defaultValue : JSON.value) (st : Helpers.Storage) :
  no_holes (GameBoard.board s) ->
  room st key (JSON.stringify (JSON.Str (GameController.saveGame s now))) = true ->
  exists st' text,
    Helpers.setLocalStorage room key (JSON.Str (GameController.saveGame s now)) st
    = (true, st')
    /\ Helpers.getLocalStorage key defaultValue st' = Return (JSON.Str text)
    /\ GameController.loadGame renders text prior
       = (Return (renders (GameController.fields_of s)), GameController.fields_of s).
Proof.
  intros Hholes Hroom.
  exists ((key, JSON.stringify (JSON.Str (GameController.saveGame s now)))
          :: Helpers.removeItem key st), (GameController.saveGame s now).
  split; [|split].
  - unfold Helpers.setLocalStorage, Helpers.setItem, Helpers.item_text. by rewrite Hroom.
  - unfold Helpers.getLocalStorage, Helpers.getItem. cbn [List.find fst].
    rewrite String.eqb_refl. cbn [fmap option_fmap option_map snd].
    destruct (stringify_nonempty (JSON.Str (GameController.saveGame s now)))
      as (_ & ch & rest & Hshape); [right; by eexists|].
    rewrite Hshape, <- Hshape. by rewrite parse_stringify_Str.
  - by apply saveGame_loadGame.
Qed.

Lemma saved_game_survives_storage_witness :
  exists st' text,
    Helpers.setLocalStorage (fun _ _ _ => true) "gomoku_save_game"
      (JSON.Str (GameController.saveGame
                   (run [ OpMakeMove 7 7 1; OpMakeMove 7 8 2 ] GameBoard.initial) 3)) []
    = (true, st')
    /\ Helpers.getLocalStorage "gomoku_save_game" JSON.Null st' = Return (JSON.Str text)
    /\ GameController.loadGame (fun _ => true) text
         (GameController.fields_of GameBoard.initial)
       = (Return true,
          GameController.fields_of
            (run [ OpMakeMove 7 7 1; OpMakeMove 7 8 2 ] GameBoard.initial)).
Proof.
  apply (saved_game_survives_storage (fun _ => true) (fun _ _ _ => true)
           "gomoku_save_game"
           (run [ OpMakeMove 7 7 1; OpMakeMove 7 8 2 ] GameBoard.initial) 3
           (GameController.fields_of GameBoard.initial) JSON.Null []).
  - vm_compute. repeat constructor; discriminate.
  - reflexivity.
Defined.

Section ShuffleProofs.

Context {A : Type}.
Variable undef : A.
Variable random_index : nat -> Z -> Z.
Hypothesis random_below : forall k n, 0 < n -> 0 <= random_index k n < n.

Lemma swap_Permutation (l : list A) (i j : Z) :
  0 <= i < Z.of_nat (length l) -> 0 <= j < Z.of_nat (length l) ->
  Helpers.swap undef l i j ≡ₚ l.
Proof.
  intros Hi Hj. unfold Helpers.swap, js_get, js_set.
  destruct (Z.ltb_spec i 0); [lia|]. destruct (Z.ltb_spec j 0); [lia|].
  destruct (Z.ltb_spec i (Z.of_nat (length l))); [|lia].
  rewrite length_insert. destruct (Z.ltb_spec j (Z.of_nat (length l))); [|lia].
  destruct (lookup_lt_is_Some_2 l (Z.to_nat i)) as [x Hx]; [lia|].
  destruct (lookup_lt_is_Some_2 l (Z.to_nat j)) as [y Hy]; [lia|].
  rewrite Hx, Hy. simpl. by apply Permutation_insert_swap.
Qed.

Lemma shuffle_from_Permutation (i k : nat) (l : list A) :
  (i < length l)%nat -> Helpers.shuffle_from undef random_index i k l ≡ₚ l.
Proof.
  revert k l. induction i as [|i IH]; intros k l Hi; [done|].
  cbn [Helpers.shuffle_from].
  pose proof (random_below k (Z.of_nat (S i) + 1)) as Hj.
  assert (Helpers.swap undef l (Z.of_nat (S i)) (random_index k (Z.of_nat (S i) + 1)) ≡ₚ l)
    as Hswap by (apply swap_Permutation; lia).
  rewrite IH; [exact Hswap|]. rewrite (Permutation_length Hswap). lia.
Qed.

End ShuffleProofs.

(** X22.  [shuffleArray] returns a permutation of its argument, whatever
    [Math.random] draws: every element is kept, as often as it occurred,
    and the result has the length of the argument. *)
Theorem shuffleArray_permutation {A : Type} (undef : A) (random_index : nat -> Z -> Z)
    (array : list A) :
  (forall k n, 0 < n -> 0 <= random_index k n < n) ->
  Helpers.shuffleArray undef random_index array ≡ₚ array
  /\ length (Helpers.shuffleArray undef random_index array) = length array.
Proof.
  intros Hrandom.
  assert (Helpers.shuffleArray undef random_index array ≡ₚ array) as Hperm.
  { unfold Helpers.shuffleArray. destruct array as [|x array]; [done|].
    apply shuffle_from_Permutation; [done|]. simpl. lia. }
  split; [done|]. by apply Permutation_length.
Qed.

Lemma shuffleArray_permutation_witness :
  Helpers.shuffleArray 0 (fun k n => (Z.of_nat k + 1) mod n) [ 10; 20; 30; 40 ]
  ≡ₚ [ 10; 20; 30; 40 ]
  /\ length (Helpers.shuffleArray 0 (fun k n => (Z.of_nat k + 1) mod n) [ 10; 20; 30; 40 ])
     = length [ 10; 20; 30; 40 ].
Proof.
  apply (shuffleArray_permutation 0 (fun k n => (Z.of_nat k + 1) mod n) [ 10; 20; 30; 40 ]).
  intros k n Hn. apply Z.mod_pos_bound. lia.
Defined.

Section Throttle.

Variable delay : Z.

Lemma throttled_calls_spec (times : list Z) (lastCall : Z) :
  sublist (Helpers.throttled_calls delay times lastCall) times
  /\ (forall a, head (Helpers.throttled_calls delay times lastCall) = Some a ->
        a - lastCall >= delay)
  /\ (forall i a b,
        Helpers.throttled_calls delay times lastCall !! i = Some a ->
        Helpers.throttled_calls delay times lastCall !! S i = Some b ->
        b - a >= delay).
Proof.
  revert lastCall. induction times as [|now rest IH]; intros lastCall.
  { split; [constructor|]. split; [done|]. by intros i a b Ha. }
  cbn [Helpers.throttled_calls]. unfold Helpers.throttled.
  destruct (Z.geb_spec (now - lastCall) delay) as [Hge|Hlt].
  - destruct (IH now) as (Hsub & Hhead & Hnext).
    split; [by constructor|]. split.
    + intros a [= <-]. lia.
    + intros [|i] a b Ha Hb; simpl in Ha, Hb.
      * injection Ha as <-. apply Hhead.
        by destruct (Helpers.throttled_calls delay rest now).
      * by apply (Hnext i).
  - destruct (IH lastCall) as (Hsub & Hhead & Hnext).
    split; [by constructor|]. by split.
Qed.

Lemma spaced_apart (ran : list Z) :
  0 <= delay ->
  (forall i a b, ran !! i = Some a -> ran !! S i = Some b -> b - a >= delay) ->
  forall n i a b, ran !! i = Some a -> ran !! (i + S n)%nat = Some b -> b - a >= delay.
Proof.
  intros Hdelay Hnext n. induction n as [|n IH]; intros i a b Ha Hb.
  - apply (Hnext i); [done|]. by replace (S i) with (i + 1)%nat by lia.
  - destruct (lookup_lt_is_Some_2 ran (i + S n)) as [x Hx].
    { apply lookup_lt_Some in Hb. lia. }
    pose proof (IH i a x Ha Hx).
    pose proof (Hnext (i + S n)%nat x b Hx) as Hstep.
    replace (S (i + S n)) with (i + S (S n))%nat in Hstep by lia.
    specialize (Hstep Hb). lia.
Qed.

End Throttle.

(** X23.  A throttled function runs only at times at which it was called,
    in the order of the calls; two runs that follow each other are at
    least [delay] apart on the clock, and so are any two runs when [delay]
    is not negative; the first run is not before time [delay], because
    the closure starts with [lastCall = 0]. *)
Theorem throttle_spacing (delay : Z) (times : list Z) :
  sublist (Helpers.throttle delay times) times
  /\ (forall a, head (Helpers.throttle delay times) = Some a -> a >= delay)
  /\ (forall i a b,
        Helpers.throttle delay times !! i = Some a ->
        Helpers.throttle delay times !! S i = Some b ->
        b - a >= delay)
  /\ (0 <= delay ->
      forall i j a b, (i < j)%nat ->
        Helpers.throttle delay times !! i = Some a ->
        Helpers.throttle delay times !! j = Some b ->
        b - a >= delay).
Proof.
  unfold Helpers.throttle.
  destruct (throttled_calls_spec delay times 0) as (Hsub & Hhead & Hnext).
  split; [done|]. split; [intros a Ha; specialize (Hhead a Ha); lia|].
  split; [done|]. intros Hdelay i j a b Hij Ha Hb.
  replace j with (i + S (j - i - 1))%nat in Hb by lia.
  by apply (spaced_apart delay _ Hdelay Hnext (j - i - 1) i).
Qed.

Lemma throttle_spacing_witness :
  Helpers.throttle 100 [ 1000; 1050; 1099; 1100; 1150; 1300 ] = [ 1000; 1100; 1300 ]
  /\ 1300 - 1000 >= 100.
Proof.
  split; [reflexivity|].
  destruct (throttle_spacing 100 [ 1000; 1050; 1099; 1100; 1150; 1300 ])
    as (_ & _ & _ & Hany).
  apply (Hany ltac:(lia) 0%nat 2%nat 1000 1300); [lia|reflexivity|reflexivity].
Defined.

Section MoveList.

Lemma fromCharCode_letter (c : Z) :
  0 <= c < 15 ->
  UIRenderer.fromCharCode (65 + c) = Helpers.hole_of_char (Helpers.char_at Helpers.letters c).
Proof.
  intros Hc. destruct (small_index c Hc) as
    [->|[->|[->|[->|[->|[->|[->|[->|[->|[->|[->|[->|[->|[->| ->]]]]]]]]]]]]]];
    reflexivity.
Qed.

Lemma position_on_board (m : Move) :
  on_board (row m) (col m) ->
  UIRenderer.position m = Helpers.boardToDisplayCoords (row m) (col m).
Proof.
  intros [_ Hc]. unfold UIRenderer.position, Helpers.boardToDisplayCoords.
  by rewrite fromCharCode_letter.
Qed.

End MoveList.

(** X24.  In every session reached by playing, the position that the move
    list shows for a recorded move is the display coordinate of its cell,
    as [boardToDisplayCoords] writes it, and [displayToBoardCoords] reads it
    back as the move's row and column. *)
Theorem move_list_shows_display_coords (s : GameBoard.Session) (m : Move) :
  reachable s -> m ∈ GameBoard.moveHistory s ->
  UIRenderer.position m = Helpers.boardToDisplayCoords (row m) (col m)
  /\ Helpers.displayToBoardCoords (UIRenderer.position m)
     = Some (Helpers.mkCoords (Helpers.Int (row m)) (col m)).
Proof.
  intros Hreach Hm.
  pose proof (inv_stones s (reachable_inv s Hreach)) as Hstones.
  rewrite Forall_forall in Hstones. destruct (Hstones m Hm) as [Hon _].
  rewrite (position_on_board m Hon). split; [done|].
  destruct Hon. by apply display_then_board.
Qed.

Lemma move_list_shows_display_coords_witness :
  UIRenderer.position (mkMove 7 8 white 2 2) = "I8"%string
  /\ Helpers.displayToBoardCoords (UIRenderer.position (mkMove 7 8 white 2 2))
     = Some (Helpers.mkCoords (Helpers.Int 7) 8).
Proof.
  apply (move_list_shows_display_coords
           (run [ OpMakeMove 7 7 1; OpMakeMove 7 8 2 ] GameBoard.initial)
           (mkMove 7 8 white 2 2)).
  - apply reachable_run, reachable_initial.
  - vm_compute. repeat constructor.
Defined.

Section Pixels.

Lemma round_div_cell (x : Z) :
  UIRenderer.round_div (x - UIRenderer.padding) UIRenderer.cellSize = x / 40.
Proof.
  unfold UIRenderer.round_div, UIRenderer.padding, UIRenderer.cellSize.
  replace (2 * (x - 20) + 40) with (x * 2) by lia.
  change (2 * 40) with (40 * 2). by rewrite Z.div_mul_cancel_r.
Qed.

Lemma div_cell (x q : Z) : x / 40 = q <-> -20 <= x - (20 + q * 40) < 20.
Proof.
  pose proof (Z.div_mod x 40 ltac:(lia)). pose proof (Z.mod_pos_bound x 40 ltac:(lia)).
  split; [intros <-; lia|]. intros Hq.
  symmetry. apply (Z.div_unique x 40 q (x - 40 * q)); lia.
Qed.

End Pixels.

(** X25.  For whole pixels, [pixelToBoard] returns the cell [(row, col)]
    exactly when the cell is on the board and the pixel lies within half a
    cell of the point where that cell's stone is drawn: from 20 pixels
    before it to 19 pixels after it, in both directions.  So a click on the
    centre of a drawn stone gives its cell, and [null] is returned exactly
    for pixels outside the 600 by 600 square that starts at the canvas
    corner. *)
Theorem pixelToBoard_nearest (left top pixelX pixelY r c : Z) :
  (UIRenderer.pixelToBoard left top pixelX pixelY = Some (r, c)
   <-> on_board r c
       /\ -20 <= (pixelX - left) - fst (UIRenderer.piece_centre r c) < 20
       /\ -20 <= (pixelY - top) - snd (UIRenderer.piece_centre r c) < 20)
  /\ (UIRenderer.pixelToBoard left top pixelX pixelY = None
      <-> ~ (0 <= pixelX - left < 600 /\ 0 <= pixelY - top < 600)).
Proof.
  unfold UIRenderer.pixelToBoard. cbn zeta. rewrite !round_div_cell.
  unfold UIRenderer.piece_centre, UIRenderer.boardSize, UIRenderer.padding,
    UIRenderer.cellSize, on_board. cbn [fst snd].
  pose proof (div_cell (pixelX - left) ((pixelX - left) / 40)) as [Hx _].
  pose proof (div_cell (pixelY - top) ((pixelY - top) / 40)) as [Hy _].
  specialize (Hx eq_refl). specialize (Hy eq_refl).
  revert Hx Hy. generalize ((pixelX - left) / 40), ((pixelY - top) / 40).
  intros qx qy Hx Hy.
  destruct ((qy >=? 0) && (qy <? 15) && (qx >=? 0) && (qx <? 15)) eqn:Hguard.
  - rewrite !andb_true_iff, !Z.geb_le, !Z.ltb_lt in Hguard.
    split; split.
    + intros [= <- <-]. lia.
    + intros (Hon & Hc & Hr). do 2 f_equal; lia.
    + done.
    + intros Hout. lia.
  - rewrite !andb_false_iff, <- !not_true_iff_false, !Z.geb_le, !Z.ltb_lt in Hguard.
    split; split.
    + done.
    + intros (Hon & Hc & Hr). lia.
    + intros _ Hin. lia.
    + done.
Qed.

Lemma pixelToBoard_nearest_witness :
  UIRenderer.pixelToBoard 8 8 (8 + 20 + 7 * 40 - 20) (8 + 20 + 3 * 40 + 19) = Some (3, 7).
Proof.
  destruct (pixelToBoard_nearest 8 8 (8 + 20 + 7 * 40 - 20) (8 + 20 + 3 * 40 + 19) 3 7)
    as [[_ Hback] _].
  apply Hback.
  unfold on_board, UIRenderer.piece_centre, UIRenderer.padding, UIRenderer.cellSize.
  cbn [fst snd]. lia.
Defined.

Section Click.

Lemma isValidMove_not_empty (b : Board) (r c : Z) :
  wf_board b -> ~ (on_board r c /\ cell_at b r c = Some null) ->
  GameLogic.isValidMove b r c = Return false.
Proof.
  intros Hwf Hnot.
  assert (on_board r c \/ (r < 0 \/ r >= 15 \/ c < 0 \/ c >= 15)) as [Hon|Hout]
    by (unfold on_board; lia); [|by apply isValidMove_out_of_range].
  destruct (cell_at_wf b r c Hwf Hon) as [x Hx].
  rewrite (isValidMove_on_board b r c x Hon Hx). f_equal.
  apply not_true_iff_false. rewrite Cell_eqb_eq. intros ->. by apply Hnot.
Qed.

End Click.

(** X26.  A click on the board never fails, on any session with a 15x15
    board.  If the game is over, or the cell is off the board or not empty,
    the session stays as it is and exactly one error message is shown, and
    nothing is redrawn.  Otherwise the move is made, the page is redrawn
    once from the new session, and then the win message for the player who
    clicked is shown exactly when the stone is part of five in a row, the
    draw message exactly when it is not and the board is full, and no
    message otherwise. *)
Theorem board_click_outcome (s : GameBoard.Session) (r c now : Z)
    (calls : list GameController.UICall) :
  wf_board (GameBoard.board s) ->
  let w' := GameController._handleBoardClick r c now (s, calls) in
  let legal := GameBoard.gameStatus s = playing /\ on_board r c
               /\ cell_at (GameBoard.board s) r c = Some null in
  (~ legal ->
   fst w' = s
   /\ snd w'
      = calls ++ [ GameController.showErrorMessage
                     (GameController.error_message
                        (if GameStatus_eqb (GameBoard.gameStatus s) playing
                         then InvalidMoveError else GameOverError)) ])
  /\ (legal ->
      fst w' = snd (GameBoard.makeMove r c now s)
      /\ exists tail,
           snd w' = calls ++ GameController.redraw (fst w') ++ tail
           /\ (five_in_a_row (GameBoard.board (fst w')) (GameBoard.currentPlayer s) r c ->
               tail = [ GameController.showWinMessage (GameBoard.currentPlayer s) ])
           /\ (~ five_in_a_row (GameBoard.board (fst w')) (GameBoard.currentPlayer s) r c ->
               board_full (GameBoard.board (fst w')) ->
               tail = [ GameController.showDrawMessage ])
           /\ (~ five_in_a_row (GameBoard.board (fst w')) (GameBoard.currentPlayer s) r c ->
               ~ board_full (GameBoard.board (fst w')) ->
               tail = [])).
Proof.
  intros Hwf w' legal. subst w' legal. unfold GameController._handleBoardClick.
  cbn [fst snd]. split.
  - intros Hnot. destruct (GameStatus_eqb (GameBoard.gameStatus s) playing) eqn:Hst.
    + apply GameStatus_eqb_eq in Hst.
      rewrite (makeMove_invalid s r c now Hst); [done|].
      apply isValidMove_not_empty; [done|]. intros [Hon Hnull]. by apply Hnot.
    + rewrite makeMove_game_over; [done|].
      intros Hplaying. apply GameStatus_eqb_eq in Hplaying. congruence.
  - intros (Hst & Hon & Hnull).
    destruct (makeMove_accepted s r c now Hwf Hst Hon Hnull)
      as (line & win & full & Hline & Hwin & Hfull & ->). cbn zeta in Hwin, Hfull.
    set (b' := <[Z.to_nat r := <[Z.to_nat c := piece (GameBoard.currentPlayer s)]> line]>
                 (GameBoard.board s)) in *.
    assert (wf_board b') as Hwf' by (by apply wf_board_insert).
    destruct (checkWinner_correct b' (GameBoard.currentPlayer s) Hwf' r c)
      as (v & Hv & Hfive).
    rewrite Hwin in Hv. injection Hv as <-.
    destruct (checkDraw_correct b' Hwf') as (v & Hv & Hboard).
    rewrite Hfull in Hv. injection Hv as <-.
    unfold GameBoard.getGameStatus, after_move. cbn [GameBoard.gameStatus].
    destruct win.
    + cbn [fst snd]. split; [done|].
      exists [ GameController.showWinMessage (GameBoard.currentPlayer s) ].
      split.
      { unfold GameController._handleGameWon, GameController.ui, GameBoard.getWinner.
        cbn [fst snd GameBoard.winner]. rewrite <- app_assoc. do 3 f_equal.
        by destruct (GameBoard.currentPlayer s). }
      split; [done|]. split; intros Hno; destruct Hno; by apply Hfive.
    + destruct full.
      * cbn [fst snd]. split; [done|]. exists [ GameController.showDrawMessage ].
        split; [unfold GameController._handleGameDraw, GameController.ui; cbn [fst snd];
                by rewrite <- app_assoc|].
        split; [intros Hyes; by apply Hfive in Hyes|]. split; [done|].
        intros _ Hno. destruct Hno. by apply Hboard.
      * cbn [fst snd]. split; [done|]. exists [].
        split; [unfold GameController.ui; cbn [fst snd]; by rewrite app_nil_r|].
        split; [intros Hyes; by apply Hfive in Hyes|]. split; [|done].
        intros _ Hyes. by apply Hboard in Hyes.
Qed.

Lemma board_click_outcome_witness :
  fst (GameController._handleBoardClick 7 7 5
         (run [ OpMakeMove 7 7 1; OpMakeMove 7 8 2 ] GameBoard.initial, []))
  = run [ OpMakeMove 7 7 1; OpMakeMove 7 8 2 ] GameBoard.initial
  /\ snd (GameController._handleBoardClick 7 7 5
            (run [ OpMakeMove 7 7 1; OpMakeMove 7 8 2 ] GameBoard.initial, []))
     = [] ++ [ GameController.showErrorMessage
                 (GameController.error_message InvalidMoveError) ].
Proof.
  assert (wf_board (GameBoard.board
                      (run [ OpMakeMove 7 7 1; OpMakeMove 7 8 2 ] GameBoard.initial)))
    as Hwf.
  { split; [reflexivity|]. vm_compute. repeat constructor. }
  destruct (board_click_outcome
              (run [ OpMakeMove 7 7 1; OpMakeMove 7 8 2 ] GameBoard.initial) 7 7 5 [] Hwf)
    as [Hrefused _].
  apply Hrefused. intros (_ & _ & Hnull). vm_compute in Hnull. discriminate Hnull.
Defined.
